(** * Assemblies: the firing scheduler and the connectome engine

    A shallow embedding of [assemblies/utils.py] (the scheduler [fire_many])
    and of [brain/connectome/connectome.py] (the class [Connectome]), with the
    properties of the design document stated over it.

    Conventions.
    - A Python [dict] is an association list in insertion order
      ([dict_get], [dict_set]): assigning to a present key replaces the value
      in place, assigning to an absent key appends the item.
    - Synaptic weights are exact rationals ([Q]); the floating point rounding
      of numpy is not modelled.
    - A Python exception is a value [Err e] of the [result] type. *)

From Stdlib Require Import QArith Qpower Lqa Sorted.
From stdpp Require Import base decidable numbers option list.

(** ** Python dictionaries *)

Section py_dict.
Context {K V : Type} `{EqDecision K}.

(** [d.get(k)] *)
Fixpoint dict_get (d : list (K * V)) (k : K) : option V :=
  match d with
  | [] => None
  | (k', v) :: d' => if decide (k = k') then Some v else dict_get d' k
  end.

(** [d.get(k, dflt)] *)
Definition dict_get_or (d : list (K * V)) (k : K) (dflt : V) : V :=
  default dflt (dict_get d k).

(** [k in d] *)
Definition dict_mem (d : list (K * V)) (k : K) : bool :=
  bool_decide (is_Some (dict_get d k)).

(** [d[k] = v] *)
Fixpoint dict_set (d : list (K * V)) (k : K) (v : V) : list (K * V) :=
  match d with
  | [] => [(k, v)]
  | (k', v') :: d' =>
      if decide (k = k') then (k', v) :: d' else (k', v') :: dict_set d' k v
  end.

(** [d.keys()] *)
Definition dict_keys (d : list (K * V)) : list K := d.*1.

(** [{**d1, **d2}], and more generally [d1.update(items)] *)
Definition dict_update (d1 d2 : list (K * V)) : list (K * V) :=
  fold_left (fun d kv => dict_set d kv.1 kv.2) d2 d1.
End py_dict.

(** ** Brain parts

    Modelled from the spec: the classes [Area] and [Stimulus] of
    [brain.components] are not among the sources.  An area carries a neuron
    count [n] and a winner quota [k], a stimulus a neuron count [n]; the
    identifier stands for the identity of the Python object. *)

Record Area := mkArea { area_id : nat; area_n : nat; area_k : nat }.
Record Stimulus := mkStimulus { stim_id : nat; stim_n : nat }.

Inductive BrainPart :=
| PartArea (a : Area)
| PartStimulus (s : Stimulus).

#[global] Instance Area_eq_dec : EqDecision Area.
Proof. solve_decision. Defined.
#[global] Instance Stimulus_eq_dec : EqDecision Stimulus.
Proof. solve_decision. Defined.
#[global] Instance BrainPart_eq_dec : EqDecision BrainPart.
Proof. solve_decision. Defined.

(** [isinstance(part, Area)], [part.n] *)
Definition is_area (part : BrainPart) : bool :=
  match part with PartArea _ => true | PartStimulus _ => false end.
Definition part_n (part : BrainPart) : nat :=
  match part with PartArea a => area_n a | PartStimulus s => stim_n s end.

(** The argument of [Brain.next_round] and of [Connectome.fire]:
    [Dict[BrainPart, List[Area]]]. *)
Abbreviation mapping := (list (BrainPart * list Area)).

(** ** Exceptions *)

Inductive error := KeyError | IndexError | ValueError.

Inductive result (A : Type) :=
| OK (a : A)
| Err (e : error).
Arguments OK {A} a.
Arguments Err {A} e.

#[global] Instance result_ret : MRet result := fun A a => OK a.
#[global] Instance result_bind : MBind result := fun A B f m =>
  match m with OK a => f a | Err e => Err e end.

(** [d[k]], which raises [KeyError] on an absent key *)
Definition dict_item {K V : Type} `{EqDecision K} (d : list (K * V)) (k : K)
  : result V :=
  match dict_get d k with Some v => OK v | None => Err KeyError end.

(** A loop whose body may raise: [for x in l: b = f(b, x)] *)
Fixpoint foldlM {A B : Type} (f : B -> A -> result B) (l : list A) (b : B)
  : result B :=
  match l with
  | [] => OK b
  | x :: l' => b' ← f b x; foldlM f l' b'
  end.

(** [[f(x) for x in l]] where [f] may raise *)
Fixpoint mapM_result {A B : Type} (f : A -> result B) (l : list A)
  : result (list B) :=
  match l with
  | [] => OK []
  | x :: l' => y ← f x; ys ← mapM_result f l'; OK (y :: ys)
  end.

(** * The firing scheduler, [assemblies/utils.py] *)

Module Scheduler.

(** Modelled from the spec: the class [Assembly] of
    [assemblies.assembly_fun] is not among the sources.  An assembly is
    identified by its owning area and the ordered collection of its parents,
    each a stimulus or an assembly; the parent relation is a finite DAG. *)
#[warnings="-register-all"]
Inductive Projectable :=
| ProjStimulus (s : Stimulus)
| ProjAssembly (area : Area) (parents : list Projectable).

#[warnings="-register-all"]
Fixpoint Projectable_eq_dec (x y : Projectable) {struct x} : Decision (x = y).
Proof.
  refine
    match x, y with
    | ProjStimulus s, ProjStimulus t => cast_if (decide (s = t))
    | ProjAssembly a ps, ProjAssembly b qs =>
        cast_if_and (decide (a = b)) (@list_eq_dec _ Projectable_eq_dec ps qs)
    | _, _ => right _
    end; abstract congruence.
Defined.
#[global] Instance Projectable_EqDecision : EqDecision Projectable :=
  Projectable_eq_dec.

(** [isinstance(projectable, Assembly)], [isinstance(ass, Stimulus)] *)
Definition is_Assembly (x : Projectable) : bool :=
  match x with ProjAssembly _ _ => true | ProjStimulus _ => false end.
Definition is_Stimulus (x : Projectable) : bool :=
  match x with ProjStimulus _ => true | ProjAssembly _ _ => false end.

(** One layer of the parent tree: [Dict[Projectable, List[Area]]]. *)
Abbreviation layer := (list (Projectable * list Area)).

(** Lines 30-31, the body of [for ass in prev_layer]:
    [for parent in ass.parents:
       current_layer[parent] = current_layer.get(ass, []) + [ass.area]].
    The accumulated list is looked up under the child [ass]. *)
Definition add_parents (current_layer : layer) (ass : Projectable) : layer :=
  match ass with
  | ProjStimulus _ => current_layer
  | ProjAssembly area parents =>
      fold_left
        (fun cur parent => dict_set cur parent (dict_get_or cur ass [] ++ [area]))
        parents current_layer
  end.

(** Lines 27-31: the layer above [top]. *)
Definition next_layer (top : layer) : layer :=
  let prev_layer := filter (fun ass => negb (is_Stimulus ass)) (dict_keys top) in
  fold_left add_parents prev_layer [].

(** Lines 26-33, the [while] loop; [layers] grows at its end and the loop
    stops when the last layer holds no assembly.  [None] when the fuel runs
    out. *)
Fixpoint build_layers (fuel : nat) (layers : list layer) : option (list layer) :=
  match fuel with
  | 0 => None
  | S fuel' =>
      match last layers with
      | None => None
      | Some top =>
          if existsb is_Assembly (dict_keys top)
          then build_layers fuel' (layers ++ [next_layer top])
          else Some layers
      end
  end.

(** Lines 37-39: [{stim: areas for stim, areas in layer.items()
                   if isinstance(stim, Stimulus)}] *)
Definition stimuli_mappings (l : layer) : mapping :=
  fold_left
    (fun m (item : Projectable * list Area) =>
       match item.1 with
       | ProjStimulus stim => dict_set m (PartStimulus stim) item.2
       | ProjAssembly _ _ => m
       end) l [].

(** Lines 41-43: assemblies are translated to their owning area, the lists of
    two assemblies of one area are concatenated. *)
Definition assembly_mapping (l : layer) : list (Area * list Area) :=
  fold_left
    (fun m (item : Projectable * list Area) =>
       match item.1 with
       | ProjAssembly area _ => dict_set m area (dict_get_or m area [] ++ item.2)
       | ProjStimulus _ => m
       end) l [].

(** Line 45: [{**stimuli_mappings, **assembly_mapping}] *)
Definition layer_mapping (l : layer) : mapping :=
  dict_update (stimuli_mappings l)
    (map (fun item : Area * list Area => (PartArea item.1, item.2)) (assembly_mapping l)).

(** The height of an entity in the parent tree bounds the number of layers. *)
Fixpoint depth (x : Projectable) : nat :=
  match x with
  | ProjStimulus _ => 0
  | ProjAssembly _ parents => S (foldr (fun p d => Nat.max (depth p) d) 0 parents)
  end.
Definition layer_depth (l : layer) : nat :=
  foldr (fun p d => Nat.max (depth p) d) 0 (dict_keys l).

(** A key of the layer above is a parent of an assembly of the layer. *)
Definition parent_in (top : list Projectable) (parent : Projectable) : Prop :=
  exists area parents,
    ProjAssembly area parents ∈ top /\ parent ∈ parents.

(** Line 25: [{projectable: [area] for projectable in projectables}] *)
Definition first_layer (projectables : list Projectable) (area : Area) : layer :=
  fold_left (fun l projectable => dict_set l projectable [area]) projectables [].

(** [fire_many], as the sequence of the arguments of [brain.next_round], in
    the order of the calls. *)
Definition fire_many (projectables : list Projectable) (area : Area)
  : option (list mapping) :=
  let layer0 := first_layer projectables area in
  layers ← build_layers (S (layer_depth layer0)) [layer0];
  Some (map layer_mapping (reverse layers)).

End Scheduler.


(** * The connectome engine, [brain/connectome/connectome.py] *)

(** ** numpy arrays *)

(** A two-dimensional [ndarray]: its shape and its entries.  [entry i j] is
    meaningful for [i < nrows] and [j < ncols] only. *)
Record ndarray := mkArray { nrows : nat; ncols : nat; entry : nat -> nat -> Q }.

(** [np.zeros(n)] *)
Definition zeros (n : nat) : list Q := replicate n 0%Q.

(** [u + v] on one-dimensional arrays of one length (broadcasting of arrays of
    different lengths is not modelled: [ValueError]). *)
Definition vadd (u v : list Q) : result (list Q) :=
  if decide (length u = length v) then OK (zip_with Qplus u v) else Err ValueError.

(** [m[i, :]] *)
Definition row (m : ndarray) (i : nat) : result (list Q) :=
  if decide (i < nrows m) then OK (map (entry m i) (seq 0 (ncols m)))
  else Err IndexError.

(** [m.sum(axis=0)]: the sum of each column *)
Definition sum_axis0 (m : ndarray) : list Q :=
  map (fun j => fold_left Qplus (map (fun i => entry m i j) (seq 0 (nrows m))) 0%Q)
      (seq 0 (ncols m)).

(** [sum(vs)] for vectors that are added to an array of length [n]: the
    integer [0] the sum starts from is the zero vector. *)
Definition vsum (n : nat) (vs : list (list Q)) : result (list Q) :=
  foldlM vadd vs (zeros n).

(** [m[rows, cols[:, None]] *= f]: the entries at the product of the two index
    lists are scaled, each once; an index out of range raises. *)
Definition scale_at (m : ndarray) (rows cols : list nat) (f : Q) : result ndarray :=
  if decide (Forall (fun i => i < nrows m) rows /\ Forall (fun j => j < ncols m) cols)
  then OK {| nrows := nrows m; ncols := ncols m;
             entry := fun i j =>
                        if decide (i ∈ rows /\ j ∈ cols) then (entry m i j * f)%Q
                        else entry m i j |}
  else Err IndexError.

(** [l[-k:]] *)
Definition take_last {A : Type} (k : nat) (l : list A) : list A :=
  if decide (k = 0) then l else drop (length l - k) l.

(** ** Connections and the state of a connectome *)

(** Modelled from the spec: the class [Connection] of [brain.components] is
    not among the sources; it is built as [Connection(part, area, synapses)]
    and read through [synapses] and [beta]. *)
Record Connection := mkConnection {
  conn_source : BrainPart;
  conn_dest : BrainPart;
  synapses : ndarray }.

Abbreviation conn_key := (BrainPart * BrainPart)%type.

Section connectome.
(** The state of the random generator [self.rng]. *)
Context {Rng : Type}.

(** Modelled from the spec: [RandomMatrix.multi_generate] of
    [brain.performance] is not among the sources.
    [multi_generate rng cols rows p] stands for
    [rng.multi_generate(cols, rows, p).reshape((rows, cols), order='F')]:
    the entries of the reshaped matrix and the next state of the generator. *)
Variable multi_generate : Rng -> nat -> nat -> Q -> (nat -> nat -> Q) * Rng.

(** Modelled from the spec: the plasticity rate [connection.beta], constant
    for the lifetime of the connection between two parts. *)
Variable connection_beta : BrainPart -> BrainPart -> Q.

(** [np.argpartition(v, kth)] *)
Variable argpartition : list Q -> Z -> result (list nat).

(** Modelled from the spec: the fields that [AbstractConnectome] declares.
    [winners] is read with the empty list for an area that never fired. *)
Record Connectome := mkConnectome {
  p : Q;
  areas : list Area;
  stimuli : list Stimulus;
  connections : list (conn_key * Connection);
  winners : list (Area * list nat);
  plasticity_disabled : bool;
  rng : Rng }.

Definition set_connections (st : Connectome) (c : list (conn_key * Connection))
  : Connectome :=
  mkConnectome (p st) (areas st) (stimuli st) c (winners st)
               (plasticity_disabled st) (rng st).
Definition set_winners (st : Connectome) (w : list (Area * list nat))
  : Connectome :=
  mkConnectome (p st) (areas st) (stimuli st) (connections st) w
               (plasticity_disabled st) (rng st).
Definition set_rng (st : Connectome) (r : Rng) : Connectome :=
  mkConnectome (p st) (areas st) (stimuli st) (connections st) (winners st)
               (plasticity_disabled st) r.

(** [self.winners[area]] *)
Definition winners_of (st : Connectome) (area : Area) : list nat :=
  dict_get_or (winners st) area [].

(** Lines 54-63. *)
Definition _initialize_connection (st : Connectome) (part area : BrainPart)
  : Connectome :=
  let '(entries, rng') := multi_generate (rng st) (part_n area) (part_n part) (p st) in
  let synapses := mkArray (part_n part) (part_n area) entries in
  set_rng
    (set_connections st
       (dict_set (connections st) (part, area) (mkConnection part area synapses)))
    rng'.

(** Lines 42-52. *)
Definition _initialize_parts (st : Connectome) (parts : list BrainPart)
  : Connectome :=
  fold_left
    (fun st part =>
       fold_left
         (fun st other =>
            let st := _initialize_connection st part other in
            if is_area part && bool_decide (part <> other)
            then _initialize_connection st other part
            else st)
         (map PartArea (areas st) ++ map PartStimulus (stimuli st)) st)
    parts st.

(** Lines 19-32; [super().__init__] stores [p], the areas and the stimuli,
    and the argument [connections] is not used. *)
Definition new_connectome (p : Q) (areas : list Area) (stimuli : list Stimulus)
    (initialize : bool) (rng0 : Rng) : Connectome :=
  let st := mkConnectome p areas stimuli [] [] false rng0 in
  if initialize
  then _initialize_parts st (map PartArea areas ++ map PartStimulus stimuli)
  else st.

(** Lines 34-40; [super().add_area] and [super().add_stimulus] append the
    part to [self.areas] and [self.stimuli]. *)
Definition add_area (st : Connectome) (area : Area) : Connectome :=
  let st := mkConnectome (p st) (areas st ++ [area]) (stimuli st)
              (connections st) (winners st) (plasticity_disabled st) (rng st) in
  _initialize_parts st [PartArea area].

Definition add_stimulus (st : Connectome) (stimulus : Stimulus) : Connectome :=
  let st := mkConnectome (p st) (areas st) (stimuli st ++ [stimulus])
              (connections st) (winners st) (plasticity_disabled st) (rng st) in
  _initialize_parts st [PartStimulus stimulus].

(** *** Firing *)

Definition as_area (part : BrainPart) : option Area :=
  match part with PartArea a => Some a | PartStimulus _ => None end.
Definition as_stimulus (part : BrainPart) : option Stimulus :=
  match part with PartStimulus s => Some s | PartArea _ => None end.

(** Lines 131-133 of [_project_into]: a source without a connection into
    [area] gets one. *)
Definition _project_into_connect (st : Connectome) (area : Area)
    (sources : list BrainPart) : Connectome :=
  fold_left
    (fun st part =>
       if dict_mem (connections st) (part, PartArea area) then st
       else _initialize_connection st part (PartArea area))
    sources st.

(** Lines 137-138: the rows of the winners of a source area, summed. *)
Definition area_input (W : list (Area * list nat))
    (C : list (conn_key * Connection)) (area source : Area) : result (list Q) :=
  area_connectome ← dict_item C (PartArea source, PartArea area);
  rows ← mapM_result (row (synapses area_connectome)) (dict_get_or W source []);
  vsum (area_n area) rows.

(** Line 140: all the rows of the connection of a stimulus, summed. *)
Definition stimulus_input (C : list (conn_key * Connection)) (area : Area)
    (stim : Stimulus) : result (list Q) :=
  connection ← dict_item C (PartStimulus stim, PartArea area);
  OK (sum_axis0 (synapses connection)).

(** Lines 129-140: the total input of each neuron of [area], a function of
    the winners [W] and of the connections [C] that are read. *)
Definition prev_winner_inputs (W : list (Area * list nat))
    (C : list (conn_key * Connection)) (area : Area) (sources : list BrainPart)
  : result (list Q) :=
  let src_areas := omap as_area sources in
  let src_stimuli := omap as_stimulus sources in
  inputs ← foldlM
             (fun inputs source => v ← area_input W C area source; vadd inputs v)
             src_areas (zeros (area_n area));
  match src_stimuli with
  | [] => OK inputs
  | _ =>
      vs ← mapM_result (stimulus_input C area) src_stimuli;
      total ← vsum (area_n area) vs;
      vadd inputs total
  end.

(** Line 141: [np.argpartition(inputs, area.n - area.k)[-area.k:]] *)
Definition select_winners (area : Area) (inputs : list Q) : result (list nat) :=
  order ← argpartition inputs (Z.of_nat (area_n area) - Z.of_nat (area_k area))%Z;
  OK (take_last (area_k area) order).

(** Lines 121-141. *)
Definition _project_into (st : Connectome) (area : Area)
    (sources : list BrainPart) : result (Connectome * list nat) :=
  let st := _project_into_connect st area sources in
  inputs ← prev_winner_inputs (winners st) (connections st) area sources;
  new_winners ← select_winners area inputs;
  OK (st, new_winners).

(** Lines 95-96: the active neurons of a source. *)
Definition source_neurons (st : Connectome) (source : BrainPart) : list nat :=
  match source with
  | PartStimulus s => seq 0 (stim_n s)
  | PartArea a => winners_of st a
  end.

(** Lines 93-109, the body of [for source in sources[area]]. *)
Definition potentiate (area : Area) (new_winners : list nat)
    (st : Connectome) (source : BrainPart) : result Connectome :=
  connection ← dict_item (connections st) (source, PartArea area);
  let beta := connection_beta (conn_source connection) (conn_dest connection) in
  scaled ← scale_at (synapses connection) (source_neurons st source)
                    new_winners (1 + beta)%Q;
  OK (set_connections st
        (dict_set (connections st) (source, PartArea area)
           (mkConnection (conn_source connection) (conn_dest connection) scaled))).

(** Lines 92-109, the body of [for area in new_winners]. *)
Definition potentiate_area (new_winners : list (Area * list nat))
    (sources : list (Area * list BrainPart))
    (st : Connectome) (area : Area) : result Connectome :=
  srcs ← dict_item sources area;
  winners_area ← dict_item new_winners area;
  foldlM (potentiate area winners_area) srcs st.

(** Lines 83-109. *)
Definition update_connectomes (st : Connectome)
    (new_winners : list (Area * list nat))
    (sources : list (Area * list BrainPart)) : result Connectome :=
  if plasticity_disabled st then OK st
  else foldlM (potentiate_area new_winners sources) (dict_keys new_winners) st.

(** Line 119, the body of [for area in to_update]. *)
Definition commit_area (new_winners : list (Area * list nat))
    (st : Connectome) (area : Area) : result Connectome :=
  winners_area ← dict_item new_winners area;
  OK (set_winners st (dict_set (winners st) area winners_area)).

(** Lines 111-119. *)
Definition update_winners (st : Connectome)
    (new_winners : list (Area * list nat))
    (sources : list (Area * list BrainPart)) : result Connectome :=
  foldlM (commit_area new_winners) (dict_keys sources) st.

(** Lines 149-154: the sources of each destination area, in the order of
    the request and with their repetitions. *)
Definition sources_mapping (connections : mapping) : list (Area * list BrainPart) :=
  fold_left
    (fun sm (item : BrainPart * list Area) =>
       fold_left
         (fun sm area => dict_set sm area (dict_get_or sm area [] ++ [item.1]))
         item.2 sm)
    connections [].

(** Line 161, the body of [for area in to_update]. *)
Definition project_area (sources : list (Area * list BrainPart))
    (acc : Connectome * list (Area * list nat)) (area : Area)
  : result (Connectome * list (Area * list nat)) :=
  srcs ← dict_item sources area;
  r ← _project_into acc.1 area srcs;
  OK (r.1, dict_set acc.2 area r.2).

(** Lines 159-161. *)
Definition compute_winners (st : Connectome)
    (sources : list (Area * list BrainPart))
  : result (Connectome * list (Area * list nat)) :=
  foldlM (project_area sources) (dict_keys sources) (st, []).

(** Lines 143-164. *)
Definition fire (st : Connectome) (connections : mapping) : result Connectome :=
  let sources := sources_mapping connections in
  r ← compute_winners st sources;
  st ← update_connectomes r.1 r.2 sources;
  update_winners st r.2 sources.
(** *** The accessors *)

(** Lines 80-81: [[source for source, dest in self.connections if dest == area]] *)
Definition get_connected_parts (st : Connectome) (area : Area) : list BrainPart :=
  (filter (fun key : conn_key => key.2 = PartArea area)
          (dict_keys (connections st))).*1.

(** Lines 68-77, with [request] for the argument [connections].  The set
    [areas] is listed without repetitions, in the order of first occurrence
    (Python leaves the order of [list(set)] open); every edge is looked up in
    [self.connections], which raises [KeyError] for a pair without a
    connection; the list [neural_subnet] is handed to the constructor, which
    does not use it.  [rng0] is the generator of the new connectome. *)
Definition subconnectome (rng0 : Rng) (st : Connectome) (request : mapping)
  : result Connectome :=
  let areas :=
    remove_dups (omap as_area (dict_keys request) ++ mjoin request.*2) in
  let stimuli := omap as_stimulus (dict_keys request) in
  let edges :=
    flat_map (fun part => map (pair part) (dict_get_or request part []))
             (dict_keys request) in
  neural_subnet ←
    mapM_result
      (fun edge : BrainPart * Area =>
         c ← dict_item (connections st) (edge.1, PartArea edge.2); OK (edge, c))
      edges;
  OK (new_connectome (p st) areas stimuli false rng0).

(** A sequence of rounds: [fire] called on each request in turn. *)
Definition fire_rounds (st : Connectome) (requests : list mapping)
  : result Connectome :=
  foldlM fire requests st.
End connectome.

Arguments Connectome : clear implicits.

(** ** A concrete environment

    [np_argpartition] is the stable sort of the indices by value, which is one
    of the results numpy allows; [kth] is checked as numpy does. *)

Fixpoint insert_by (v : list Q) (i : nat) (l : list nat) : list nat :=
  match l with
  | [] => [i]
  | j :: l' =>
      if Qle_bool (default 0%Q (v !! j)) (default 0%Q (v !! i))
      then j :: insert_by v i l'
      else i :: l
  end.

Definition np_argsort (v : list Q) : list nat :=
  fold_left (fun acc i => insert_by v i acc) (seq 0 (length v)) [].

Definition np_argpartition (v : list Q) (kth : Z) : result (list nat) :=
  let n := Z.of_nat (length v) in
  let kth' := if decide (kth < 0)%Z then (kth + n)%Z else kth in
  if decide (n = 0 \/ 0 <= kth' < n)%Z then OK (np_argsort v) else Err ValueError.

(** A generator with a counter as state: entry [(i, j)] of the matrix drawn
    at state [r] is [(i + 2 j + r) mod 3]. *)
Definition counter_generate (r cols rows : nat) (p : Q)
  : (nat -> nat -> Q) * nat :=
  (fun i j => inject_Z (Z.of_nat ((i + 2 * j + r) mod 3)), S r).

Definition beta_tenth (_ _ : BrainPart) : Q := 1 # 10.

(** ** Vocabulary of the statements *)

(** The (source, destination) pairs of a request, in the order [fire] visits
    them and with their repetitions. *)
Definition pairs (req : mapping) : list (BrainPart * Area) :=
  flat_map (fun item : BrainPart * list Area => map (pair item.1) item.2) req.

(** The destination areas of a request. *)
Definition dests (req : mapping) : list Area := (pairs req).*2.

(** The sources of [area] in a request, with their repetitions. *)
Definition sources_for (req : mapping) (area : Area) : list BrainPart :=
  (filter (fun pa : BrainPart * Area => pa.2 = area) (pairs req)).*1.

(** How many times [x] occurs in [l]. *)
Definition occurrences {A : Type} `{EqDecision A} (x : A) (l : list A) : nat :=
  length (filter (fun y => y = x) l).

(** [c'] is [c] with the entries at [rows] x [cols] multiplied [m] times by
    [1 + beta] and every other entry, the shape and the end points as in [c]. *)
Definition potentiated (beta : Q) (rows cols : list nat) (m : nat)
    (c c' : Connection) : Prop :=
  conn_source c' = conn_source c /\ conn_dest c' = conn_dest c /\
  nrows (synapses c') = nrows (synapses c) /\
  ncols (synapses c') = ncols (synapses c) /\
  forall i j,
    entry (synapses c') i j =
      if decide (i ∈ rows /\ j ∈ cols)
      then Nat.iter m (fun w => (w * (1 + beta))%Q) (entry (synapses c) i j)
      else entry (synapses c) i j.

(** What [fire] relies on of [np.argpartition]: a result is a permutation of
    the indices of the array, [kth] out of range raises unless the array is
    empty, and [kth] in range gives a result. *)
Record argpartition_contract (argpartition : list Q -> Z -> result (list nat))
  : Prop := {
  argpartition_perm : forall v kth order,
    argpartition v kth = OK order -> order ≡ₚ seq 0 (length v);
  argpartition_range : forall v kth order,
    argpartition v kth = OK order -> v <> [] ->
    (- Z.of_nat (length v) <= kth < Z.of_nat (length v))%Z;
  argpartition_total : forall v kth,
    (0 <= kth < Z.of_nat (length v))%Z -> exists order, argpartition v kth = OK order }.

(** What the selection relies on beyond [argpartition_contract]: the element
    at position [kth] of a result is in its sorted position, no element before
    it is larger and no element after it is smaller. *)
Definition argpartition_partitions
    (argpartition : list Q -> Z -> result (list nat)) : Prop :=
  forall v kth order i j a b,
    argpartition v kth = OK order ->
    (0 <= kth < Z.of_nat (length v))%Z ->
    i <= Z.to_nat kth <= j ->
    order !! i = Some a -> order !! j = Some b ->
    (default 0 (v !! a) <= default 0 (v !! b))%Q.

(** A connection as [_initialize_connection] makes it for the pair [key]. *)
Definition fresh_connection (key : conn_key) (c : Connection) : Prop :=
  conn_source c = key.1 /\ conn_dest c = key.2 /\
  nrows (synapses c) = part_n key.1 /\ ncols (synapses c) = part_n key.2.

(** [st1] is [st] with connections added for pairs in [R] that had none, and
    nothing else changed but the random generator. *)
Record lazily_extends {Rng : Type} (R : conn_key -> Prop)
    (st st1 : Connectome Rng) : Prop := {
  ext_p : p st1 = p st;
  ext_areas : areas st1 = areas st;
  ext_stimuli : stimuli st1 = stimuli st;
  ext_winners : winners st1 = winners st;
  ext_plasticity : plasticity_disabled st1 = plasticity_disabled st;
  ext_keep : forall key c,
    dict_get (connections st) key = Some c ->
    dict_get (connections st1) key = Some c;
  ext_new : forall key c,
    dict_get (connections st) key = None ->
    dict_get (connections st1) key = Some c ->
    R key /\ fresh_connection key c }.

(** [st'] is [st] up to the connections. *)
Definition same_but_connections {Rng : Type} (st st' : Connectome Rng) : Prop :=
  p st' = p st /\ areas st' = areas st /\ stimuli st' = stimuli st /\
  winners st' = winners st /\ plasticity_disabled st' = plasticity_disabled st /\
  rng st' = rng st.

(** The connection [key] is one that the request [req] fires through. *)
Definition fired_through (req : mapping) (key : conn_key) : Prop :=
  exists area, key.2 = PartArea area /\ (key.1, area) ∈ pairs req.

(** The sum of a list of rationals. *)
Definition qsum (l : list Q) : Q := foldr Qplus 0%Q l.

(** What one occurrence of the source [s] adds to the input of neuron [j] of
    [area]: the weights into [j] from the winners of a source area, or from
    all the rows of the connection of a stimulus. *)
Definition source_input (W : list (Area * list nat))
    (C : list (conn_key * Connection)) (area : Area) (s : BrainPart) (j : nat) : Q :=
  match dict_get C (s, PartArea area) with
  | None => 0%Q
  | Some c =>
      qsum (map (fun i => entry (synapses c) i j)
              match s with
              | PartArea a => dict_get_or W a []
              | PartStimulus _ => seq 0 (nrows (synapses c))
              end)
  end.

(** The state of a connectome is well shaped when the matrix of every
    connection has the shape given by the neuron counts of its end points and
    the winners of every area are neurons of the area. *)
Definition well_shaped {Rng : Type} (st : Connectome Rng) : Prop :=
  (forall key c, dict_get (connections st) key = Some c ->
     nrows (synapses c) = part_n key.1 /\ ncols (synapses c) = part_n key.2) /\
  (forall area, Forall (fun i => i < area_n area) (winners_of st area)).

(** The connection that lines 61-63 make for the pair [key] when the
    generator is in the state [r]: the end points of the pair, and the matrix
    that [multi_generate(dest.n, source.n, p)] returns, reshaped to
    [source.n] rows and [dest.n] columns. *)
Definition drawn_connection {Rng : Type}
    (multi_generate : Rng -> nat -> nat -> Q -> (nat -> nat -> Q) * Rng)
    (r : Rng) (p : Q) (key : conn_key) : Connection :=
  mkConnection key.1 key.2
    (mkArray (part_n key.1) (part_n key.2)
       (multi_generate r (part_n key.2) (part_n key.1) p).1).

(** Successive draws for the pairs [keys]: the first at the generator state
    [r], each next one at the state the one before left.  The connections
    drawn, in this order, and the state of the generator after the last. *)
Fixpoint draw_all {Rng : Type}
    (multi_generate : Rng -> nat -> nat -> Q -> (nat -> nat -> Q) * Rng)
    (r : Rng) (p : Q) (keys : list conn_key)
  : list (conn_key * Connection) * Rng :=
  match keys with
  | [] => ([], r)
  | key :: keys' =>
      let rest :=
        draw_all multi_generate
          (multi_generate r (part_n key.2) (part_n key.1) p).2 p keys' in
      ((key, drawn_connection multi_generate r p key) :: rest.1, rest.2)
  end.

(** The pairs that [st'] has connections for beyond those of [st], in the
    order of the dictionary, which is the order they were added in. *)
Definition new_keys {Rng : Type} (st st' : Connectome Rng) : list conn_key :=
  drop (length (connections st)) (dict_keys (connections st')).

(** The weights that a call of [fire] which takes [st] to [st'] reads: the
    connections of [st], followed by one connection for each pair that the
    call added, drawn in the order of the additions from the generator of
    [st] with the probability [p] of [st]. *)
Definition wired_connections {Rng : Type}
    (multi_generate : Rng -> nat -> nat -> Q -> (nat -> nat -> Q) * Rng)
    (st st' : Connectome Rng) : list (conn_key * Connection) :=
  connections st ++
  (draw_all multi_generate (rng st) (p st) (new_keys st st')).1.

(** The key under which the scheduler hands an entry of a layer to
    [next_round] (lines 37-43 of [utils.py]): a stimulus as it is, an assembly
    as its area. *)
Definition brain_part (x : Scheduler.Projectable) : BrainPart :=
  match x with
  | Scheduler.ProjStimulus s => PartStimulus s
  | Scheduler.ProjAssembly area _ => PartArea area
  end.

(** ** Example objects *)

Module Ex.
Import Scheduler.
Definition S0 := mkStimulus 0 3.
Definition X1 := mkArea 1 4 2.
Definition X2 := mkArea 2 4 2.
Definition Y0 := mkArea 3 4 2.
(** A chain: S0 -> A1 (in X1) -> B1 (in Y0). *)
Definition A1 := ProjAssembly X1 [ProjStimulus S0].
Definition B1 := ProjAssembly Y0 [A1].
(** A fan-in: S0 -> A1 (in X1), S0 -> A2 (in X2), and B2 (in Y0) merges both. *)
Definition A2 := ProjAssembly X2 [ProjStimulus S0].
Definition B2 := ProjAssembly Y0 [A1; A2].

Abbreviation fire0 := (fire counter_generate beta_tenth np_argpartition).
(** A connectome with nothing registered. *)
Definition empty_brain : Connectome nat :=
  new_connectome counter_generate 1 [] [] false 0.
(** The state a call returns, when it returns. *)
Definition returns (r : result (Connectome nat)) : bool :=
  match r with OK _ => true | Err _ => false end.
Definition run (r : result (Connectome nat)) : Connectome nat :=
  match r with OK st => st | Err _ => empty_brain end.
(** S0, X1 and X2 registered; S0 fired into X1; then a round in which X1
    is a source and a destination. *)
Definition brain1 : Connectome nat :=
  add_area counter_generate
    (add_area counter_generate (add_stimulus counter_generate empty_brain S0) X1) X2.
Definition req1 : mapping := [(PartStimulus S0, [X1])].
Definition brain2 : Connectome nat := run (fire0 brain1 req1).
Definition req2 : mapping :=
  [(PartStimulus S0, [X1]); (PartArea X1, [X1; X2])].
Definition brain3 : Connectome nat := run (fire0 brain2 req2).
(** One connection of ones, as a generator with [p = 1] draws it, and a
    request that lists its destination twice. *)
Definition ones : Connection :=
  mkConnection (PartStimulus S0) (PartArea X1) (mkArray 3 4 (fun _ _ => 1%Q)).
Definition brain_ones : Connectome nat :=
  mkConnectome 1 [X1] [S0] [((PartStimulus S0, PartArea X1), ones)] [] false 0.
Definition req_twice : mapping := [(PartStimulus S0, [X1; X1])].
Definition brain_twice : Connectome nat := run (fire0 brain_ones req_twice).
End Ex.

Module ExMore.
Import Ex.
(** An area with no quota, and an area whose quota is its size. *)
Definition Z0 := mkArea 4 3 0.
Definition F0 := mkArea 5 3 3.
Definition req_zero : mapping := [(PartStimulus S0, [Z0])].
Definition req_full : mapping := [(PartStimulus S0, [F0])].
Definition brain_full : Connectome nat := run (fire0 empty_brain req_full).
(** Two rounds on [brain1]. *)
Definition rounds12 : list mapping := [req1; req2].
(** [brain_ones] with plasticity disabled, and two rounds on it. *)
Definition brain_frozen : Connectome nat :=
  mkConnectome 1 [X1] [S0] [((PartStimulus S0, PartArea X1), ones)] [] true 0.
Definition rounds_frozen : list mapping := [req_twice; req1].
Definition brain_frozen_after : Connectome nat :=
  run (fire_rounds counter_generate beta_tenth np_argpartition
         brain_frozen rounds_frozen).
End ExMore.

(** * Properties *)

(** ** Dictionaries *)

Section py_dict_facts.
Context {K V : Type} `{EqDecision K}.
Implicit Types (d : list (K * V)) (k : K) (v : V).

Lemma dict_get_set d k v k' :
  dict_get (dict_set d k v) k' = if decide (k' = k) then Some v else dict_get d k'.
Proof.
  induction d as [|[k0 v0] d IH]; simpl.
  - by repeat case_decide.
  - repeat (case_decide; simpl; subst); try done; try congruence.
Qed.

Lemma dict_get_set_eq d k v : dict_get (dict_set d k v) k = Some v.
Proof. rewrite dict_get_set. by case_decide. Qed.

Lemma dict_get_set_ne d k v k' :
  k' <> k -> dict_get (dict_set d k v) k' = dict_get d k'.
Proof. intros. rewrite dict_get_set. by case_decide. Qed.

Lemma dict_get_Some_keys d k v : dict_get d k = Some v -> k ∈ dict_keys d.
Proof.
  unfold dict_keys. induction d as [|[k0 v0] d IH]; simpl; [done|].
  case_decide; subst; intros; [left | right; auto].
Qed.

Lemma dict_keys_get d k : k ∈ dict_keys d -> is_Some (dict_get d k).
Proof.
  unfold dict_keys. induction d as [|[k0 v0] d IH]; simpl.
  - by intros ?%elem_of_nil.
  - case_decide; [eauto|]. intros [?|?]%elem_of_cons; [done | auto].
Qed.

Lemma dict_keys_set d k v :
  dict_keys (dict_set d k v) =
    if decide (k ∈ dict_keys d) then dict_keys d else dict_keys d ++ [k].
Proof.
  unfold dict_keys. induction d as [|[k0 v0] d IH]; csimpl.
  - destruct (decide (k ∈ [])) as [Hd|Hd]; [by apply elem_of_nil in Hd | done].
  - destruct (decide (k = k0)) as [->|Hne]; csimpl.
    + rewrite decide_True; [done | left].
    + rewrite IH. destruct (decide (k ∈ d.*1)) as [Hin|Hin].
      * rewrite decide_True; [done | by right].
      * rewrite decide_False; [done|]. by intros [?|?]%elem_of_cons.
Qed.

Lemma dict_keys_set_NoDup d k v :
  NoDup (dict_keys d) -> NoDup (dict_keys (dict_set d k v)).
Proof.
  intros Hnd. rewrite dict_keys_set. case_decide; [done|].
  apply NoDup_app. split_and!; [done | | apply NoDup_singleton].
  intros x Hx ->%list_elem_of_singleton. done.
Qed.

Lemma dict_item_OK d k v : dict_item d k = OK v <-> dict_get d k = Some v.
Proof. unfold dict_item. destruct (dict_get d k); split; congruence. Qed.
End py_dict_facts.

(** ** The scheduler *)

Module SchedulerFacts.
Import Scheduler Ex.

(** [fire_many] stops: the fuel it takes is enough for any request. *)
Lemma depth_le_max {A : Type} (f : A -> nat) (l : list A) (x : A) :
  x ∈ l -> f x <= foldr (fun p d => Nat.max (f p) d) 0 l.
Proof.
  induction l as [|y l IH]; [by intros ?%elem_of_nil|].
  intros [->|Hin]%elem_of_cons; simpl; [lia|]. specialize (IH Hin). lia.
Qed.

Lemma max_lt_bound {A : Type} (f : A -> nat) (l : list A) (n : nat) :
  0 < n -> (forall x, x ∈ l -> f x < n) ->
  foldr (fun p d => Nat.max (f p) d) 0 l < n.
Proof.
  intros Hn. induction l as [|y l IH]; intros Hall; simpl; [done|].
  assert (f y < n) by (apply Hall; left).
  assert (foldr (fun p d => Nat.max (f p) d) 0 l < n)
    by (apply IH; intros x Hx; apply Hall; by right).
  lia.
Qed.

Lemma depth_parent (area : Area) (parents : list Projectable) (parent : Projectable) :
  parent ∈ parents -> depth parent < depth (ProjAssembly area parents).
Proof. intros Hin. simpl. pose proof (depth_le_max depth _ _ Hin). lia. Qed.

Lemma add_parents_keys (cur : layer) (ass : Projectable) (key : Projectable) :
  key ∈ dict_keys (add_parents cur ass) ->
  key ∈ dict_keys cur \/ parent_in [ass] key.
Proof.
  unfold add_parents. destruct ass as [s|area parents]; [auto|].
  assert (forall ps cur0,
            key ∈ dict_keys
                    (fold_left
                       (fun cur parent =>
                          dict_set cur parent
                            (dict_get_or cur (ProjAssembly area parents) [] ++ [area]))
                       ps cur0) ->
            key ∈ dict_keys cur0 \/ key ∈ ps) as Hfold.
  { induction ps as [|q ps IH]; intros cur0; simpl; [auto|].
    intros [Hk|Hk]%IH; [|right; by right].
    rewrite dict_keys_set in Hk. case_decide; [auto|].
    apply elem_of_app in Hk as [?|Hk%list_elem_of_singleton]; [auto|].
    subst. right; left. }
  intros [?|Hk]%Hfold; [auto | right].
  exists area, parents. split; [left | done].
Qed.

Lemma next_layer_keys (top : layer) (key : Projectable) :
  key ∈ dict_keys (next_layer top) -> parent_in (dict_keys top) key.
Proof.
  unfold next_layer.
  assert (forall l cur,
            key ∈ dict_keys (fold_left add_parents l cur) ->
            key ∈ dict_keys cur \/ parent_in l key) as Hfold.
  { induction l as [|ass l IH]; intros cur; simpl; [auto|].
    intros [[Hk|Hk]%add_parents_keys|Hk]%IH.
    - auto.
    - right. destruct Hk as (a & ps & Hk%list_elem_of_singleton & ?). subst.
      exists a, ps. split; [left | done].
    - right. destruct Hk as (a & ps & ? & ?). exists a, ps. split; [by right | done]. }
  intros [Hk|Hk]%Hfold; [by apply elem_of_nil in Hk|].
  destruct Hk as (a & ps & [_ Hin]%list_elem_of_filter & ?). by exists a, ps.
Qed.

Lemma next_layer_depth (top : layer) :
  existsb is_Assembly (dict_keys top) = true ->
  layer_depth (next_layer top) < layer_depth top.
Proof.
  intros (ass & Hass%list_elem_of_In & Hisass)%existsb_exists.
  unfold layer_depth. apply max_lt_bound.
  - pose proof (depth_le_max depth _ _ Hass). destruct ass; [done | simpl in *; lia].
  - intros key (a & ps & Hin & Hp)%next_layer_keys.
    pose proof (depth_parent a ps key Hp).
    pose proof (depth_le_max depth _ _ Hin). lia.
Qed.

Lemma build_layers_total (fuel : nat) (layers : list layer) (top : layer) :
  last layers = Some top -> layer_depth top < fuel ->
  is_Some (build_layers fuel layers).
Proof.
  revert layers top. induction fuel as [|fuel IH]; intros layers top Hlast Hfuel; [lia|].
  simpl. rewrite Hlast. destruct (existsb is_Assembly (dict_keys top)) eqn:Hex; [|eauto].
  apply (IH _ (next_layer top)); [apply last_snoc|].
  pose proof (next_layer_depth top Hex). lia.
Qed.

(** [fire_many] returns the rounds of any request. *)
Lemma fire_many_total (projectables : list Projectable) (area : Area) :
  is_Some (fire_many projectables area).
Proof.
  unfold fire_many.
  destruct (build_layers_total (S (layer_depth (first_layer projectables area)))
              [first_layer projectables area] (first_layer projectables area))
    as [layers ->]; [done | lia | simpl; eauto].
Qed.

(** The rounds of a chain, for any target area. *)
Lemma fire_many_chain_rounds (S : Stimulus) (X Y T : Area) :
  fire_many [ProjAssembly Y [ProjAssembly X [ProjStimulus S]]] T =
    Some [ [(PartStimulus S, [X])]; [(PartArea X, [Y])]; [(PartArea Y, [T])] ].
Proof. reflexivity. Qed.

(** C2, as stated: two rounds.  It fails on the chain S0 -> A1 -> B1: no
    outcome of [fire_many] has two rounds. *)
Lemma fire_many_chain_not_two_rounds :
  ~ exists round1 round2, fire_many [B1] Y0 = Some [round1; round2].
Proof. intros (r1 & r2 & H). vm_compute in H. discriminate H. Qed.

(** C2, amended: for a chain S -> A (area X) -> B (area Y, parent A),
    [fire_many {B} Y] makes exactly three calls of [next_round], in this
    order: S into X, then X into Y, then Y (the area of B) into the
    target Y. *)
Theorem fire_many_chain_three_rounds (S : Stimulus) (X Y : Area) :
  let A := ProjAssembly X [ProjStimulus S] in
  let B := ProjAssembly Y [A] in
  fire_many [B] Y =
    Some [ [(PartStimulus S, [X])]; [(PartArea X, [Y])]; [(PartArea Y, [Y])] ].
Proof. intros A B. apply fire_many_chain_rounds. Qed.

(** An assembly is not its own parent. *)
Lemma parent_neq_child (area : Area) (parents : list Projectable) (parent : Projectable) :
  parent ∈ parents -> ProjAssembly area parents <> parent.
Proof. intros Hin Heq. apply depth_parent with (area := area) in Hin. subst. lia. Qed.

(** Two assemblies of one layer that share their parent [P]: the second
    overwrites what the first recorded for [P]. *)
Lemma next_layer_shared_parent (P : Projectable) (a1 a2 : Area) (l1 l2 : list Area) :
  next_layer [(ProjAssembly a1 [P], l1); (ProjAssembly a2 [P], l2)] = [(P, [a2])].
Proof.
  unfold next_layer. simpl. unfold dict_get_or. simpl.
  rewrite (decide_False (P := ProjAssembly a2 [P] = P))
    by (apply parent_neq_child; left).
  simpl. by rewrite decide_True.
Qed.

(** C1, on the code: when two assemblies of a layer share a parent, the list
    of the parent in the next layer holds the area of the second one only;
    and for B2 with the parents A1 (area X1) and A2 (area X2), both fed by S0,
    the first round of [fire_many {B2} Y0] fires S0 into X2 only: X1 receives
    nothing from S0 in any round. *)
Theorem fire_many_fan_in_overwrites :
  (forall (P : Projectable) (a1 a2 : Area) (l1 l2 : list Area),
     dict_get (next_layer [(ProjAssembly a1 [P], l1); (ProjAssembly a2 [P], l2)]) P
     = Some [a2]) /\
  fire_many [B2] Y0 =
    Some [ [(PartStimulus S0, [X2])];
           [(PartArea X1, [Y0]); (PartArea X2, [Y0])];
           [(PartArea Y0, [Y0])] ].
Proof.
  split.
  - intros P a1 a2 l1 l2. rewrite next_layer_shared_parent. simpl.
    by rewrite decide_True.
  - vm_compute. reflexivity.
Qed.
End SchedulerFacts.

(** ** Exceptions and loops *)

Lemma bind_OK {A B : Type} (m : result A) (f : A -> result B) (b : B) :
  m ≫= f = OK b <-> exists a, m = OK a /\ f a = OK b.
Proof.
  destruct m as [a|e]; simpl; split.
  - eauto.
  - by intros (a' & [= ->] & ?).
  - discriminate.
  - by intros (? & ? & ?).
Qed.

Ltac inv_result :=
  repeat match goal with
    | H : _ ≫= _ = OK _ |- _ =>
        let a := fresh "a" in
        let Ha := fresh "Ha" in
        apply bind_OK in H as (a & Ha & H)
    | H : OK _ = OK _ |- _ => injection H as H; try subst
    | H : Err _ = OK _ |- _ => discriminate H
    | H : dict_item _ _ = OK _ |- _ => apply dict_item_OK in H
    end.

(** A property that every step of a loop preserves holds at its end. *)
Lemma foldlM_preserves {A B : Type} (f : B -> A -> result B) (P : B -> Prop)
    (l : list A) (b b' : B) :
  (forall x b1 b2, x ∈ l -> P b1 -> f b1 x = OK b2 -> P b2) ->
  P b -> foldlM f l b = OK b' -> P b'.
Proof.
  revert b. induction l as [|x l IH]; intros b Hstep Hb Hrun; simpl in Hrun.
  - by injection Hrun as <-.
  - inv_result. eapply IH; [| |exact Hrun].
    + intros y b1 b2 Hy. apply Hstep. by right.
    + eapply Hstep; [left | exact Hb | exact Ha].
Qed.

(** ** The sources of the destination areas *)

Section sources_facts.
Implicit Types (req : mapping) (sm : list (Area * list BrainPart)).

(** One step of lines 152-154, on a (source, destination) pair. *)
Let group (sm : list (Area * list BrainPart)) (pa : BrainPart * Area) :=
  dict_set sm pa.2 (dict_get_or sm pa.2 [] ++ [pa.1]).

Let sources_in (l : list (BrainPart * Area)) (area : Area) : list BrainPart :=
  (filter (fun pa : BrainPart * Area => pa.2 = area) l).*1.

Lemma sources_mapping_pairs req :
  sources_mapping req = fold_left group (pairs req) [].
Proof.
  unfold sources_mapping, pairs. generalize (@nil (Area * list BrainPart)).
  induction req as [|[part areas] req IH]; intros sm; simpl; [done|].
  rewrite fold_left_app, IH. f_equal.
  clear. revert sm. induction areas as [|a areas IH]; intros sm; simpl; [done|].
  apply IH.
Qed.

Lemma group_get_or l sm area :
  dict_get_or (fold_left group l sm) area [] =
    dict_get_or sm area [] ++ sources_in l area.
Proof.
  revert sm. induction l as [|[s a] l IH]; intros sm; simpl.
  - unfold sources_in. by rewrite filter_nil, app_nil_r.
  - rewrite IH. unfold group, sources_in, dict_get_or. simpl.
    rewrite dict_get_set, filter_cons. simpl.
    destruct (decide (area = a)) as [->|Hne].
    + rewrite decide_True by done. simpl. by rewrite <- app_assoc.
    + rewrite decide_False by congruence. done.
Qed.

Lemma group_keys l sm area :
  area ∈ dict_keys (fold_left group l sm) <-> area ∈ dict_keys sm \/ area ∈ l.*2.
Proof.
  revert sm. induction l as [|[s a] l IH]; intros sm; csimpl.
  - rewrite elem_of_nil. tauto.
  - rewrite IH. unfold group. rewrite dict_keys_set, elem_of_cons.
    simpl. case_decide; [|rewrite elem_of_app, list_elem_of_singleton].
    + split; [tauto|]. intros [?|[->|?]]; tauto.
    + tauto.
Qed.

Lemma group_NoDup l sm :
  NoDup (dict_keys sm) -> NoDup (dict_keys (fold_left group l sm)).
Proof.
  revert sm. induction l as [|pa l IH]; intros sm Hnd; simpl; [done|].
  apply IH. by apply dict_keys_set_NoDup.
Qed.

Lemma sources_mapping_NoDup req : NoDup (dict_keys (sources_mapping req)).
Proof. rewrite sources_mapping_pairs. apply group_NoDup, NoDup_nil_2. Qed.

Lemma sources_mapping_keys req area :
  area ∈ dict_keys (sources_mapping req) <-> area ∈ dests req.
Proof.
  rewrite sources_mapping_pairs, group_keys. unfold dests, dict_keys. simpl.
  rewrite elem_of_nil. tauto.
Qed.

Lemma sources_mapping_get req area srcs :
  dict_get (sources_mapping req) area = Some srcs <->
  area ∈ dests req /\ srcs = sources_for req area.
Proof.
  pose proof (group_get_or (pairs req) [] area) as Hget.
  rewrite <- sources_mapping_pairs in Hget.
  unfold dict_get_or in Hget. simpl in Hget.
  rewrite <- sources_mapping_keys. split.
  - intros Hs. rewrite Hs in Hget. simpl in Hget. split; [|done].
    by eapply dict_get_Some_keys.
  - intros [[v Hv]%dict_keys_get ->]. rewrite Hv in Hget. simpl in Hget.
    by rewrite Hv, Hget.
Qed.

Lemma sources_for_elem req area part :
  part ∈ sources_for req area <-> (part, area) ∈ pairs req.
Proof.
  unfold sources_for. rewrite list_elem_of_fmap. split.
  - intros ([s a] & -> & [Ha Hin]%list_elem_of_filter). simpl in *. by subst.
  - intros Hin. exists (part, area). split; [done|].
    by apply list_elem_of_filter.
Qed.

Lemma dests_elem req area :
  area ∈ dests req <-> exists part, (part, area) ∈ pairs req.
Proof.
  unfold dests. rewrite list_elem_of_fmap. split.
  - intros ([s a] & -> & Hin). by exists s.
  - intros [s Hin]. by exists (s, area).
Qed.
End sources_facts.

(** ** Arrays *)

Lemma vadd_length u v w : vadd u v = OK w -> length w = length u.
Proof.
  unfold vadd. case_decide as Hl; [|done]. intros [= <-].
  rewrite length_zip_with. lia.
Qed.

Lemma take_last_length {A : Type} (k : nat) (l : list A) :
  k <> 0 -> k <= length l -> length (take_last k l) = k.
Proof. intros. unfold take_last. rewrite decide_False, length_drop by done. lia. Qed.

Lemma take_last_sublist {A : Type} (k : nat) (l : list A) :
  take_last k l `sublist_of` l.
Proof. unfold take_last. case_decide; [done | apply sublist_drop]. Qed.

(** ** The connectome *)

Section connectome_facts.
Context {Rng : Type}.
Variable multi_generate : Rng -> nat -> nat -> Q -> (nat -> nat -> Q) * Rng.
Variable connection_beta : BrainPart -> BrainPart -> Q.
Variable argpartition : list Q -> Z -> result (list nat).

Implicit Types (st : Connectome Rng) (area : Area) (part : BrainPart).
Implicit Types (W nw : list (Area * list nat)).
Implicit Types (C : list (conn_key * Connection)).
Implicit Types (sm : list (Area * list BrainPart)).

Local Abbreviation _initialize_connection := (_initialize_connection multi_generate).
Local Abbreviation _project_into_connect := (_project_into_connect multi_generate).
Local Abbreviation select_winners := (select_winners argpartition).
Local Abbreviation _project_into := (_project_into multi_generate argpartition).
Local Abbreviation potentiate := (potentiate connection_beta).
Local Abbreviation update_connectomes := (update_connectomes connection_beta).
Local Abbreviation potentiate_area := (potentiate_area connection_beta).
Local Abbreviation project_area := (project_area multi_generate argpartition).
Local Abbreviation compute_winners := (compute_winners multi_generate argpartition).
Local Abbreviation fire := (fire multi_generate connection_beta argpartition).

(** *** Lazy wiring *)

Lemma lazily_extends_refl (R : conn_key -> Prop) st : lazily_extends R st st.
Proof. split; try done. intros key c Hn Hs. congruence. Qed.

Lemma lazily_extends_trans (R : conn_key -> Prop) st1 st2 st3 :
  lazily_extends R st1 st2 -> lazily_extends R st2 st3 -> lazily_extends R st1 st3.
Proof.
  intros [] []. split; try congruence; [by auto|].
  intros key c Hn Hs. destruct (dict_get (connections st2) key) as [c2|] eqn:E2.
  - assert (c = c2) as -> by (apply ext_keep1 in E2; congruence). eauto.
  - eauto.
Qed.

Lemma lazily_extends_weaken (R R' : conn_key -> Prop) st st1 :
  (forall key, R key -> R' key) -> lazily_extends R st st1 -> lazily_extends R' st st1.
Proof.
  intros HR []. split; try done. intros key c Hn Hs.
  destruct (ext_new0 key c Hn Hs). auto.
Qed.

Lemma _initialize_connection_extends st part other :
  dict_get (connections st) (part, other) = None ->
  lazily_extends (fun key => key = (part, other)) st
    (_initialize_connection st part other).
Proof.
  intros Hnone. unfold _initialize_connection.
  destruct (multi_generate _ _ _ _) as [entries rng']. split; simpl; try done.
  - intros key c Hc. rewrite dict_get_set_ne; [done|]. congruence.
  - intros key c Hn. rewrite dict_get_set. case_decide; [|congruence].
    intros [= <-]. subst key. done.
Qed.

Lemma _project_into_connect_extends st area sources :
  lazily_extends (fun key => key.2 = PartArea area /\ key.1 ∈ sources) st
    (_project_into_connect st area sources).
Proof.
  unfold _project_into_connect. revert st.
  induction sources as [|s sources IH]; intros st; simpl.
  - apply lazily_extends_refl.
  - eapply lazily_extends_trans.
    2:{ eapply lazily_extends_weaken; [|apply IH].
        intros key [? ?]. split; [done | by right]. }
    unfold dict_mem. case_bool_decide as Hmem.
    + apply lazily_extends_refl.
    + eapply lazily_extends_weaken; [|apply _initialize_connection_extends].
      * intros key ->. split; [done | left].
      * by apply eq_None_not_Some.
Qed.

Lemma _project_into_connect_connected st area sources part :
  part ∈ sources ->
  is_Some (dict_get (connections (_project_into_connect st area sources))
             (part, PartArea area)).
Proof.
  unfold _project_into_connect. revert st.
  induction sources as [|s sources IH]; intros st Hin; simpl.
  - by apply elem_of_nil in Hin.
  - set (st1 := if dict_mem _ _ then _ else _).
    assert (is_Some (dict_get (connections st1) (s, PartArea area))) as [c Hc].
    { subst st1. unfold dict_mem. case_bool_decide as Hmem; [done|].
      unfold _initialize_connection.
      destruct (multi_generate _ _ _ _) as [entries rng']. simpl.
      rewrite dict_get_set_eq. eauto. }
    destruct (decide (part ∈ sources)) as [|Hnot]; [by apply IH|].
    apply elem_of_cons in Hin as [->|?]; [|done].
    exists c. by apply (_project_into_connect_extends st1 area sources).
Qed.

(** *** The inputs and the selection *)

Lemma foldlM_ext_OK {A B : Type} (f g : B -> A -> result B) (l : list A) (b b' : B) :
  (forall x b1 b2, x ∈ l -> f b1 x = OK b2 -> g b1 x = OK b2) ->
  foldlM f l b = OK b' -> foldlM g l b = OK b'.
Proof.
  revert b. induction l as [|x l IH]; intros b Hfg Hrun; simpl in *; [done|].
  inv_result. rewrite (Hfg x b a); [simpl | left | done].
  apply IH; [|done]. intros y b1 b2 Hy. apply Hfg. by right.
Qed.

Lemma mapM_result_ext_OK {A B : Type} (f g : A -> result B) (l : list A) (r : list B) :
  (forall x y, x ∈ l -> f x = OK y -> g x = OK y) ->
  mapM_result f l = OK r -> mapM_result g l = OK r.
Proof.
  revert r. induction l as [|x l IH]; intros r Hfg Hrun; simpl in *; [done|].
  inv_result. rewrite (Hfg x a); [simpl | left | done].
  rewrite (IH a0); [done | | done]. intros y z Hy. apply Hfg. by right.
Qed.

Lemma area_input_mono W C C' area source v :
  (forall key c, dict_get C key = Some c -> dict_get C' key = Some c) ->
  area_input W C area source = OK v -> area_input W C' area source = OK v.
Proof.
  intros Hext. unfold area_input, dict_item.
  destruct (dict_get C _) as [c|] eqn:E; [|done]. by rewrite (Hext _ _ E).
Qed.

Lemma stimulus_input_mono C C' area stim v :
  (forall key c, dict_get C key = Some c -> dict_get C' key = Some c) ->
  stimulus_input C area stim = OK v -> stimulus_input C' area stim = OK v.
Proof.
  intros Hext. unfold stimulus_input, dict_item.
  destruct (dict_get C _) as [c|] eqn:E; [|done]. by rewrite (Hext _ _ E).
Qed.

(** The inputs depend on the connections that are read only. *)
Lemma prev_winner_inputs_mono W C C' area sources inputs :
  (forall key c, dict_get C key = Some c -> dict_get C' key = Some c) ->
  prev_winner_inputs W C area sources = OK inputs ->
  prev_winner_inputs W C' area sources = OK inputs.
Proof.
  intros Hext. unfold prev_winner_inputs.
  intros (acc & Hacc & Hrun)%bind_OK.
  erewrite foldlM_ext_OK; [simpl | | exact Hacc].
  2:{ intros src u u' _ (v & Hv & Hadd)%bind_OK.
      by rewrite (area_input_mono _ _ _ _ _ _ Hext Hv). }
  destruct (omap as_stimulus sources) as [|s0 stims]; [done|].
  apply bind_OK in Hrun as (vs & Hvs & Hrun).
  erewrite mapM_result_ext_OK; [done | | exact Hvs].
  intros stim v _ Hv. by apply (stimulus_input_mono C).
Qed.

Lemma prev_winner_inputs_length W C area sources inputs :
  prev_winner_inputs W C area sources = OK inputs ->
  length inputs = area_n area.
Proof.
  unfold prev_winner_inputs. intros (acc & Hacc & Hrun)%bind_OK.
  assert (length acc = area_n area) as Hlen.
  { eapply (foldlM_preserves _ (fun u => length u = area_n area)); [| |exact Hacc].
    - intros x b1 b2 _ Hb1 (v & _ & Hadd)%bind_OK.
      apply vadd_length in Hadd. congruence.
    - apply length_replicate. }
  destruct (omap as_stimulus sources); [by injection Hrun as <-|].
  apply bind_OK in Hrun as (vs & _ & (total & _ & Hadd)%bind_OK).
  apply vadd_length in Hadd. congruence.
Qed.

Lemma select_winners_spec area inputs new_winners :
  argpartition_contract argpartition ->
  length inputs = area_n area ->
  area_k area <= area_n area ->
  select_winners area inputs = OK new_winners ->
  length new_winners = area_k area /\ NoDup new_winners /\
  Forall (fun i => i < area_n area) new_winners.
Proof.
  intros Hap Hlen Hk. unfold select_winners.
  intros (order & Horder & [= <-])%bind_OK.
  pose proof (argpartition_perm _ Hap _ _ _ Horder) as Hperm.
  rewrite Hlen in Hperm.
  assert (length order = area_n area) as Hlo.
  { by rewrite Hperm, length_seq. }
  assert (NoDup order) as Hnd by (rewrite Hperm; apply NoDup_seq).
  split_and!.
  - destruct (decide (area_k area = 0)) as [Hz|Hnz].
    + unfold take_last. rewrite decide_True by done.
      destruct inputs as [|x inputs]; [simpl in *; lia|].
      apply (argpartition_range _ Hap) in Horder; [|done].
      rewrite Hlen in Horder. lia.
    + apply take_last_length; [done | lia].
  - eapply sublist_NoDup; [done | apply take_last_sublist].
  - apply Forall_forall. intros i Hi.
    eapply elem_of_sublist in Hi; [|apply take_last_sublist].
    rewrite Hperm in Hi. apply elem_of_seq in Hi. lia.
Qed.

(** *** The three phases of [fire] *)

(** The pairs that the loop over the areas [ks] may wire. *)
Let requested sm (ks : list Area) (key : conn_key) : Prop :=
  exists area srcs,
    area ∈ ks /\ dict_get sm area = Some srcs /\
    key.2 = PartArea area /\ key.1 ∈ srcs.

Lemma project_area_loop sm ks st0 nw0 st1 nw1 :
  NoDup ks ->
  foldlM (project_area sm) ks (st0, nw0) = OK (st1, nw1) ->
  lazily_extends (requested sm ks) st0 st1 /\
  (forall area, area ∉ ks -> dict_get nw1 area = dict_get nw0 area) /\
  (forall area, area ∈ ks ->
     exists srcs inputs w,
       dict_get sm area = Some srcs /\
       prev_winner_inputs (winners st0) (connections st1) area srcs = OK inputs /\
       select_winners area inputs = OK w /\
       dict_get nw1 area = Some w /\
       forall s, s ∈ srcs -> is_Some (dict_get (connections st1) (s, PartArea area))).
Proof.
  revert st0 nw0. induction ks as [|a ks IH]; intros st0 nw0 Hnd Hrun; simpl in Hrun.
  - injection Hrun as <- <-. split_and!.
    + apply lazily_extends_refl.
    + done.
    + by intros area ?%elem_of_nil.
  - apply NoDup_cons in Hnd as [Hnotin Hnd].
    apply bind_OK in Hrun as ([st' nw'] & Hstep & Hrun).
    unfold project_area in Hstep. simpl in Hstep.
    apply bind_OK in Hstep as (srcs & Hsrcs%dict_item_OK & Hstep).
    apply bind_OK in Hstep as ([st'' w] & Hproj & [= <- <-]).
    unfold _project_into in Hproj.
    apply bind_OK in Hproj as (inputs & Hinputs & Hproj).
    apply bind_OK in Hproj as (w' & Hsel & [= <- <-]).
    set (st' := _project_into_connect st0 a srcs) in *.
    pose proof (_project_into_connect_extends st0 a srcs) as Hext0.
    fold st' in Hext0.
    destruct (IH _ _ Hnd Hrun) as (Hext & Hout & Hin).
    split_and!.
    + eapply lazily_extends_trans.
      * eapply lazily_extends_weaken; [|exact Hext0].
        intros key [? ?]. exists a, srcs. split_and!; [left | done..].
      * eapply lazily_extends_weaken; [|exact Hext].
        intros key (a' & srcs' & ? & ?). exists a', srcs'. split; [by right | done].
    + intros area [Hne Hnin]%not_elem_of_cons.
      rewrite Hout by done. simpl. by rewrite dict_get_set_ne.
    + intros area [->|Hin']%elem_of_cons.
      * exists srcs, inputs, w'. split_and!; [done | | done | |].
        -- rewrite <- (ext_winners _ _ _ Hext0).
           eapply prev_winner_inputs_mono; [apply (ext_keep _ _ _ Hext) | done].
        -- rewrite Hout by done. simpl. apply dict_get_set_eq.
        -- intros s Hs.
           destruct (_project_into_connect_connected st0 a srcs s Hs)
             as [c Hc].
           exists c. by apply (ext_keep _ _ _ Hext).
      * destruct (Hin _ Hin') as (srcs' & inputs' & w'' & ? & ? & ? & ? & ?).
        exists srcs', inputs', w''. split_and!; try done.
        by rewrite <- (ext_winners _ _ _ Hext0).
Qed.

Lemma project_area_loop_keys sm ks st0 nw0 st1 nw1 :
  foldlM (project_area sm) ks (st0, nw0) = OK (st1, nw1) ->
  NoDup (dict_keys nw0) ->
  NoDup (dict_keys nw1) /\
  (forall area, area ∈ dict_keys nw1 <-> area ∈ dict_keys nw0 \/ area ∈ ks).
Proof.
  revert st0 nw0. induction ks as [|a ks IH]; intros st0 nw0 Hrun Hnd; simpl in Hrun.
  - injection Hrun as <- <-. split; [done|]. intros area. rewrite elem_of_nil. tauto.
  - apply bind_OK in Hrun as ([st' nw'] & Hstep & Hrun).
    unfold project_area in Hstep. simpl in Hstep.
    apply bind_OK in Hstep as (srcs & _ & Hstep).
    apply bind_OK in Hstep as ([st'' w] & _ & [= <- <-]).
    destruct (IH _ _ Hrun) as [Hnd1 Hkeys]; [by apply dict_keys_set_NoDup|].
    split; [done|]. intros area. rewrite Hkeys. simpl.
    rewrite dict_keys_set, elem_of_cons.
    case_decide; [|rewrite elem_of_app, list_elem_of_singleton]; [|tauto].
    split; [tauto|]. intros [?|[->|?]]; tauto.
Qed.

(** *** Plasticity *)

Let beta_of (c : Connection) : Q := connection_beta (conn_source c) (conn_dest c).

Lemma potentiated_compose beta rows cols m1 m2 c0 c1 c2 :
  potentiated beta rows cols m1 c0 c1 ->
  potentiated beta rows cols m2 c1 c2 ->
  potentiated beta rows cols (m1 + m2) c0 c2.
Proof.
  intros (Hs1 & Hd1 & Hr1 & Hc1 & He1) (Hs2 & Hd2 & Hr2 & Hc2 & He2).
  split_and!; try congruence.
  intros i j. rewrite He2, He1. case_decide; [|done].
  by rewrite (Nat.add_comm m1 m2), Nat.iter_add.
Qed.

Lemma same_but_connections_refl st : same_but_connections st st.
Proof. by repeat split. Qed.

Lemma same_but_connections_trans st1 st2 st3 :
  same_but_connections st1 st2 -> same_but_connections st2 st3 ->
  same_but_connections st1 st3.
Proof. unfold same_but_connections. intuition congruence. Qed.

Lemma same_but_connections_source_neurons st st' s :
  same_but_connections st st' -> source_neurons st' s = source_neurons st s.
Proof.
  intros (_ & _ & _ & Hw & _). destruct s; simpl; [|done].
  unfold winners_of. by rewrite Hw.
Qed.

Lemma potentiate_spec area wA st s st' :
  potentiate area wA st s = OK st' ->
  same_but_connections st st' /\
  (forall key, key <> (s, PartArea area) ->
     dict_get (connections st') key = dict_get (connections st) key) /\
  exists c c',
    dict_get (connections st) (s, PartArea area) = Some c /\
    dict_get (connections st') (s, PartArea area) = Some c' /\
    potentiated (beta_of c) (source_neurons st s) wA 1 c c'.
Proof.
  unfold potentiate. intros (c & Hc%dict_item_OK & Hrun)%bind_OK.
  apply bind_OK in Hrun as (scaled & Hscaled & [= <-]).
  unfold scale_at in Hscaled. case_decide as Hrange; [|done].
  injection Hscaled as <-. split_and!.
  - by repeat split.
  - intros key Hne. simpl. by rewrite dict_get_set_ne.
  - exists c. eexists. split_and!; [done | simpl; apply dict_get_set_eq |].
    by repeat split.
Qed.

Lemma occurrences_cons {A : Type} `{EqDecision A} (x y : A) (l : list A) :
  occurrences x (y :: l) =
    if decide (y = x) then S (occurrences x l) else occurrences x l.
Proof. unfold occurrences. rewrite filter_cons. by case_decide. Qed.

Lemma occurrences_not_elem {A : Type} `{EqDecision A} (x : A) (l : list A) :
  x ∉ l -> occurrences x l = 0.
Proof.
  induction l as [|y l IH]; [done|]. intros [Hne Hnin]%not_elem_of_cons.
  rewrite occurrences_cons, decide_False by done. auto.
Qed.

Lemma occurrences_elem {A : Type} `{EqDecision A} (x : A) (l : list A) :
  x ∈ l -> 0 < occurrences x l.
Proof.
  induction l as [|y l IH]; [by intros ?%elem_of_nil|].
  rewrite occurrences_cons. case_decide; [lia|].
  intros [?|?]%elem_of_cons; [congruence | auto].
Qed.

Lemma potentiate_loop area wA srcs st st' :
  foldlM (potentiate area wA) srcs st = OK st' ->
  same_but_connections st st' /\
  (forall key, key.2 <> PartArea area \/ key.1 ∉ srcs ->
     dict_get (connections st') key = dict_get (connections st) key) /\
  (forall s, s ∈ srcs ->
     exists c c',
       dict_get (connections st) (s, PartArea area) = Some c /\
       dict_get (connections st') (s, PartArea area) = Some c' /\
       potentiated (beta_of c) (source_neurons st s) wA (occurrences s srcs) c c').
Proof.
  revert st. induction srcs as [|x srcs IH]; intros st Hrun; simpl in Hrun.
  - injection Hrun as <-. split_and!.
    + apply same_but_connections_refl.
    + done.
    + by intros s ?%elem_of_nil.
  - apply bind_OK in Hrun as (st1 & Hstep & Hrun).
    destruct (potentiate_spec _ _ _ _ _ Hstep) as (Hsame1 & Hother1 & c & c1 & Hc & Hc1 & Hpot1).
    destruct (IH _ Hrun) as (Hsame & Hother & Htouched).
    split_and!.
    + by eapply same_but_connections_trans.
    + intros [s d] Hkey. simpl in Hkey.
      rewrite Hother, Hother1; [done | |].
      * intros [= -> ->]. destruct Hkey as [?|Hnin]; [done|].
        apply Hnin. left.
      * destruct Hkey as [?|Hnin]; [by left | right].
        simpl. by apply not_elem_of_cons in Hnin as [_ ?].
    + intros s Hs. rewrite occurrences_cons.
      destruct (decide (x = s)) as [->|Hne].
      * exists c. destruct (decide (s ∈ srcs)) as [Hin|Hnin].
        -- destruct (Htouched _ Hin) as (c1' & c' & Hc1' & Hc' & Hpot).
           assert (c1' = c1) as -> by congruence.
           exists c'. split_and!; [done..|].
           change (S (occurrences s srcs)) with (1 + occurrences s srcs).
           eapply potentiated_compose; [exact Hpot1|].
           rewrite (same_but_connections_source_neurons _ _ _ Hsame1) in Hpot.
           destruct Hpot1 as (Hs1 & Hd1 & _).
           unfold beta_of in *. by rewrite Hs1, Hd1 in Hpot.
        -- exists c1. split_and!; [done | |].
           ++ rewrite Hother; [done | right; done].
           ++ by rewrite occurrences_not_elem.
      * apply elem_of_cons in Hs as [?|Hin]; [congruence|].
        destruct (Htouched _ Hin) as (c0 & c' & Hc0 & Hc' & Hpot).
        exists c0, c'. split_and!; [|done|].
        -- rewrite <- Hother1; [done | congruence].
        -- by rewrite <- (same_but_connections_source_neurons _ _ _ Hsame1).
Qed.

Lemma potentiate_area_loop nw sm ks st st' :
  NoDup ks ->
  foldlM (potentiate_area nw sm) ks st = OK st' ->
  same_but_connections st st' /\
  (forall key, ~ requested sm ks key ->
     dict_get (connections st') key = dict_get (connections st) key) /\
  (forall area, area ∈ ks ->
     exists srcs wA,
       dict_get sm area = Some srcs /\ dict_get nw area = Some wA /\
       forall s, s ∈ srcs ->
         exists c c',
           dict_get (connections st) (s, PartArea area) = Some c /\
           dict_get (connections st') (s, PartArea area) = Some c' /\
           potentiated (beta_of c) (source_neurons st s) wA
             (occurrences s srcs) c c').
Proof.
  revert st. induction ks as [|a ks IH]; intros st Hnd Hrun; simpl in Hrun.
  - injection Hrun as <-. split_and!.
    + apply same_but_connections_refl.
    + done.
    + by intros area ?%elem_of_nil.
  - apply NoDup_cons in Hnd as [Hnotin Hnd].
    apply bind_OK in Hrun as (st1 & Hstep & Hrun).
    unfold potentiate_area in Hstep.
    apply bind_OK in Hstep as (srcs & Hsrcs%dict_item_OK & Hstep).
    apply bind_OK in Hstep as (wA & HwA%dict_item_OK & Hstep).
    destruct (potentiate_loop _ _ _ _ _ Hstep) as (Hsame1 & Hother1 & Htouched1).
    destruct (IH _ Hnd Hrun) as (Hsame & Hother & Htouched).
    split_and!.
    + by eapply same_but_connections_trans.
    + intros key Hreq. rewrite Hother, Hother1; [done | |].
      * destruct (decide (key.2 = PartArea a)) as [Hd|?]; [right | by left].
        intros Hin. apply Hreq. exists a, srcs. split_and!; [left | done..].
      * intros (a' & srcs' & ? & ?). apply Hreq. exists a', srcs'.
        split; [by right | done].
    + intros area [->|Hin]%elem_of_cons.
      * exists srcs, wA. split_and!; [done..|]. intros s Hs.
        destruct (Htouched1 _ Hs) as (c & c' & Hc & Hc' & Hpot).
        exists c, c'. split_and!; [done | | done].
        rewrite Hother; [done|].
        intros (a' & srcs' & Ha' & _ & [= <-] & _). done.
      * destruct (Htouched _ Hin) as (srcs' & wA' & Hsrcs' & HwA' & Hall).
        exists srcs', wA'. split_and!; [done..|]. intros s Hs.
        destruct (Hall _ Hs) as (c & c' & Hc & Hc' & Hpot).
        exists c, c'. split_and!; [|done|].
        -- rewrite <- Hother1; [done|]. left. simpl. intros [= ->]. done.
        -- by rewrite <- (same_but_connections_source_neurons _ _ _ Hsame1).
Qed.

(** *** The commit of the winners *)

Lemma commit_area_loop nw ks st st' :
  foldlM (commit_area nw) ks st = OK st' ->
  connections st' = connections st /\
  (forall area, area ∉ ks ->
     dict_get (winners st') area = dict_get (winners st) area) /\
  (forall area, area ∈ ks ->
     exists w, dict_get nw area = Some w /\ dict_get (winners st') area = Some w).
Proof.
  revert st. induction ks as [|a ks IH]; intros st Hrun; simpl in Hrun.
  - injection Hrun as <-. split_and!; [done.. |]. by intros area ?%elem_of_nil.
  - apply bind_OK in Hrun as (st1 & Hstep & Hrun).
    unfold commit_area in Hstep.
    apply bind_OK in Hstep as (w & Hw%dict_item_OK & [= <-]).
    destruct (IH _ Hrun) as (Hconn & Hout & Hin). simpl in *.
    split_and!; [done | |].
    + intros area [Hne Hnin]%not_elem_of_cons.
      rewrite Hout by done. by rewrite dict_get_set_ne.
    + intros area Harea. destruct (decide (area ∈ ks)) as [|Hnin]; [auto|].
      apply elem_of_cons in Harea as [->|?]; [|done].
      exists w. split; [done|]. rewrite Hout by done. apply dict_get_set_eq.
Qed.

(** *** [fire], phase by phase *)

Lemma requested_fired_through req ks key :
  (forall area, area ∈ ks <-> area ∈ dests req) ->
  requested (sources_mapping req) ks key <-> fired_through req key.
Proof.
  intros Hks. unfold requested, fired_through. split.
  - intros (area & srcs & _ & [_ ->]%sources_mapping_get & Hd & Hs).
    exists area. split; [done|]. by apply sources_for_elem.
  - intros (area & Hd & Hin). exists area, (sources_for req area).
    assert (area ∈ dests req) by (apply dests_elem; eauto).
    split_and!; [by apply Hks | by apply sources_mapping_get | done |].
    by apply sources_for_elem.
Qed.

Lemma occurrences_sources_for req s area :
  occurrences s (sources_for req area) = occurrences (s, area) (pairs req).
Proof.
  unfold sources_for. induction (pairs req) as [|[s' a'] l IH]; [done|].
  rewrite filter_cons, (occurrences_cons (s, area)). simpl.
  destruct (decide (a' = area)) as [->|Hne]; csimpl.
  - rewrite occurrences_cons, IH.
    destruct (decide (s' = s)) as [->|?].
    + by rewrite decide_True.
    + rewrite decide_False; [done | congruence].
  - rewrite IH, decide_False; [done | congruence].
Qed.

Lemma fire_phases_of st req st1 nw st2 st' :
  compute_winners st (sources_mapping req) = OK (st1, nw) ->
  update_connectomes st1 nw (sources_mapping req) = OK st2 ->
  update_winners st2 nw (sources_mapping req) = OK st' ->
    lazily_extends (fired_through req) st st1 /\
    (forall s area, (s, area) ∈ pairs req ->
       is_Some (dict_get (connections st1) (s, PartArea area))) /\
    (forall area, area ∈ dests req ->
       exists inputs w,
         prev_winner_inputs (winners st) (connections st1) area
           (sources_for req area) = OK inputs /\
         select_winners area inputs = OK w /\
         dict_get nw area = Some w /\
         dict_get (winners st') area = Some w) /\
    (forall area, area ∉ dests req ->
       dict_get (winners st') area = dict_get (winners st) area) /\
    (plasticity_disabled st = true -> connections st' = connections st1) /\
    (plasticity_disabled st = false ->
       (forall key, ~ fired_through req key ->
          dict_get (connections st') key = dict_get (connections st1) key) /\
       (forall s area, (s, area) ∈ pairs req ->
          exists c c' w,
            dict_get (connections st1) (s, PartArea area) = Some c /\
            dict_get (connections st') (s, PartArea area) = Some c' /\
            dict_get nw area = Some w /\
            potentiated (beta_of c) (source_neurons st s) w
              (occurrences (s, area) (pairs req)) c c')) /\
    p st' = p st /\ areas st' = areas st /\ stimuli st' = stimuli st /\
    plasticity_disabled st' = plasticity_disabled st.
Proof.
  intros Hcompute Hplast Hcommit.
  set (sm := sources_mapping req) in *.
  pose proof (sources_mapping_NoDup req) as Hnd. fold sm in Hnd.
  pose proof (sources_mapping_keys req) as Hkeys. fold sm in Hkeys.
  unfold compute_winners in Hcompute.
  destruct (project_area_loop _ _ _ _ _ _ Hnd Hcompute) as (Hext & _ & Hnew).
  destruct (project_area_loop_keys _ _ _ _ _ _ Hcompute) as (Hndnw & Hkeysnw);
    [apply NoDup_nil_2|].
  assert (forall area, area ∈ dict_keys nw <-> area ∈ dests req) as Hkeysnw'.
  { intros area. rewrite Hkeysnw, <- Hkeys. simpl. rewrite elem_of_nil. tauto. }
  destruct (commit_area_loop _ _ _ _ Hcommit) as (Hconn & Hwout & Hwin).
  assert (same_but_connections st1 st2 /\
          (plasticity_disabled st = true -> connections st2 = connections st1) /\
          (plasticity_disabled st = false ->
             (forall key, ~ fired_through req key ->
                dict_get (connections st2) key = dict_get (connections st1) key) /\
             (forall s area, (s, area) ∈ pairs req ->
                exists c c' w,
                  dict_get (connections st1) (s, PartArea area) = Some c /\
                  dict_get (connections st2) (s, PartArea area) = Some c' /\
                  dict_get nw area = Some w /\
                  potentiated (beta_of c) (source_neurons st s) w
                    (occurrences (s, area) (pairs req)) c c')))
    as (Hsame & Hoff & Hon).
  { unfold update_connectomes in Hplast.
    rewrite (ext_plasticity _ _ _ Hext) in Hplast.
    destruct (plasticity_disabled st).
    - injection Hplast as <-. split_and!; [apply same_but_connections_refl|done..].
    - destruct (potentiate_area_loop _ _ _ _ _ Hndnw Hplast)
        as (Hsame & Hother & Htouched).
      split_and!; [done..|]. intros _. split.
      + intros key Hkey. apply Hother. intros Hr. apply Hkey.
        by apply (requested_fired_through req (dict_keys nw) key Hkeysnw').
      + intros s area Hin.
        assert (area ∈ dests req) as Hd by (apply dests_elem; eauto).
        destruct (Htouched area) as (srcs & w & Hsrcs & Hw & Hall);
          [by apply Hkeysnw'|].
        apply sources_mapping_get in Hsrcs as [_ ->].
        destruct (Hall s) as (c & c' & Hc & Hc' & Hpot);
          [by apply sources_for_elem|].
        exists c, c', w. split_and!; [done..|].
        rewrite occurrences_sources_for in Hpot.
        destruct s; simpl in *; [|done].
        unfold winners_of in *. by rewrite (ext_winners _ _ _ Hext) in Hpot. }
  destruct Hsame as (Hp & Ha & Hs & Hw & Hpl & _).
  split_and!.
  - eapply lazily_extends_weaken; [|exact Hext].
    intros key. by apply (requested_fired_through req (dict_keys sm) key).
  - intros s area Hin.
    assert (area ∈ dests req) as Hd by (apply dests_elem; eauto).
    destruct (Hnew area) as (srcs & _ & _ & Hsrcs & _ & _ & _ & Hall);
      [by apply Hkeys|].
    apply sources_mapping_get in Hsrcs as [_ ->].
    by apply Hall, sources_for_elem.
  - intros area Hd.
    destruct (Hnew area) as (srcs & inputs & w & Hsrcs & Hin & Hsel & Hnw & _);
      [by apply Hkeys|].
    apply sources_mapping_get in Hsrcs as [_ ->].
    exists inputs, w. split_and!; [done..|].
    destruct (Hwin area) as (w' & Hw' & ?); [by apply Hkeys|]. congruence.
  - intros area Hd. rewrite Hwout; [|by rewrite Hkeys].
    by rewrite Hw, (ext_winners _ _ _ Hext).
  - intros Hdis. rewrite Hconn. auto.
  - intros Hen. destruct (Hon Hen) as [Hother Htouched]. split.
    + intros key Hkey. rewrite Hconn. auto.
    + intros s area Hin. rewrite Hconn. auto.
  - apply (foldlM_preserves _ (fun s => p s = p st2)) in Hcommit as ->; [| |done].
    + by rewrite Hp, (ext_p _ _ _ Hext).
    + intros x b1 b2 _ Hb1 (w & _ & [= <-])%bind_OK. done.
  - apply (foldlM_preserves _ (fun s => areas s = areas st2)) in Hcommit as ->; [| |done].
    + by rewrite Ha, (ext_areas _ _ _ Hext).
    + intros x b1 b2 _ Hb1 (w & _ & [= <-])%bind_OK. done.
  - apply (foldlM_preserves _ (fun s => stimuli s = stimuli st2)) in Hcommit as ->; [| |done].
    + by rewrite Hs, (ext_stimuli _ _ _ Hext).
    + intros x b1 b2 _ Hb1 (w & _ & [= <-])%bind_OK. done.
  - apply (foldlM_preserves _ (fun s => plasticity_disabled s = plasticity_disabled st2))
      in Hcommit as ->; [| |done].
    + by rewrite Hpl, (ext_plasticity _ _ _ Hext).
    + intros x b1 b2 _ Hb1 (w & _ & [= <-])%bind_OK. done.
Qed.

Lemma fire_phases st req st' :
  fire st req = OK st' ->
  exists (st1 : Connectome Rng) (nw : list (Area * list nat)),
    lazily_extends (fired_through req) st st1 /\
    (forall s area, (s, area) ∈ pairs req ->
       is_Some (dict_get (connections st1) (s, PartArea area))) /\
    (forall area, area ∈ dests req ->
       exists inputs w,
         prev_winner_inputs (winners st) (connections st1) area
           (sources_for req area) = OK inputs /\
         select_winners area inputs = OK w /\
         dict_get nw area = Some w /\
         dict_get (winners st') area = Some w) /\
    (forall area, area ∉ dests req ->
       dict_get (winners st') area = dict_get (winners st) area) /\
    (plasticity_disabled st = true -> connections st' = connections st1) /\
    (plasticity_disabled st = false ->
       (forall key, ~ fired_through req key ->
          dict_get (connections st') key = dict_get (connections st1) key) /\
       (forall s area, (s, area) ∈ pairs req ->
          exists c c' w,
            dict_get (connections st1) (s, PartArea area) = Some c /\
            dict_get (connections st') (s, PartArea area) = Some c' /\
            dict_get nw area = Some w /\
            potentiated (beta_of c) (source_neurons st s) w
              (occurrences (s, area) (pairs req)) c c')) /\
    p st' = p st /\ areas st' = areas st /\ stimuli st' = stimuli st /\
    plasticity_disabled st' = plasticity_disabled st.
Proof.
  unfold fire. intros ([st1 nw] & Hcompute & Hrun)%bind_OK. simpl in Hrun.
  apply bind_OK in Hrun as (st2 & Hplast & Hcommit).
  exists st1, nw. by eapply fire_phases_of.
Qed.
End connectome_facts.

(** ** The inputs, entry by entry *)

Lemma vadd_lookup (u v w : list Q) (j : nat) (x : Q) :
  vadd u v = OK w -> w !! j = Some x ->
  exists a b, u !! j = Some a /\ v !! j = Some b /\ x = (a + b)%Q.
Proof.
  unfold vadd. case_decide; [|done]. intros [= <-].
  intros (a & b & -> & ? & ?)%lookup_zip_with_Some. eauto.
Qed.

Lemma qsum_nil : qsum [] = 0%Q.
Proof. reflexivity. Qed.

Lemma qsum_cons (x : Q) (l : list Q) : qsum (x :: l) = (x + qsum l)%Q.
Proof. reflexivity. Qed.

#[local] Opaque qsum.

Lemma qsum_fold_left (l : list Q) (a : Q) :
  (fold_left Qplus l a == a + qsum l)%Q.
Proof.
  revert a. induction l as [|x l IH]; intros a; simpl.
  - rewrite qsum_nil. lra.
  - rewrite IH, qsum_cons. lra.
Qed.

Lemma mapM_result_Forall2 {A B : Type} (f : A -> result B) (l : list A) (r : list B) :
  mapM_result f l = OK r -> Forall2 (fun x y => f x = OK y) l r.
Proof.
  revert r. induction l as [|x l IH]; intros r; simpl.
  - intros [= <-]. constructor.
  - intros (y & Hy & (ys & Hys & [= <-])%bind_OK)%bind_OK.
    constructor; auto.
Qed.

(** The entry [j] of a sum of vectors is the sum of their entries [j]. *)
Lemma vadd_loop_lookup (vs : list (list Q)) (acc w : list Q) (j : nat) (x : Q) :
  foldlM vadd vs acc = OK w -> w !! j = Some x ->
  exists a ys,
    acc !! j = Some a /\ Forall2 (fun v y => v !! j = Some y) vs ys /\
    (x == a + qsum ys)%Q.
Proof.
  revert acc. induction vs as [|v vs IH]; intros acc; simpl.
  - intros [= <-] Hx. exists x, []. split_and!; [done | constructor |].
    rewrite qsum_nil. lra.
  - intros (acc' & Hadd & Hrun)%bind_OK Hx.
    destruct (IH _ Hrun Hx) as (a' & ys & Ha' & Hys & Heq).
    destruct (vadd_lookup _ _ _ _ _ Hadd Ha') as (a & b & Ha & Hb & ->).
    exists a, (b :: ys). split_and!; [done | by constructor |].
    rewrite qsum_cons. lra.
Qed.

Lemma vsum_lookup (n : nat) (vs : list (list Q)) (w : list Q) (j : nat) (x : Q) :
  vsum n vs = OK w -> w !! j = Some x ->
  exists ys, Forall2 (fun v y => v !! j = Some y) vs ys /\ (x == qsum ys)%Q.
Proof.
  unfold vsum. intros Hrun Hx.
  destruct (vadd_loop_lookup _ _ _ _ _ Hrun Hx) as (a & ys & Ha & Hys & Heq).
  unfold zeros in Ha. apply lookup_replicate in Ha as [-> _].
  exists ys. split; [done | lra].
Qed.

Lemma rows_lookup (m : ndarray) (ws : list nat) (rows : list (list Q))
    (ys : list Q) (j : nat) :
  Forall2 (fun w r => row m w = OK r) ws rows ->
  Forall2 (fun r y => r !! j = Some y) rows ys ->
  ys = map (fun i => entry m i j) ws.
Proof.
  intros Hrows. revert ys.
  induction Hrows as [|w r ws rows Hr _ IH]; intros ys Hys.
  - by apply Forall2_nil_inv_l in Hys as ->.
  - apply Forall2_cons_inv_l in Hys as (y & ys' & Hy & Hys' & ->).
    simpl. f_equal; [|auto].
    unfold row in Hr. case_decide; [|done]. injection Hr as <-.
    rewrite list_lookup_fmap in Hy.
    destruct (seq 0 (ncols m) !! j) as [j'|] eqn:Hj; [|done].
    apply lookup_seq in Hj as [-> _]. simpl in Hy. congruence.
Qed.

Lemma area_input_lookup W C (area a : Area) (v : list Q) (j : nat) (x : Q) :
  area_input W C area a = OK v -> v !! j = Some x ->
  (x == source_input W C area (PartArea a) j)%Q.
Proof.
  unfold area_input, source_input.
  intros (c & Hc%dict_item_OK & (rows & Hrows & Hsum)%bind_OK)%bind_OK Hx.
  rewrite Hc.
  destruct (vsum_lookup _ _ _ _ _ Hsum Hx) as (ys & Hys & ->).
  apply mapM_result_Forall2 in Hrows.
  by rewrite (rows_lookup _ _ _ _ _ Hrows Hys).
Qed.

Lemma stimulus_input_lookup W C (area : Area) (s : Stimulus) (v : list Q)
    (j : nat) (x : Q) :
  stimulus_input C area s = OK v -> v !! j = Some x ->
  (x == source_input W C area (PartStimulus s) j)%Q.
Proof.
  unfold stimulus_input, source_input.
  intros (c & Hc%dict_item_OK & [= <-])%bind_OK Hx. rewrite Hc.
  unfold sum_axis0 in Hx. rewrite list_lookup_fmap in Hx.
  destruct (seq 0 (ncols (synapses c)) !! j) as [j'|] eqn:Hj; [|done].
  apply lookup_seq in Hj as [-> _]. simpl in Hx. injection Hx as <-.
  rewrite qsum_fold_left. lra.
Qed.

Lemma area_loop_lookup W C (area : Area) (src_areas : list Area)
    (acc inputs : list Q) (j : nat) (x : Q) :
  foldlM (fun inputs source => v ← area_input W C area source; vadd inputs v)
         src_areas acc = OK inputs ->
  inputs !! j = Some x ->
  exists a,
    acc !! j = Some a /\
    (x == a + qsum (map (fun s => source_input W C area (PartArea s) j) src_areas))%Q.
Proof.
  revert acc. induction src_areas as [|s l IH]; intros acc; simpl.
  - intros [= <-] Hx. exists x. split; [done|]. rewrite qsum_nil. lra.
  - intros (acc' & (v & Hv & Hadd)%bind_OK & Hrun)%bind_OK Hx.
    destruct (IH _ Hrun Hx) as (a' & Ha' & Heq).
    destruct (vadd_lookup _ _ _ _ _ Hadd Ha') as (a & b & Ha & Hb & ->).
    exists a. split; [done|].
    rewrite qsum_cons, Heq, (area_input_lookup _ _ _ _ _ _ _ Hv Hb). lra.
Qed.

Lemma stimulus_inputs_lookup W C (area : Area) (stims : list Stimulus)
    (vs : list (list Q)) (ys : list Q) (j : nat) :
  Forall2 (fun s v => stimulus_input C area s = OK v) stims vs ->
  Forall2 (fun v y => v !! j = Some y) vs ys ->
  (qsum ys == qsum (map (fun s => source_input W C area (PartStimulus s) j) stims))%Q.
Proof.
  intros Hvs. revert ys. induction Hvs as [|s v stims vs Hv _ IH]; intros ys Hys.
  - apply Forall2_nil_inv_l in Hys as ->. simpl. lra.
  - apply Forall2_cons_inv_l in Hys as (y & ys' & Hy & Hys' & ->). simpl.
    rewrite !qsum_cons, (IH _ Hys'), (stimulus_input_lookup W _ _ _ _ _ _ Hv Hy).
    lra.
Qed.

Lemma qsum_by_kind (f : BrainPart -> Q) (srcs : list BrainPart) :
  (qsum (map f srcs) ==
   qsum (map (fun a => f (PartArea a)) (omap as_area srcs)) +
   qsum (map (fun s => f (PartStimulus s)) (omap as_stimulus srcs)))%Q.
Proof.
  induction srcs as [|[a|s] srcs IH]; csimpl.
  - rewrite qsum_nil. lra.
  - rewrite !qsum_cons, IH. lra.
  - rewrite !qsum_cons, IH. lra.
Qed.

(** Every occurrence of a source in the list adds its input. *)
Lemma prev_winner_inputs_lookup W C (area : Area) (srcs : list BrainPart)
    (inputs : list Q) (j : nat) (x : Q) :
  prev_winner_inputs W C area srcs = OK inputs ->
  inputs !! j = Some x ->
  (x == qsum (map (fun s => source_input W C area s j) srcs))%Q.
Proof.
  unfold prev_winner_inputs. intros (acc & Hacc & Hrun)%bind_OK Hx.
  rewrite (qsum_by_kind (fun s => source_input W C area s j)).
  destruct (omap as_stimulus srcs) as [|s0 stims] eqn:Hst.
  - injection Hrun as <-.
    destruct (area_loop_lookup _ _ _ _ _ _ _ _ Hacc Hx) as (a & Ha & ->).
    unfold zeros in Ha. apply lookup_replicate in Ha as [-> _].
    simpl. rewrite qsum_nil. lra.
  - apply bind_OK in Hrun as (vs & Hvs & (total & Htotal & Hadd)%bind_OK).
    destruct (vadd_lookup _ _ _ _ _ Hadd Hx) as (y & t & Hy & Ht & ->).
    destruct (area_loop_lookup _ _ _ _ _ _ _ _ Hacc Hy) as (a & Ha & ->).
    unfold zeros in Ha. apply lookup_replicate in Ha as [-> _].
    destruct (vsum_lookup _ _ _ _ _ Htotal Ht) as (ys & Hys & ->).
    apply mapM_result_Forall2 in Hvs.
    rewrite (stimulus_inputs_lookup W _ _ _ _ _ _ Hvs Hys). lra.
Qed.

Lemma iter_scale_power (b w : Q) (m : nat) :
  (Nat.iter m (fun w => w * b) w == w * b ^ Z.of_nat m)%Q.
Proof.
  induction m as [|m IH].
  - simpl. lra.
  - rewrite Nat2Z.inj_succ, <- Z.add_1_l, Qpower_plus' by lia.
    simpl Nat.iter. rewrite IH. simpl (b ^ 1)%Q. lra.
Qed.

(** ** [fire] returns *)

Lemma foldlM_total {A B : Type} (f : B -> A -> result B) (I : B -> Prop)
    (l : list A) (b : B) :
  I b ->
  (forall x b, x ∈ l -> I b -> exists b', f b x = OK b' /\ I b') ->
  exists b', foldlM f l b = OK b' /\ I b'.
Proof.
  revert b. induction l as [|x l IH]; intros b Hb Hstep; simpl; [eauto|].
  destruct (Hstep x b) as (b1 & -> & Hb1); [left | done |]. simpl.
  apply IH; [done|]. intros y b2 Hy. apply Hstep. by right.
Qed.

Lemma mapM_result_total {A B : Type} (f : A -> result B) (P : B -> Prop)
    (l : list A) :
  (forall x, x ∈ l -> exists y, f x = OK y /\ P y) ->
  exists ys, mapM_result f l = OK ys /\ Forall P ys.
Proof.
  induction l as [|x l IH]; intros Hf; simpl; [eauto|].
  destruct (Hf x) as (y & -> & Hy); [left|]. simpl.
  destruct IH as (ys & -> & Hys); [intros z Hz; apply Hf; by right|].
  simpl. eauto.
Qed.

Lemma vadd_total (u v : list Q) :
  length u = length v -> exists w, vadd u v = OK w /\ length w = length u.
Proof.
  intros Hlen. unfold vadd. rewrite decide_True by done.
  eexists. split; [done|]. rewrite length_zip_with. lia.
Qed.

Lemma vsum_total (n : nat) (vs : list (list Q)) :
  Forall (fun v => length v = n) vs ->
  exists w, vsum n vs = OK w /\ length w = n.
Proof.
  intros Hvs. unfold vsum.
  apply (foldlM_total vadd (fun u => length u = n)).
  - apply length_replicate.
  - intros v u Hv Hu. rewrite Forall_forall in Hvs.
    destruct (vadd_total u v) as (w & Hw & Hlen); [by rewrite Hu, Hvs|].
    exists w. split; [done | congruence].
Qed.

Section fire_returns.
Context {Rng : Type}.
Variable multi_generate : Rng -> nat -> nat -> Q -> (nat -> nat -> Q) * Rng.
Variable connection_beta : BrainPart -> BrainPart -> Q.
Variable argpartition : list Q -> Z -> result (list nat).
Hypothesis argpartition_ok : argpartition_contract argpartition.

Implicit Types (st : Connectome Rng) (req : mapping) (area : Area).
Implicit Types (W nw : list (Area * list nat)).
Implicit Types (C : list (conn_key * Connection)).
Implicit Types (sm : list (Area * list BrainPart)).

Local Abbreviation _project_into_connect := (_project_into_connect multi_generate).
Local Abbreviation select_winners := (select_winners argpartition).
Local Abbreviation _project_into := (_project_into multi_generate argpartition).
Local Abbreviation potentiate := (potentiate connection_beta).
Local Abbreviation potentiate_area := (potentiate_area connection_beta).
Local Abbreviation update_connectomes := (update_connectomes connection_beta).
Local Abbreviation project_area := (project_area multi_generate argpartition).
Local Abbreviation compute_winners := (compute_winners multi_generate argpartition).
Local Abbreviation fire := (fire multi_generate connection_beta argpartition).

Lemma lazily_extends_well_shaped (R : conn_key -> Prop) st st1 :
  lazily_extends R st st1 -> well_shaped st -> well_shaped st1.
Proof.
  intros Hext [Hshape Hwin]. split.
  - intros key c Hc. destruct (dict_get (connections st) key) as [c0|] eqn:Hc0.
    + apply (ext_keep _ _ _ Hext) in Hc0 as Hc0'.
      assert (c = c0) as -> by congruence. eauto.
    + destruct (ext_new _ _ _ Hext _ _ Hc0 Hc) as [_ (_ & _ & ? & ?)]. done.
  - intros area. unfold winners_of. rewrite (ext_winners _ _ _ Hext). apply Hwin.
Qed.

Lemma area_input_total W C area (a : Area) :
  (forall key c, dict_get C key = Some c ->
     nrows (synapses c) = part_n key.1 /\ ncols (synapses c) = part_n key.2) ->
  Forall (fun i => i < area_n a) (dict_get_or W a []) ->
  is_Some (dict_get C (PartArea a, PartArea area)) ->
  exists v, area_input W C area a = OK v /\ length v = area_n area.
Proof.
  intros Hshape Hwin [c Hc]. unfold area_input, dict_item. rewrite Hc. simpl.
  destruct (Hshape _ _ Hc) as [Hr Hcol]. simpl in *.
  destruct (mapM_result_total (row (synapses c))
              (fun r => length r = area_n area) (dict_get_or W a []))
    as (rows & -> & Hrows).
  { intros w Hw. rewrite Forall_forall in Hwin. unfold row.
    rewrite decide_True by (rewrite Hr; auto).
    eexists. split; [done|]. by rewrite length_map, length_seq. }
  simpl. by apply vsum_total.
Qed.

Lemma stimulus_input_total C area (s : Stimulus) :
  (forall key c, dict_get C key = Some c ->
     nrows (synapses c) = part_n key.1 /\ ncols (synapses c) = part_n key.2) ->
  is_Some (dict_get C (PartStimulus s, PartArea area)) ->
  exists v, stimulus_input C area s = OK v /\ length v = area_n area.
Proof.
  intros Hshape [c Hc]. unfold stimulus_input, dict_item. rewrite Hc. simpl.
  destruct (Hshape _ _ Hc) as [_ Hcol]. simpl in *.
  eexists. split; [done|]. unfold sum_axis0. by rewrite length_map, length_seq.
Qed.

Lemma prev_winner_inputs_total W C area (srcs : list BrainPart) :
  (forall key c, dict_get C key = Some c ->
     nrows (synapses c) = part_n key.1 /\ ncols (synapses c) = part_n key.2) ->
  (forall a, Forall (fun i => i < area_n a) (dict_get_or W a [])) ->
  (forall s, s ∈ srcs -> is_Some (dict_get C (s, PartArea area))) ->
  exists inputs, prev_winner_inputs W C area srcs = OK inputs.
Proof.
  intros Hshape Hwin Hconn. unfold prev_winner_inputs.
  destruct (foldlM_total
              (fun inputs source => v ← area_input W C area source; vadd inputs v)
              (fun u => length u = area_n area)
              (omap as_area srcs) (zeros (area_n area)))
    as (acc & -> & Hacc).
  { apply length_replicate. }
  { intros a u Ha Hu. apply list_elem_of_omap in Ha as (s & Hs & Hsa).
    destruct s as [a'|]; [|done]. injection Hsa as ->.
    destruct (area_input_total W C area a) as (v & -> & Hv); [done.. | by apply Hconn |].
    simpl. destruct (vadd_total u v) as (w & -> & Hw); [congruence|].
    eexists. split; [done | congruence]. }
  simpl. destruct (omap as_stimulus srcs) as [|s0 stims] eqn:Hst; [eauto|].
  destruct (mapM_result_total (stimulus_input C area)
              (fun v => length v = area_n area) (s0 :: stims))
    as (vs & -> & Hvs).
  { intros s Hs. rewrite <- Hst in Hs. apply list_elem_of_omap in Hs as (s' & Hs' & Hss).
    destruct s' as [|s'']; [done|]. injection Hss as ->.
    apply stimulus_input_total; [done | by apply Hconn]. }
  simpl. destruct (vsum_total _ _ Hvs) as (total & -> & Htotal). simpl.
  destruct (vadd_total acc total) as (w & -> & _); [congruence | eauto].
Qed.

Lemma select_winners_total area (inputs : list Q) :
  length inputs = area_n area ->
  1 <= area_k area <= area_n area ->
  exists w, select_winners area inputs = OK w.
Proof.
  intros Hlen Hk. unfold select_winners.
  destruct (argpartition_total _ argpartition_ok inputs
              (Z.of_nat (area_n area) - Z.of_nat (area_k area))%Z)
    as [order ->]; [lia|]. simpl. eauto.
Qed.

Lemma _project_into_total st area (srcs : list BrainPart) :
  well_shaped st ->
  1 <= area_k area <= area_n area ->
  exists w, _project_into st area srcs = OK (_project_into_connect st area srcs, w).
Proof.
  intros Hwf Hk. unfold _project_into.
  pose proof (_project_into_connect_extends multi_generate st area srcs) as Hext.
  destruct (lazily_extends_well_shaped _ _ _ Hext Hwf) as [Hshape Hwin].
  destruct (prev_winner_inputs_total
              (winners (_project_into_connect st area srcs))
              (connections (_project_into_connect st area srcs)) area srcs)
    as [inputs Hinputs]; [done | done | |].
  { intros s Hs. by apply _project_into_connect_connected. }
  rewrite Hinputs. simpl.
  destruct (select_winners_total area inputs) as [w ->]; [|done|simpl; eauto].
  by eapply prev_winner_inputs_length.
Qed.

Lemma compute_winners_total st req :
  well_shaped st ->
  (forall area, area ∈ dests req -> 1 <= area_k area <= area_n area) ->
  exists r, compute_winners st (sources_mapping req) = OK r.
Proof.
  intros Hwf Hk. unfold compute_winners.
  destruct (foldlM_total (project_area (sources_mapping req))
              (fun acc => well_shaped acc.1)
              (dict_keys (sources_mapping req))
              (st, @nil (Area * list nat)))
    as (r & Hr & _); [done | | eauto].
  intros area [st1 nw] Harea Hwf1. simpl in Hwf1.
  unfold project_area, dict_item. simpl.
  destruct (dict_keys_get _ _ Harea) as [srcs ->]. simpl.
  destruct (_project_into_total st1 area srcs) as [w ->]; [done | |].
  { apply Hk. by apply sources_mapping_keys. }
  simpl. eexists. split; [done|]. simpl.
  eapply lazily_extends_well_shaped; [|done].
  apply (_project_into_connect_extends multi_generate).
Qed.

(** What the plasticity loops keep: the shapes, the winners and the
    connections of the requested pairs. *)
Let plastic req (st1 st : Connectome Rng) : Prop :=
  (forall key c, dict_get (connections st) key = Some c ->
     nrows (synapses c) = part_n key.1 /\ ncols (synapses c) = part_n key.2) /\
  winners st = winners st1 /\
  (forall s area, (s, area) ∈ pairs req ->
     is_Some (dict_get (connections st) (s, PartArea area))).

Lemma potentiate_total req st1 st area (wA : list nat) (s : BrainPart) :
  well_shaped st1 -> plastic req st1 st ->
  (s, area) ∈ pairs req ->
  Forall (fun j => j < area_n area) wA ->
  exists st', potentiate area wA st s = OK st' /\ plastic req st1 st'.
Proof.
  intros [_ Hwin1] (Hshape & Hwin & Hconn) Hin HwA.
  destruct (Hconn _ _ Hin) as [c Hc].
  destruct (Hshape _ _ Hc) as [Hr Hcol]. simpl in *.
  assert (exists st', potentiate area wA st s = OK st') as [st' Hst'].
  { unfold potentiate, dict_item. rewrite Hc. simpl. unfold scale_at.
    rewrite decide_True; [simpl; eauto|]. split.
    - rewrite Hr. destruct s as [a|stim]; simpl.
      + unfold winners_of. rewrite Hwin. apply Hwin1.
      + apply Forall_forall. intros i Hi%elem_of_seq. lia.
    - by rewrite Hcol. }
  exists st'. split; [done|].
  destruct (potentiate_spec _ _ _ _ _ _ Hst')
    as ((_ & _ & _ & Hw & _) & Hother & c0 & c' & Hc0 & Hc' & Hpot).
  assert (c0 = c) as -> by congruence.
  destruct Hpot as (_ & _ & Hr' & Hcol' & _).
  split_and!.
  - intros key k Hk. destruct (decide (key = (s, PartArea area))) as [->|Hne].
    + assert (k = c') as -> by congruence. simpl. split; congruence.
    + rewrite Hother in Hk by done. eauto.
  - congruence.
  - intros s' area' Hin'.
    destruct (decide ((s', PartArea area') = (s, PartArea area))) as [->|Hne]; [eauto|].
    rewrite Hother by done. eauto.
Qed.

Lemma update_connectomes_total req st1 nw :
  well_shaped st1 ->
  (forall s area, (s, area) ∈ pairs req ->
     is_Some (dict_get (connections st1) (s, PartArea area))) ->
  (forall area, area ∈ dict_keys nw -> area ∈ dests req) ->
  (forall area w, dict_get nw area = Some w -> Forall (fun j => j < area_n area) w) ->
  exists st2, update_connectomes st1 nw (sources_mapping req) = OK st2.
Proof.
  intros Hwf Hconn Hkeys Hnw. unfold update_connectomes.
  destruct (plasticity_disabled st1); [eauto|].
  destruct (foldlM_total (potentiate_area nw (sources_mapping req))
              (plastic req st1) (dict_keys nw) st1)
    as (st2 & Hst2 & _); [| | eauto].
  { split_and!; [apply Hwf | done | done]. }
  intros area st Harea Hst. unfold potentiate_area, dict_item.
  destruct (dict_keys_get _ _ Harea) as [w Hw]. rewrite Hw.
  assert (dict_get (sources_mapping req) area = Some (sources_for req area)) as ->.
  { apply sources_mapping_get. auto. }
  simpl. apply foldlM_total; [done|].
  intros s st' Hs Hst'. eapply potentiate_total; [done | done | | by eapply Hnw].
  by apply sources_for_elem.
Qed.

Lemma update_winners_total st req nw :
  (forall area, area ∈ dests req -> is_Some (dict_get nw area)) ->
  exists st', update_winners st nw (sources_mapping req) = OK st'.
Proof.
  intros Hnw. unfold update_winners.
  destruct (foldlM_total (commit_area nw) (fun _ => True)
              (dict_keys (sources_mapping req)) st) as (st' & ? & _); [done | | eauto].
  intros area st0 Harea _. unfold commit_area, dict_item.
  destruct (Hnw area) as [w ->]; [by apply sources_mapping_keys|].
  simpl. eauto.
Qed.

(** A call of [fire] on a well shaped state, for destination areas with
    [1 <= k <= n], returns, and the state it returns is well shaped. *)
Lemma fire_total st req :
  well_shaped st ->
  (forall area, area ∈ dests req -> 1 <= area_k area <= area_n area) ->
  exists st', fire st req = OK st' /\ well_shaped st'.
Proof.
  intros Hwf Hk.
  destruct (compute_winners_total st req Hwf Hk) as [[st1 nw] Hcompute].
  pose proof Hcompute as Hloop. unfold compute_winners in Hloop.
  destruct (project_area_loop _ _ _ _ _ _ _ _ (sources_mapping_NoDup req) Hloop)
    as (Hext & _ & Hnew).
  destruct (project_area_loop_keys _ _ _ _ _ _ _ _ Hloop) as (_ & Hkeys);
    [apply NoDup_nil_2|].
  pose proof (lazily_extends_well_shaped _ _ _ Hext Hwf) as Hwf1.
  assert (forall area w, dict_get nw area = Some w ->
                         Forall (fun j => j < area_n area) w) as Hnw.
  { intros area w Hw.
    assert (area ∈ dict_keys (sources_mapping req)) as Harea.
    { apply dict_get_Some_keys, Hkeys in Hw as [Hw|Hw]; [|done].
      by apply elem_of_nil in Hw. }
    destruct (Hnew _ Harea) as (srcs & inputs & w' & _ & Hin & Hsel & Hw' & _).
    assert (w' = w) as -> by congruence.
    eapply select_winners_spec; [done | | | done].
    - by eapply prev_winner_inputs_length.
    - apply sources_mapping_keys in Harea. apply Hk in Harea. lia. }
  destruct (update_connectomes_total req st1 nw) as [st2 Hst2]; [done | | | done |].
  { intros s area Hin.
    destruct (Hnew area) as (srcs & _ & _ & Hsrcs & _ & _ & _ & Hall).
    - apply sources_mapping_keys, dests_elem. eauto.
    - apply sources_mapping_get in Hsrcs as [_ ->]. by apply Hall, sources_for_elem. }
  { intros area [Ha|Ha]%Hkeys; [by apply elem_of_nil in Ha|].
    by apply sources_mapping_keys. }
  destruct (update_winners_total st2 req nw) as [st' Hst'].
  { intros area Harea. destruct (Hnew area) as (? & ? & w & _ & _ & _ & Hw & _);
      [by apply sources_mapping_keys | eauto]. }
  assert (fire st req = OK st') as Hfire.
  { unfold fire. rewrite Hcompute. simpl. rewrite Hst2. simpl. done. }
  exists st'. split; [done|].
  destruct (fire_phases _ _ _ _ _ _ Hfire)
    as (st1' & nw' & Hext' & _ & Hnew' & Hwout & Hoff & Hon & _).
  pose proof (lazily_extends_well_shaped _ _ _ Hext' Hwf) as [Hshape1 _].
  split.
  - intros [s d] c' Hc'.
    destruct (plasticity_disabled st) eqn:Hp.
    { rewrite Hoff in Hc' by done. eauto. }
    destruct (Hon eq_refl) as [Hother Htouched].
    assert ((exists area, d = PartArea area /\ (s, area) ∈ pairs req) \/
            ~ fired_through req (s, d)) as [(area & -> & Hin)|Hnot].
    { destruct d as [area|stim].
      - destruct (decide ((s, area) ∈ pairs req)); [left; eauto | right].
        by intros (a & [= <-] & ?).
      - right. by intros (a & [=] & ?). }
    + destruct (Htouched _ _ Hin) as (c & c0 & w & Hc & Hc0 & _ & Hpot).
      assert (c0 = c') as -> by congruence.
      destruct Hpot as (_ & _ & -> & -> & _). eauto.
    + rewrite Hother in Hc' by done. eauto.
  - intros area. destruct (decide (area ∈ dests req)) as [Harea|Harea].
    + destruct (Hnew' _ Harea) as (inputs & w & Hin & Hsel & _ & Hw).
      unfold winners_of, dict_get_or. rewrite Hw. simpl.
      eapply select_winners_spec; [done | | | done].
      * by eapply prev_winner_inputs_length.
      * apply Hk in Harea. lia.
    + unfold winners_of, dict_get_or. rewrite Hwout by done. apply Hwf.
Qed.
End fire_returns.

(** ** Registration keeps the state well shaped *)

Section registration.
Context {Rng : Type}.
Variable multi_generate : Rng -> nat -> nat -> Q -> (nat -> nat -> Q) * Rng.

Implicit Types (st : Connectome Rng).

Local Abbreviation _initialize_connection := (_initialize_connection multi_generate).
Local Abbreviation _initialize_parts := (_initialize_parts multi_generate).

Lemma fold_left_preserves {A B : Type} (f : B -> A -> B) (P : B -> Prop)
    (l : list A) (b : B) :
  (forall x b, P b -> P (f b x)) -> P b -> P (fold_left f l b).
Proof. intros Hf. revert b. induction l as [|x l IH]; simpl; auto. Qed.

Lemma _initialize_connection_well_shaped st (part other : BrainPart) :
  well_shaped st -> well_shaped (_initialize_connection st part other).
Proof.
  intros [Hshape Hwin]. unfold _initialize_connection.
  destruct (multi_generate _ _ _ _) as [entries rng']. split; simpl.
  - intros key c. rewrite dict_get_set. case_decide as Hkey; [|apply Hshape].
    intros [= <-]. by subst key.
  - apply Hwin.
Qed.

Lemma _initialize_parts_well_shaped st (parts : list BrainPart) :
  well_shaped st -> well_shaped (_initialize_parts st parts).
Proof.
  unfold _initialize_parts. apply fold_left_preserves.
  intros part st1 Hst1. apply fold_left_preserves; [|done].
  intros other st2 Hst2.
  destruct (is_area part && bool_decide (part <> other));
    auto using _initialize_connection_well_shaped.
Qed.

Lemma new_connectome_well_shaped (p : Q) (areas : list Area)
    (stimuli : list Stimulus) (initialize : bool) (rng0 : Rng) :
  well_shaped (new_connectome multi_generate p areas stimuli initialize rng0).
Proof.
  unfold new_connectome.
  assert (well_shaped (mkConnectome p areas stimuli [] [] false rng0)).
  { split; [done|]. intros area. constructor. }
  destruct initialize; [by apply _initialize_parts_well_shaped | done].
Qed.

Lemma add_area_well_shaped st (area : Area) :
  well_shaped st -> well_shaped (add_area multi_generate st area).
Proof. intros Hwf. by apply _initialize_parts_well_shaped. Qed.

Lemma add_stimulus_well_shaped st (stimulus : Stimulus) :
  well_shaped st -> well_shaped (add_stimulus multi_generate st stimulus).
Proof. intros Hwf. by apply _initialize_parts_well_shaped. Qed.

(** Registering a stimulus wires it into itself: the loop over the other
    parts ends with the stimulus that was just appended. *)
Lemma add_stimulus_self_connection st (stimulus : Stimulus) :
  is_Some (dict_get (connections (add_stimulus multi_generate st stimulus))
             (PartStimulus stimulus, PartStimulus stimulus)).
Proof.
  unfold add_stimulus, _initialize_parts. simpl.
  rewrite map_app, app_assoc, fold_left_app. simpl.
  unfold _initialize_connection at 1.
  destruct (multi_generate _ _ _ _) as [entries rng']. simpl.
  rewrite dict_get_set_eq. eauto.
Qed.
End registration.

(** ** The properties of the engine *)

Lemma occurrences_NoDup {A : Type} `{EqDecision A} (x : A) (l : list A) :
  NoDup l -> x ∈ l -> occurrences x l = 1.
Proof.
  induction 1 as [|y l Hy Hnd IH]; [by intros ?%elem_of_nil|].
  rewrite occurrences_cons. intros [->|Hin]%elem_of_cons.
  - rewrite decide_True by done. by rewrite occurrences_not_elem.
  - rewrite decide_False; [auto | congruence].
Qed.

(** *** The connections that a round reads *)

Lemma dict_set_fresh {K V : Type} `{EqDecision K} (d : list (K * V)) (k : K) (v : V) :
  dict_get d k = None -> dict_set d k v = d ++ [(k, v)].
Proof.
  induction d as [|[k0 v0] d IH]; simpl; [done|].
  case_decide; [done|]. intros Hnone. by rewrite IH.
Qed.

Lemma dict_get_app {K V : Type} `{EqDecision K} (d d' : list (K * V)) (k : K) :
  dict_get (d ++ d') k =
    match dict_get d k with Some v => Some v | None => dict_get d' k end.
Proof.
  induction d as [|[k0 v0] d IH]; simpl; [done|]. by case_decide.
Qed.

Lemma dict_keys_app {K V : Type} (d d' : list (K * V)) :
  dict_keys (d ++ d') = dict_keys d ++ dict_keys d'.
Proof. unfold dict_keys. apply fmap_app. Qed.

Lemma dict_get_None_keys {K V : Type} `{EqDecision K} (d : list (K * V)) (k : K) :
  dict_get d k = None <-> k ∉ dict_keys d.
Proof.
  split.
  - intros Hnone [v Hv]%dict_keys_get. congruence.
  - intros Hnot. destruct (dict_get d k) as [v|] eqn:Hv; [|done].
    destruct Hnot. by eapply dict_get_Some_keys.
Qed.

Section wiring_draws.
Context {Rng : Type}.
Variable multi_generate : Rng -> nat -> nat -> Q -> (nat -> nat -> Q) * Rng.
Variable connection_beta : BrainPart -> BrainPart -> Q.
Variable argpartition : list Q -> Z -> result (list nat).

Implicit Types (st : Connectome Rng) (req : mapping) (area : Area).
Implicit Types (nw : list (Area * list nat)) (ks : list conn_key).
Implicit Types (sm : list (Area * list BrainPart)).

Local Abbreviation _initialize_connection := (_initialize_connection multi_generate).
Local Abbreviation _project_into_connect := (_project_into_connect multi_generate).
Local Abbreviation select_winners := (select_winners argpartition).
Local Abbreviation _project_into := (_project_into multi_generate argpartition).
Local Abbreviation potentiate := (potentiate connection_beta).
Local Abbreviation potentiate_area := (potentiate_area connection_beta).
Local Abbreviation update_connectomes := (update_connectomes connection_beta).
Local Abbreviation project_area := (project_area multi_generate argpartition).
Local Abbreviation compute_winners := (compute_winners multi_generate argpartition).
Local Abbreviation fire := (fire multi_generate connection_beta argpartition).
Local Abbreviation draw_all := (draw_all multi_generate).
Local Abbreviation drawn_connection := (drawn_connection multi_generate).
Local Abbreviation wired_connections := (wired_connections multi_generate).
Local Abbreviation beta_of c := (connection_beta (conn_source c) (conn_dest c)).

Lemma draw_all_app (r : Rng) (p0 : Q) ks ks' :
  draw_all r p0 (ks ++ ks') =
    ((draw_all r p0 ks).1 ++ (draw_all (draw_all r p0 ks).2 p0 ks').1,
     (draw_all (draw_all r p0 ks).2 p0 ks').2).
Proof.
  revert r. induction ks as [|key ks IH]; intros r; simpl.
  - by destruct (draw_all r p0 ks').
  - by rewrite IH.
Qed.

Lemma draw_all_keys (r : Rng) (p0 : Q) ks : dict_keys (draw_all r p0 ks).1 = ks.
Proof.
  revert r. induction ks as [|key ks IH]; intros r; simpl; [done|].
  unfold dict_keys in *. csimpl. by rewrite IH.
Qed.

Lemma draw_all_lookup (r : Rng) (p0 : Q) ks (key : conn_key) (c : Connection) :
  dict_get (draw_all r p0 ks).1 key = Some c ->
  exists r', c = drawn_connection r' p0 key.
Proof.
  revert r. induction ks as [|k ks IH]; intros r; simpl; [done|].
  case_decide; [intros [= <-]; subst; eauto | apply IH].
Qed.

(** [st1] is [st] after draws for the pairs [ks], none of which had a
    connection. *)
Let draws_from st st1 ks : Prop :=
  connections st1 = connections st ++ (draw_all (rng st) (p st) ks).1 /\
  rng st1 = (draw_all (rng st) (p st) ks).2 /\
  p st1 = p st /\
  NoDup ks /\
  forall key, key ∈ ks -> dict_get (connections st) key = None.

Lemma draws_from_refl st : draws_from st st [].
Proof.
  unfold draws_from. simpl. rewrite app_nil_r.
  split_and!; [done.. | constructor | by intros key ?%elem_of_nil].
Qed.

Lemma draws_from_trans st st1 st2 ks ks' :
  draws_from st st1 ks -> draws_from st1 st2 ks' -> draws_from st st2 (ks ++ ks').
Proof.
  intros (Hc & Hr & Hp & Hnd & Habs) (Hc' & Hr' & Hp' & Hnd' & Habs').
  unfold draws_from. rewrite draw_all_app. simpl.
  rewrite Hc', Hr', Hc, Hr, Hp', Hp, app_assoc.
  split_and!; [done..| |].
  - apply NoDup_app. split_and!; [done | | done].
    intros key Hin Hin'. apply Habs' in Hin'.
    apply dict_get_None_keys in Hin'. apply Hin'.
    rewrite Hc, dict_keys_app, draw_all_keys. apply elem_of_app. by right.
  - intros key [Hin|Hin]%elem_of_app; [auto|].
    apply Habs' in Hin. rewrite Hc, dict_get_app in Hin.
    by destruct (dict_get (connections st) key).
Qed.

Lemma _initialize_connection_draws st (part other : BrainPart) :
  dict_get (connections st) (part, other) = None ->
  draws_from st (_initialize_connection st part other) [(part, other)].
Proof.
  intros Hnone. unfold draws_from, _initialize_connection. simpl.
  unfold drawn_connection. simpl.
  destruct (multi_generate _ _ _ _) as [entries rng']. simpl.
  rewrite dict_set_fresh by done.
  split_and!; [done.. | apply NoDup_singleton |].
  by intros key ->%list_elem_of_singleton.
Qed.

Lemma _project_into_connect_draws st area (srcs : list BrainPart) :
  exists ks, draws_from st (_project_into_connect st area srcs) ks.
Proof.
  unfold _project_into_connect. revert st.
  induction srcs as [|s srcs IH]; intros st; simpl.
  - exists []. apply draws_from_refl.
  - unfold dict_mem. case_bool_decide as Hmem; [apply IH|].
    destruct (IH (_initialize_connection st s (PartArea area))) as [ks Hks].
    exists ([(s, PartArea area)] ++ ks).
    eapply draws_from_trans; [|exact Hks].
    apply _initialize_connection_draws. by apply eq_None_not_Some.
Qed.

Lemma compute_winners_draws sm (areas0 : list Area) st0 nw0 st1 nw1 :
  foldlM (project_area sm) areas0 (st0, nw0) = OK (st1, nw1) ->
  exists ks, draws_from st0 st1 ks.
Proof.
  revert st0 nw0. induction areas0 as [|a areas0 IH]; intros st0 nw0 Hrun;
    simpl in Hrun.
  - injection Hrun as <- <-. exists []. apply draws_from_refl.
  - apply bind_OK in Hrun as ([st' nw'] & Hstep & Hrun).
    unfold project_area in Hstep. simpl in Hstep.
    apply bind_OK in Hstep as (srcs & _ & Hstep).
    apply bind_OK in Hstep as ([st'' w] & Hproj & [= <- <-]).
    unfold _project_into in Hproj.
    apply bind_OK in Hproj as (inputs & _ & Hproj).
    apply bind_OK in Hproj as (w' & _ & [= <- <-]).
    destruct (_project_into_connect_draws st0 a srcs) as [ks Hks].
    destruct (IH _ _ Hrun) as [ks' Hks'].
    exists (ks ++ ks'). by eapply draws_from_trans.
Qed.

(** Plasticity and the commit of the winners neither add a connection nor
    use the generator. *)
Lemma update_connectomes_keys st nw sm st2 :
  update_connectomes st nw sm = OK st2 ->
  rng st2 = rng st /\ dict_keys (connections st2) = dict_keys (connections st).
Proof.
  unfold update_connectomes. destruct (plasticity_disabled st).
  { by intros [= <-]. }
  intros Hrun.
  apply (foldlM_preserves _
           (fun s => rng s = rng st /\
                     dict_keys (connections s) = dict_keys (connections st)))
    in Hrun; [done| |done].
  intros area sa sb _ Hsa Hstep. unfold potentiate_area in Hstep.
  apply bind_OK in Hstep as (srcs & _ & Hstep).
  apply bind_OK in Hstep as (wA & _ & Hstep).
  apply (foldlM_preserves _
           (fun s => rng s = rng st /\
                     dict_keys (connections s) = dict_keys (connections st)))
    in Hstep; [done| |done].
  intros s sc sd _ [Hr Hk] Hpot. unfold potentiate in Hpot.
  apply bind_OK in Hpot as (c & Hc%dict_item_OK & Hpot).
  apply bind_OK in Hpot as (scaled & _ & [= <-]). simpl.
  split; [done|]. rewrite dict_keys_set, decide_True; [done|].
  by eapply dict_get_Some_keys.
Qed.

Lemma update_winners_keys st nw sm st' :
  update_winners st nw sm = OK st' ->
  rng st' = rng st /\ connections st' = connections st.
Proof.
  unfold update_winners. intros Hrun.
  apply (foldlM_preserves _
           (fun s => rng s = rng st /\ connections s = connections st))
    in Hrun; [done| |done].
  intros area sa sb _ Hsa (w & _ & [= <-])%bind_OK. done.
Qed.

(** The phases of [fire], with the connections that the round reads written
    as [wired_connections]. *)
Lemma fire_wired st req st' :
  fire st req = OK st' ->
  dict_keys (connections st') = dict_keys (connections st) ++ new_keys st st' /\
  rng st' = (draw_all (rng st) (p st) (new_keys st st')).2 /\
  NoDup (new_keys st st') /\
  (forall key, key ∈ new_keys st st' <->
               fired_through req key /\ dict_get (connections st) key = None) /\
  (forall key c, dict_get (connections st) key = Some c ->
     dict_get (wired_connections st st') key = Some c) /\
  (forall s area, (s, area) ∈ pairs req ->
     is_Some (dict_get (wired_connections st st') (s, PartArea area))) /\
  (forall area, area ∈ dests req ->
     exists inputs,
       prev_winner_inputs (winners st) (wired_connections st st') area
         (sources_for req area) = OK inputs /\
       select_winners area inputs = OK (winners_of st' area)) /\
  (plasticity_disabled st = true -> connections st' = wired_connections st st') /\
  (plasticity_disabled st = false ->
     (forall key, ~ fired_through req key ->
        dict_get (connections st') key = dict_get (wired_connections st st') key) /\
     (forall s area, (s, area) ∈ pairs req ->
        exists c c',
          dict_get (wired_connections st st') (s, PartArea area) = Some c /\
          dict_get (connections st') (s, PartArea area) = Some c' /\
          potentiated (beta_of c)
            match s with
            | PartStimulus stim => seq 0 (stim_n stim)
            | PartArea a => winners_of st a
            end
            (winners_of st' area) (occurrences (s, area) (pairs req)) c c')).
Proof.
  unfold fire. intros ([st1 nw] & Hcompute & Hrun)%bind_OK. simpl in Hrun.
  apply bind_OK in Hrun as (st2 & Hplast & Hcommit).
  destruct (fire_phases_of _ _ _ _ _ _ _ _ _ Hcompute Hplast Hcommit)
    as (Hext & Hconn & Hnew & _ & Hoff & Hon & _).
  destruct (compute_winners_draws _ _ _ _ _ _ Hcompute)
    as (ks & Hc1 & Hr1 & _ & Hnd & Habs).
  destruct (update_connectomes_keys _ _ _ _ Hplast) as [Hr2 Hk2].
  destruct (update_winners_keys _ _ _ _ Hcommit) as [Hr3 Hc3].
  assert (new_keys st st' = ks) as Hks.
  { unfold new_keys. rewrite Hc3, Hk2, Hc1, dict_keys_app, draw_all_keys.
    rewrite <- (length_fmap fst (connections st)). apply drop_app_length. }
  assert (wired_connections st st' = connections st1) as Hwired.
  { unfold wired_connections. by rewrite Hks. }
  rewrite Hwired, Hks.
  assert (dict_keys (connections st1) = dict_keys (connections st) ++ ks) as Hk1
    by (by rewrite Hc1, dict_keys_app, draw_all_keys).
  assert (forall area w, area ∈ dests req -> dict_get nw area = Some w ->
                         winners_of st' area = w) as Hwinners.
  { intros area w Harea Hw.
    destruct (Hnew _ Harea) as (inputs & w' & _ & _ & Hnw' & Hw').
    unfold winners_of, dict_get_or. rewrite Hw'. simpl. congruence. }
  split_and!.
  - by rewrite Hc3, Hk2.
  - by rewrite Hr3, Hr2.
  - done.
  - intros key. split.
    + intros Hin. split; [|by apply Habs].
      assert (is_Some (dict_get (connections st1) key)) as [c Hc].
      { apply dict_keys_get. rewrite Hk1. apply elem_of_app. by right. }
      by destruct (ext_new _ _ _ Hext key c (Habs _ Hin) Hc).
    + intros [(area & Hd & Hin) Hnone]. destruct key as [s d]. simpl in *.
      subst d. destruct (Hconn _ _ Hin) as [c Hc].
      apply dict_get_Some_keys in Hc. rewrite Hk1 in Hc.
      apply elem_of_app in Hc as [Hc|Hc]; [|done].
      by apply dict_get_None_keys in Hnone.
  - apply (ext_keep _ _ _ Hext).
  - done.
  - intros area Harea.
    destruct (Hnew _ Harea) as (inputs & w & Hinputs & Hsel & Hnw & _).
    exists inputs. split; [done|]. by rewrite (Hwinners _ _ Harea Hnw).
  - done.
  - intros Hen. destruct (Hon Hen) as [Hother Htouched]. split; [done|].
    intros s area Hin.
    destruct (Htouched _ _ Hin) as (c & c' & w & Hc & Hc' & Hnw & Hpot).
    exists c, c'. split_and!; [done..|].
    rewrite (Hwinners area w); [|apply dests_elem; eauto | done].
    by destruct s.
Qed.
End wiring_draws.

Section engine_properties.
Context {Rng : Type}.
Variable multi_generate : Rng -> nat -> nat -> Q -> (nat -> nat -> Q) * Rng.
Variable connection_beta : BrainPart -> BrainPart -> Q.
Variable argpartition : list Q -> Z -> result (list nat).

Implicit Types (st : Connectome Rng) (req : mapping) (area : Area).

Local Abbreviation select_winners := (select_winners argpartition).
Local Abbreviation fire := (fire multi_generate connection_beta argpartition).
Local Abbreviation beta_of c := (connection_beta (conn_source c) (conn_dest c)).

(** A connection that the request does not fire through is the one of the
    state before the call. *)
Lemma fire_other_connections st req st' key :
  fire st req = OK st' -> ~ fired_through req key ->
  dict_get (connections st') key = dict_get (connections st) key.
Proof.
  intros Hfire Hkey.
  destruct (fire_phases _ _ _ _ _ _ Hfire)
    as (st1 & nw & Hext & _ & _ & _ & Hoff & Hon & _).
  assert (dict_get (connections st') key = dict_get (connections st1) key) as ->.
  { destruct (plasticity_disabled st) eqn:Hp.
    - by rewrite Hoff.
    - by apply Hon. }
  destruct (dict_get (connections st) key) as [c|] eqn:Hc.
  - by apply (ext_keep _ _ _ Hext).
  - destruct (dict_get (connections st1) key) as [c1|] eqn:Hc1; [|done].
    by destruct (ext_new _ _ _ Hext key c1 Hc Hc1).
Qed.

(** C9: a call of [fire] that returns leaves alone the winners of every
    area that is not a destination of the request and every connection into
    such an area, and, with plasticity disabled, every connection; it changes
    neither the registered parts nor the settings; and a request whose
    destination lists are all empty changes nothing and raises nothing. *)
Theorem fire_frame st req :
  (forall st', fire st req = OK st' ->
     (forall area, area ∉ dests req -> winners_of st' area = winners_of st area) /\
     (forall s d, (forall area, area ∈ dests req -> d <> PartArea area) ->
        dict_get (connections st') (s, d) = dict_get (connections st) (s, d)) /\
     (plasticity_disabled st = true ->
        forall key c, dict_get (connections st) key = Some c ->
                      dict_get (connections st') key = Some c) /\
     areas st' = areas st /\ stimuli st' = stimuli st /\ p st' = p st /\
     plasticity_disabled st' = plasticity_disabled st) /\
  (Forall (fun item : BrainPart * list Area => item.2 = []) req ->
     fire st req = OK st).
Proof.
  split.
  - intros st' Hfire.
    destruct (fire_phases _ _ _ _ _ _ Hfire)
      as (st1 & nw & Hext & _ & _ & Hwout & Hoff & _ & Hp & Ha & Hs & Hpl).
    split_and!; [| | |done..].
    + intros area Harea. unfold winners_of, dict_get_or. by rewrite Hwout.
    + intros s d Hd. apply (fire_other_connections _ _ _ _ Hfire).
      intros (area & Hkey & Hin). simpl in *.
      apply (Hd area); [|done]. apply dests_elem. eauto.
    + intros Hdis key c Hc. rewrite (Hoff Hdis). by apply (ext_keep _ _ _ Hext).
  - intros Hempty.
    assert (sources_mapping req = []) as Hsm.
    { rewrite sources_mapping_pairs. replace (pairs req) with (@nil (BrainPart * Area)); [done|].
      unfold pairs. induction Hempty as [|[s l] req Hl _ IH]; [done|].
      simpl in *. subst l. simpl. done. }
    unfold fire, compute_winners, update_connectomes, update_winners.
    rewrite Hsm. simpl. by destruct (plasticity_disabled st).
Qed.

(** C6: after a call of [fire] that returns, a destination area with
    [k <= n] has exactly [k] winners, pairwise distinct and all below [n]. *)
Theorem fire_winner_count st req st' area :
  argpartition_contract argpartition ->
  fire st req = OK st' ->
  area ∈ dests req ->
  area_k area <= area_n area ->
  length (winners_of st' area) = area_k area /\
  NoDup (winners_of st' area) /\
  Forall (fun i => i < area_n area) (winners_of st' area).
Proof.
  intros Hap Hfire Harea Hk.
  destruct (fire_phases _ _ _ _ _ _ Hfire) as (st1 & nw & _ & _ & Hnew & _).
  destruct (Hnew _ Harea) as (inputs & w & Hinputs & Hsel & _ & Hw).
  unfold winners_of, dict_get_or. rewrite Hw. simpl.
  eapply select_winners_spec; [done | | done | done].
  by eapply prev_winner_inputs_length.
Qed.

(** C4: in a call of [fire] that returns, the new winners of every
    destination area are selected from inputs that are computed from the
    winners of the state before the call and from the connections [C1] that
    the round reads: those of the state before the call, followed by the ones
    drawn for the pairs that the call added.  With plasticity disabled [C1]
    is what the state holds after the call.  With plasticity enabled the
    connection of a requested pair is the one of [C1] scaled at the rows of
    all the neurons of a stimulus, or of the winners that a source area had
    before the call, also when this area is a destination of the round, and
    at the columns of the new winners.  The winners after the call are the
    new ones. *)
Theorem fire_update_order st req st' :
  fire st req = OK st' ->
  let C1 := wired_connections multi_generate st st' in
  (forall key c, dict_get (connections st) key = Some c -> dict_get C1 key = Some c) /\
  (forall area, area ∈ dests req ->
     exists inputs,
       prev_winner_inputs (winners st) C1 area (sources_for req area) = OK inputs /\
       select_winners area inputs = OK (winners_of st' area)) /\
  (plasticity_disabled st = true -> connections st' = C1) /\
  (plasticity_disabled st = false ->
   forall s area, (s, area) ∈ pairs req ->
     exists c c',
       dict_get C1 (s, PartArea area) = Some c /\
       dict_get (connections st') (s, PartArea area) = Some c' /\
       potentiated (beta_of c)
         match s with
         | PartStimulus stim => seq 0 (stim_n stim)
         | PartArea a => winners_of st a
         end
         (winners_of st' area) (occurrences (s, area) (pairs req)) c c').
Proof.
  intros Hfire C1. subst C1.
  destruct (fire_wired _ _ _ _ _ _ Hfire)
    as (_ & _ & _ & _ & Hkeep & _ & Hnew & Hoff & Hon).
  split_and!; [done..|]. intros Hen. by destruct (Hon Hen).
Qed.

(** C5, amended: with plasticity enabled, a call of [fire] that returns
    takes each connection [c] that the round reads (the connections of the
    state before the call, and the ones drawn for the pairs that the call
    added) to a connection with the same end points and shape.  Its entry
    [(i, j)] is the one of [c] multiplied [m] times by [1 + beta], where
    [m >= 1] is the number of times the request lists the pair, when the
    request fires the source into the destination area, [i] is active in the
    source (any neuron of a stimulus, a winner that a source area had before
    the call) and [j] is a new winner of the area; it is the one of [c]
    otherwise.  For a pair that is listed once the factor is [1 + beta]. *)
Theorem plasticity_scales_active_to_winner st req st' :
  plasticity_disabled st = false ->
  fire st req = OK st' ->
  forall s d c,
    dict_get (wired_connections multi_generate st st') (s, d) = Some c ->
    exists c',
      dict_get (connections st') (s, d) = Some c' /\
      conn_source c' = conn_source c /\ conn_dest c' = conn_dest c /\
      nrows (synapses c') = nrows (synapses c) /\
      ncols (synapses c') = ncols (synapses c) /\
      forall i j,
        match d with
        | PartArea area =>
            if decide ((s, area) ∈ pairs req /\
                       i ∈ match s with
                           | PartStimulus stim => seq 0 (stim_n stim)
                           | PartArea a => winners_of st a
                           end /\
                       j ∈ winners_of st' area)
            then
              1 <= occurrences (s, area) (pairs req) /\
              entry (synapses c') i j =
                Nat.iter (occurrences (s, area) (pairs req))
                  (fun w => (w * (1 + beta_of c))%Q) (entry (synapses c) i j) /\
              (entry (synapses c') i j ==
               entry (synapses c) i j *
               (1 + beta_of c) ^ Z.of_nat (occurrences (s, area) (pairs req)))%Q /\
              (occurrences (s, area) (pairs req) = 1 ->
               entry (synapses c') i j =
                 (entry (synapses c) i j * (1 + beta_of c))%Q)
            else entry (synapses c') i j = entry (synapses c) i j
        | PartStimulus _ => entry (synapses c') i j = entry (synapses c) i j
        end.
Proof.
  intros Hen Hfire s d c Hc.
  destruct (fire_wired _ _ _ _ _ _ Hfire)
    as (_ & _ & _ & _ & _ & _ & _ & _ & Hon).
  destruct (Hon Hen) as [Hother Htouched].
  destruct d as [area|stim].
  - destruct (decide ((s, area) ∈ pairs req)) as [Hin|Hnin].
    + destruct (Htouched _ _ Hin) as (c0 & c' & Hc0 & Hc' & Hpot).
      assert (c0 = c) as -> by congruence.
      destruct Hpot as (Hs' & Hd' & Hr' & Hc'' & He).
      exists c'. split_and!; [done..|]. intros i j. rewrite He.
      pose proof (occurrences_elem _ _ Hin) as Hm.
      case_decide as Hrc.
      * rewrite decide_True by tauto. split_and!; [lia | done | |].
        -- apply iter_scale_power.
        -- intros ->. done.
      * rewrite decide_False by tauto. done.
    + exists c. split_and!; [|done..|].
      * rewrite Hother; [done|]. intros (area' & [= <-] & ?). done.
      * intros i j. rewrite decide_False; [done | tauto].
  - exists c. split_and!; [|done..].
    rewrite Hother; [done|]. by intros (area' & [=] & ?).
Qed.

(** Repeated scaling by a factor that is at least one. *)
Lemma iter_scale_le (beta w : Q) (m : nat) :
  (0 <= beta)%Q -> (0 <= w)%Q ->
  (w <= Nat.iter m (fun w => w * (1 + beta)) w)%Q.
Proof.
  intros Hb Hw. induction m as [|m IH]; simpl; [lra | nra].
Qed.

Lemma iter_scale_lt (beta w : Q) (m : nat) :
  (0 < beta)%Q -> (0 < w)%Q -> 0 < m ->
  (w < Nat.iter m (fun w => w * (1 + beta)) w)%Q.
Proof.
  intros Hb Hw Hm. destruct m as [|m]; [lia|]. simpl.
  pose proof (iter_scale_le beta w m). nra.
Qed.

Lemma iter_scale_fixed (beta w : Q) (m : nat) :
  (beta == 0 \/ w == 0)%Q ->
  (Nat.iter m (fun w => w * (1 + beta)) w == w)%Q.
Proof.
  intros Hz. induction m as [|m IH]; simpl; [lra|].
  destruct Hz as [Hz|Hz]; [rewrite Hz | rewrite IH, Hz]; lra.
Qed.

(** C7: with rates [beta] and weights that are not negative, no entry of a
    connection is smaller after a call of [fire] that returns than before:
    it is the same, or it is larger, and then its source index is active and
    its destination index is a new winner of a destination area that the
    source is fired into. *)
Theorem plasticity_never_decreases st req st' :
  (forall s d, (0 <= connection_beta s d)%Q) ->
  (forall key c i j, dict_get (connections st) key = Some c ->
     i < nrows (synapses c) -> j < ncols (synapses c) ->
     (0 <= entry (synapses c) i j)%Q) ->
  fire st req = OK st' ->
  forall s d c, dict_get (connections st) (s, d) = Some c ->
    exists c',
      dict_get (connections st') (s, d) = Some c' /\
      forall i j, i < nrows (synapses c) -> j < ncols (synapses c) ->
        (entry (synapses c) i j <= entry (synapses c') i j)%Q /\
        ((entry (synapses c') i j == entry (synapses c) i j)%Q \/
         (entry (synapses c) i j < entry (synapses c') i j)%Q /\
         plasticity_disabled st = false /\
         exists area, d = PartArea area /\ (s, area) ∈ pairs req /\
                      i ∈ source_neurons st s /\ j ∈ winners_of st' area).
Proof.
  intros Hbeta Hweights Hfire s d c Hc.
  destruct (fire_phases _ _ _ _ _ _ Hfire)
    as (st1 & nw & Hext & _ & Hnew & _ & Hoff & Hon & _).
  pose proof (ext_keep _ _ _ Hext _ _ Hc) as Hc1.
  assert (forall (c' : Connection) (i j : nat), c' = c ->
            (entry (synapses c) i j <= entry (synapses c') i j)%Q /\
            ((entry (synapses c') i j == entry (synapses c) i j)%Q \/
             (entry (synapses c) i j < entry (synapses c') i j)%Q /\
             plasticity_disabled st = false /\
             exists area, d = PartArea area /\ (s, area) ∈ pairs req /\
                          i ∈ source_neurons st s /\ j ∈ winners_of st' area))
    as Hsame.
  { intros c' i j ->. split; [lra | left; lra]. }
  destruct (plasticity_disabled st) eqn:Hp.
  { exists c. split; [by rewrite Hoff | auto]. }
  destruct (Hon eq_refl) as [Hother Htouched].
  assert ((exists area, d = PartArea area /\ (s, area) ∈ pairs req) \/
          ~ fired_through req (s, d)) as [(area & -> & Hin)|Hnot].
  { destruct d as [area|stim].
    - destruct (decide ((s, area) ∈ pairs req)); [left; eauto | right].
      by intros (a & [= <-] & ?).
    - right. by intros (a & [=] & ?). }
  2:{ exists c. split; [|auto]. by rewrite Hother. }
  destruct (Htouched _ _ Hin) as (c0 & c' & w & Hc0 & Hc' & Hnw & Hpot).
  assert (c0 = c) as -> by congruence.
  assert (winners_of st' area = w) as Hw.
  { assert (area ∈ dests req) as Harea by (apply dests_elem; eauto).
    destruct (Hnew _ Harea) as (inputs & w' & _ & _ & Hnw' & Hw).
    unfold winners_of, dict_get_or. rewrite Hw. simpl. congruence. }
  destruct Hpot as (_ & _ & _ & _ & He).
  exists c'. split; [done|]. intros i j Hi Hj. rewrite He.
  pose proof (Hbeta (conn_source c) (conn_dest c)) as Hb.
  pose proof (Hweights _ _ i j Hc Hi Hj) as Hwt.
  case_decide as Hact; [|split; [lra | left; lra]].
  split; [by apply iter_scale_le|].
  destruct (Qlt_le_dec 0 (beta_of c)) as [Hbpos|Hbz].
  - destruct (Qlt_le_dec 0 (entry (synapses c) i j)) as [Hwpos|Hwz].
    + right. split_and!; [|done|].
      * apply iter_scale_lt; [done..|]. by apply occurrences_elem.
      * exists area. rewrite Hw. tauto.
    + left. apply iter_scale_fixed. right. lra.
  - left. apply iter_scale_fixed. left. lra.
Qed.

(** C3, amended: [fire] does not reject a request for parts or areas that
    were never registered.  On a well shaped state and for destination areas
    with [1 <= k <= n] it returns, whatever is registered.  The pairs it adds
    a connection for are the requested pairs that had none, and no other;
    their connections are drawn by [multi_generate], one after the other in
    the order of the additions, from the generator of the state, which is
    left in the state after these draws.  After the call every requested pair
    has a connection, with the end points and the shape of the one that the
    round read for it; for a pair that had none this is a connection that
    [multi_generate] returned for [source.n] rows and [destination.n]
    columns, and with plasticity disabled it is stored as drawn. *)
Theorem fire_wires_lazily st req :
  argpartition_contract argpartition ->
  well_shaped st ->
  (forall area, area ∈ dests req -> 1 <= area_k area <= area_n area) ->
  exists st',
    fire st req = OK st' /\
    dict_keys (connections st') = dict_keys (connections st) ++ new_keys st st' /\
    (forall key, key ∈ new_keys st st' <->
                 fired_through req key /\ dict_get (connections st) key = None) /\
    rng st' = (draw_all multi_generate (rng st) (p st) (new_keys st st')).2 /\
    forall s area, (s, area) ∈ pairs req ->
      exists c c',
        dict_get (wired_connections multi_generate st st') (s, PartArea area)
          = Some c /\
        dict_get (connections st') (s, PartArea area) = Some c' /\
        conn_source c' = conn_source c /\ conn_dest c' = conn_dest c /\
        nrows (synapses c') = nrows (synapses c) /\
        ncols (synapses c') = ncols (synapses c) /\
        (plasticity_disabled st = true -> c' = c) /\
        (dict_get (connections st) (s, PartArea area) = None ->
         exists r, c = drawn_connection multi_generate r (p st) (s, PartArea area)).
Proof.
  intros Hap Hwf Hk.
  destruct (fire_total multi_generate connection_beta argpartition Hap st req Hwf Hk)
    as (st' & Hfire & _).
  exists st'. split; [done|].
  destruct (fire_wired _ _ _ _ _ _ Hfire)
    as (Hkeys & Hrng & _ & Hnewk & _ & Hconn & _ & Hoff & Hon).
  split_and!; [done..|]. intros s area Hin.
  destruct (Hconn _ _ Hin) as [c Hc].
  assert (dict_get (connections st) (s, PartArea area) = None ->
          exists r, c = drawn_connection multi_generate r (p st) (s, PartArea area))
    as Hdrawn.
  { intros Hnone. unfold wired_connections in Hc.
    rewrite dict_get_app, Hnone in Hc. by eapply draw_all_lookup. }
  destruct (plasticity_disabled st) eqn:Hp.
  - exists c, c. rewrite Hoff by done. by split_and!.
  - destruct (Hon eq_refl) as [_ Htouched].
    destruct (Htouched _ _ Hin) as (c0 & c' & Hc0 & Hc' & Hpot).
    assert (c0 = c) as -> by congruence.
    destruct Hpot as (Hs & Hd & Hr & Hcol & _).
    exists c, c'. by split_and!.
Qed.

End engine_properties.

(** ** The concrete environment and the examples *)

Lemma insert_by_perm (v : list Q) (i : nat) (l : list nat) :
  insert_by v i l ≡ₚ i :: l.
Proof.
  induction l as [|j l IH]; simpl; [done|].
  destruct (Qle_bool _ _); [|done]. rewrite IH. apply Permutation_swap.
Qed.

Lemma np_argsort_perm (v : list Q) : np_argsort v ≡ₚ seq 0 (length v).
Proof.
  unfold np_argsort. rewrite <- (app_nil_r (seq 0 (length v))) at 2.
  generalize (@nil nat) as acc.
  induction (seq 0 (length v)) as [|i l IH]; intros acc; simpl; [done|].
  rewrite IH, insert_by_perm. by rewrite Permutation_middle.
Qed.

Lemma np_argpartition_contract : argpartition_contract np_argpartition.
Proof.
  split; unfold np_argpartition.
  - intros v kth order. case_decide; [|done]. intros [= <-]. apply np_argsort_perm.
  - intros v kth order. case_decide as Hr; [|done]. intros _ Hv.
    assert (length v <> 0) by (by destruct v).
    destruct (decide (kth < 0)%Z); lia.
  - intros v kth Hkth. rewrite (decide_False (P := (kth < 0)%Z)) by lia.
    rewrite decide_True by lia. eauto.
Qed.

Module Witnesses.
Import Ex.

Lemma returns_run (r : result (Connectome nat)) :
  returns r = true -> r = OK (run r).
Proof. destruct r; [reflexivity | discriminate]. Defined.

(** A decidable fact about concrete data, by evaluation. *)
Ltac by_evaluation := apply (bool_decide_unpack _); vm_compute; exact I.

Lemma fire_brain2 : fire0 brain2 req2 = OK brain3.
Proof. apply returns_run. vm_compute. reflexivity. Defined.

Lemma fire_ones_twice : fire0 brain_ones req_twice = OK brain_twice.
Proof. apply returns_run. vm_compute. reflexivity. Defined.

Lemma fire_winner_count_witness :
  length (winners_of brain3 X1) = area_k X1 /\
  NoDup (winners_of brain3 X1) /\
  Forall (fun i => i < area_n X1) (winners_of brain3 X1).
Proof.
  apply (fire_winner_count counter_generate beta_tenth np_argpartition
           brain2 req2 brain3 X1).
  - exact np_argpartition_contract.
  - exact fire_brain2.
  - by_evaluation.
  - vm_compute. lia.
Defined.

(** In the round [req2], X1 is a source and a destination.  Its winners
    were 2 and 3 before the call and are 1 and 2 after it: in the connection
    from X1 into X1 the rows 2 and 3 are scaled at the columns 1 and 2, and
    the row 1 of a new winner is not. *)
Lemma fire_recurrent_values :
  winners_of brain2 X1 = [2; 3] /\
  winners_of brain3 X1 = [1; 2] /\
  match dict_get (connections brain2) (PartArea X1, PartArea X1),
        dict_get (connections brain3) (PartArea X1, PartArea X1) with
  | Some c, Some c' =>
      (map (fun i => map (fun j => Qred (entry (synapses c) i j)) (seq 0 4)) (seq 0 4),
       map (fun i => map (fun j => Qred (entry (synapses c') i j)) (seq 0 4)) (seq 0 4))
  | _, _ => ([], [])
  end =
  ([ [1; 0; 2; 1]; [2; 1; 0; 2]; [0; 2; 1; 0]; [1; 0; 2; 1] ],
   [ [1; 0; 2; 1]; [2; 1; 0; 2]; [0; 11 # 5; 11 # 10; 0]; [1; 0; 11 # 5; 1] ])%Q.
Proof. vm_compute. auto. Qed.

Lemma fire_frame_witness :
  ((forall area, area ∉ dests req2 -> winners_of brain3 area = winners_of brain2 area) /\
   (forall s d, (forall area, area ∈ dests req2 -> d <> PartArea area) ->
      dict_get (connections brain3) (s, d) = dict_get (connections brain2) (s, d)) /\
   (plasticity_disabled brain2 = true ->
      forall key c, dict_get (connections brain2) key = Some c ->
                    dict_get (connections brain3) key = Some c) /\
   areas brain3 = areas brain2 /\ stimuli brain3 = stimuli brain2 /\
   p brain3 = p brain2 /\
   plasticity_disabled brain3 = plasticity_disabled brain2) /\
  fire0 brain2 [(PartStimulus S0, [])] = OK brain2.
Proof.
  split.
  - exact (proj1 (fire_frame counter_generate beta_tenth np_argpartition
                    brain2 req2) brain3 fire_brain2).
  - apply (proj2 (fire_frame counter_generate beta_tenth np_argpartition
                    brain2 [(PartStimulus S0, [])])).
    repeat constructor.
Defined.

Lemma fire_update_order_witness :
  (forall key c, dict_get (connections brain2) key = Some c ->
     dict_get (wired_connections counter_generate brain2 brain3) key = Some c) /\
  (forall area, area ∈ dests req2 ->
     exists inputs,
       prev_winner_inputs (winners brain2)
         (wired_connections counter_generate brain2 brain3) area
         (sources_for req2 area) = OK inputs /\
       select_winners np_argpartition area inputs = OK (winners_of brain3 area)) /\
  (plasticity_disabled brain2 = true ->
     connections brain3 = wired_connections counter_generate brain2 brain3) /\
  (plasticity_disabled brain2 = false ->
   forall s area, (s, area) ∈ pairs req2 ->
     exists c c',
       dict_get (wired_connections counter_generate brain2 brain3)
         (s, PartArea area) = Some c /\
       dict_get (connections brain3) (s, PartArea area) = Some c' /\
       potentiated (beta_tenth (conn_source c) (conn_dest c))
         match s with
         | PartStimulus stim => seq 0 (stim_n stim)
         | PartArea a => winners_of brain2 a
         end
         (winners_of brain3 area) (occurrences (s, area) (pairs req2)) c c').
Proof.
  exact (fire_update_order counter_generate beta_tenth np_argpartition
           brain2 req2 brain3 fire_brain2).
Defined.

(** C5, as stated: the entries from an active source neuron to a new
    winner are multiplied by [1 + beta].  It fails on [brain_ones] with the
    request [req_twice], which lists X1 twice for S0: plasticity is enabled,
    the call returns, neuron 0 of S0 is active and neuron 2 of X1 is a new
    winner, and the entry (0, 2) of the connection from S0 into X1 goes from
    1 to 121/100, which is not 1 * (1 + 1/10). *)
Lemma plasticity_factor_not_single :
  plasticity_disabled brain_ones = false /\
  fire0 brain_ones req_twice = OK brain_twice /\
  (PartStimulus S0, X1) ∈ pairs req_twice /\
  0 ∈ seq 0 (stim_n S0) /\ 2 ∈ winners_of brain_twice X1 /\
  dict_get (connections brain_ones) (PartStimulus S0, PartArea X1) = Some ones /\
  exists c',
    dict_get (connections brain_twice) (PartStimulus S0, PartArea X1) = Some c' /\
    (entry (synapses c') 0 2 == 121 # 100)%Q /\
    ~ (entry (synapses c') 0 2 ==
       entry (synapses ones) 0 2 * (1 + beta_tenth (conn_source ones) (conn_dest ones)))%Q.
Proof.
  split_and!; [reflexivity | exact fire_ones_twice | by_evaluation | by_evaluation
              | by_evaluation | reflexivity |].
  destruct (dict_get (connections brain_twice) (PartStimulus S0, PartArea X1))
    as [c'|] eqn:Hc'; [|vm_compute in Hc'; discriminate Hc'].
  exists c'. split; [done|].
  assert (Qred (entry (synapses c') 0 2) = 121 # 100) as Hval.
  { assert (match dict_get (connections brain_twice) (PartStimulus S0, PartArea X1) with
            | Some c => Qred (entry (synapses c) 0 2)
            | None => 0%Q
            end = 121 # 100) as Hv by (vm_compute; reflexivity).
    by rewrite Hc' in Hv. }
  assert (entry (synapses c') 0 2 == 121 # 100)%Q as Heq
    by (rewrite <- Hval; symmetry; apply Qred_correct).
  split; [done|]. rewrite Heq. vm_compute. discriminate.
Qed.

(** In [brain_ones] the round [req_twice] reads the connection [ones] from
    S0 into X1, and lists the pair twice. *)
Lemma plasticity_scales_active_to_winner_witness :
  exists c',
    dict_get (connections brain_twice) (PartStimulus S0, PartArea X1) = Some c' /\
    conn_source c' = conn_source ones /\ conn_dest c' = conn_dest ones /\
    nrows (synapses c') = nrows (synapses ones) /\
    ncols (synapses c') = ncols (synapses ones) /\
    forall i j,
      if decide ((PartStimulus S0, X1) ∈ pairs req_twice /\
                 i ∈ seq 0 (stim_n S0) /\ j ∈ winners_of brain_twice X1)
      then
        1 <= occurrences (PartStimulus S0, X1) (pairs req_twice) /\
        entry (synapses c') i j =
          Nat.iter (occurrences (PartStimulus S0, X1) (pairs req_twice))
            (fun w => (w * (1 + beta_tenth (conn_source ones) (conn_dest ones)))%Q)
            (entry (synapses ones) i j) /\
        (entry (synapses c') i j ==
         entry (synapses ones) i j *
         (1 + beta_tenth (conn_source ones) (conn_dest ones)) ^
           Z.of_nat (occurrences (PartStimulus S0, X1) (pairs req_twice)))%Q /\
        (occurrences (PartStimulus S0, X1) (pairs req_twice) = 1 ->
         entry (synapses c') i j =
           (entry (synapses ones) i j *
            (1 + beta_tenth (conn_source ones) (conn_dest ones)))%Q)
      else entry (synapses c') i j = entry (synapses ones) i j.
Proof.
  apply (plasticity_scales_active_to_winner counter_generate beta_tenth
           np_argpartition brain_ones req_twice brain_twice eq_refl fire_ones_twice
           (PartStimulus S0) (PartArea X1) ones).
  vm_compute. reflexivity.
Defined.

Lemma plasticity_never_decreases_witness :
  exists c',
    dict_get (connections brain_twice) (PartStimulus S0, PartArea X1) = Some c' /\
    forall i j, i < nrows (synapses ones) -> j < ncols (synapses ones) ->
      (entry (synapses ones) i j <= entry (synapses c') i j)%Q /\
      ((entry (synapses c') i j == entry (synapses ones) i j)%Q \/
       (entry (synapses ones) i j < entry (synapses c') i j)%Q /\
       plasticity_disabled brain_ones = false /\
       exists area, PartArea X1 = PartArea area /\
                    (PartStimulus S0, area) ∈ pairs req_twice /\
                    i ∈ source_neurons brain_ones (PartStimulus S0) /\
                    j ∈ winners_of brain_twice area).
Proof.
  apply (plasticity_never_decreases counter_generate beta_tenth np_argpartition
           brain_ones req_twice brain_twice).
  - intros s d. unfold beta_tenth, Qle. simpl. lia.
  - intros key c i j. simpl. destruct (decide _); [|discriminate].
    intros [= <-] _ _. unfold Qle. simpl. lia.
  - exact fire_ones_twice.
  - reflexivity.
Defined.

Lemma fire_wires_lazily_witness :
  exists st',
    fire0 empty_brain req1 = OK st' /\
    dict_keys (connections st') =
      dict_keys (connections empty_brain) ++ new_keys empty_brain st' /\
    (forall key, key ∈ new_keys empty_brain st' <->
                 fired_through req1 key /\
                 dict_get (connections empty_brain) key = None) /\
    rng st' = (draw_all counter_generate (rng empty_brain) (p empty_brain)
                 (new_keys empty_brain st')).2 /\
    forall s area, (s, area) ∈ pairs req1 ->
      exists c c',
        dict_get (wired_connections counter_generate empty_brain st')
          (s, PartArea area) = Some c /\
        dict_get (connections st') (s, PartArea area) = Some c' /\
        conn_source c' = conn_source c /\ conn_dest c' = conn_dest c /\
        nrows (synapses c') = nrows (synapses c) /\
        ncols (synapses c') = ncols (synapses c) /\
        (plasticity_disabled empty_brain = true -> c' = c) /\
        (dict_get (connections empty_brain) (s, PartArea area) = None ->
         exists r, c = drawn_connection counter_generate r (p empty_brain)
                         (s, PartArea area)).
Proof.
  apply (fire_wires_lazily counter_generate beta_tenth np_argpartition
           empty_brain req1).
  - exact np_argpartition_contract.
  - apply new_connectome_well_shaped.
  - intros area Harea. vm_compute in Harea.
    apply list_elem_of_singleton in Harea as ->. vm_compute. lia.
Defined.

(** The round [req1] on the connectome with nothing registered adds the pair
    (S0, X1) and draws once: the round reads the matrix that
    [counter_generate] gives at the state 0, and the state after the call
    holds it scaled at the columns of the new winners 2 and 3. *)
Lemma fire_wires_lazily_values :
  new_keys empty_brain (run (fire0 empty_brain req1))
    = [(PartStimulus S0, PartArea X1)] /\
  rng (run (fire0 empty_brain req1)) = 1 /\
  winners_of (run (fire0 empty_brain req1)) X1 = [2; 3] /\
  map (fun i => map (fun j => (counter_generate 0 4 3 1).1 i j) (seq 0 4)) (seq 0 3)
    = [ [0; 2; 1; 0]; [1; 0; 2; 1]; [2; 1; 0; 2] ]%Q /\
  match dict_get (wired_connections counter_generate empty_brain
                    (run (fire0 empty_brain req1))) (PartStimulus S0, PartArea X1),
        dict_get (connections (run (fire0 empty_brain req1)))
          (PartStimulus S0, PartArea X1) with
  | Some c, Some c' =>
      (map (fun i => map (fun j => Qred (entry (synapses c) i j)) (seq 0 4)) (seq 0 3),
       map (fun i => map (fun j => Qred (entry (synapses c') i j)) (seq 0 4)) (seq 0 3))
  | _, _ => ([], [])
  end =
  ([ [0; 2; 1; 0]; [1; 0; 2; 1]; [2; 1; 0; 2] ],
   [ [0; 2; 11 # 10; 0]; [1; 0; 11 # 5; 11 # 10]; [2; 1; 0; 11 # 5] ])%Q.
Proof. vm_compute. auto. Qed.

(** C3, as stated: a request for parts that were never registered raises.
    It fails on the connectome with nothing registered: firing S0 into X1
    returns, with a connection from S0 into X1 that the call made. *)
Lemma fire_unregistered_returns :
  (S0 ∉ stimuli empty_brain) /\ (X1 ∉ areas empty_brain) /\
  connections empty_brain = [] /\
  exists st',
    fire0 empty_brain req1 = OK st' /\
    dict_keys (connections st') = [(PartStimulus S0, PartArea X1)].
Proof.
  split_and!; [by intros ?%elem_of_nil | by intros ?%elem_of_nil | reflexivity |].
  exists (run (fire0 empty_brain req1)). split.
  - apply returns_run. vm_compute. reflexivity.
  - vm_compute. reflexivity.
Qed.

(** C8, on the code: registering a stimulus makes a connection from the
    stimulus into itself; and registering the stimulus S0 and then the area X1
    in a connectome with nothing registered makes four connections, two of
    which have the stimulus S0 as their destination. *)
Theorem registration_wires_into_stimulus :
  (forall (st : Connectome nat) (s : Stimulus),
     is_Some (dict_get (connections (add_stimulus counter_generate st s))
                (PartStimulus s, PartStimulus s))) /\
  dict_keys (connections (add_area counter_generate
                            (add_stimulus counter_generate empty_brain S0) X1)) =
    [ (PartStimulus S0, PartStimulus S0);
      (PartArea X1, PartArea X1);
      (PartArea X1, PartStimulus S0);
      (PartStimulus S0, PartArea X1) ].
Proof.
  split.
  - apply add_stimulus_self_connection.
  - vm_compute. reflexivity.
Qed.


(** The request [req_twice] lists X1 twice for S0: the input of a neuron of
    X1 is twice the three weights of its column, and the weights of the
    winners are multiplied by [(1 + 1/10) ^ 2]. *)
Lemma fire_twice_values :
  occurrences (PartStimulus S0, X1) (pairs req_twice) = 2 /\
  prev_winner_inputs (winners brain_ones) (connections brain_ones) X1
    (sources_for req_twice X1) = OK [6; 6; 6; 6]%Q /\
  winners_of brain_twice X1 = [2; 3] /\
  match dict_get (connections brain_twice) (PartStimulus S0, PartArea X1) with
  | Some c => map (fun j => Qred (entry (synapses c) 0 j)) (seq 0 4)
  | None => []
  end = [1; 1; 121 # 100; 121 # 100]%Q.
Proof. vm_compute. auto. Qed.
End Witnesses.

(** * Beyond the design document *)

(** ** Registration wires the parts *)

Section registration_wiring.
Context {Rng : Type}.
Variable multi_generate : Rng -> nat -> nat -> Q -> (nat -> nat -> Q) * Rng.

Implicit Types (st : Connectome Rng) (part other : BrainPart) (key : conn_key).

Local Abbreviation _initialize_connection := (_initialize_connection multi_generate).
Local Abbreviation _initialize_parts := (_initialize_parts multi_generate).
Local Abbreviation add_area := (add_area multi_generate).
Local Abbreviation add_stimulus := (add_stimulus multi_generate).
Local Abbreviation new_connectome := (new_connectome multi_generate).

(** The pair [key] has a connection as [_initialize_connection] makes it. *)
Let wired st key : Prop :=
  exists c, dict_get (connections st) key = Some c /\ fresh_connection key c.

(** The body of the inner loop of [_initialize_parts]. *)
Let wire part st other :=
  let st := _initialize_connection st part other in
  if is_area part && bool_decide (part <> other)
  then _initialize_connection st other part
  else st.

(** What the loops of [_initialize_parts] leave alone. *)
Let same_registry (st st' : Connectome Rng) : Prop :=
  p st' = p st /\ areas st' = areas st /\ stimuli st' = stimuli st /\
  winners st' = winners st /\ plasticity_disabled st' = plasticity_disabled st.

Lemma _initialize_connection_wired st part other :
  wired (_initialize_connection st part other) (part, other).
Proof.
  unfold wired, _initialize_connection.
  destruct (multi_generate _ _ _ _) as [entries rng']. simpl.
  rewrite dict_get_set_eq. eexists. split; [done|]. by repeat split.
Qed.

Lemma _initialize_connection_other st part other key :
  key <> (part, other) ->
  dict_get (connections (_initialize_connection st part other)) key =
  dict_get (connections st) key.
Proof.
  intros Hne. unfold _initialize_connection.
  destruct (multi_generate _ _ _ _) as [entries rng']. simpl.
  by rewrite dict_get_set_ne.
Qed.

Lemma _initialize_connection_keeps_wired st part other key :
  wired st key -> wired (_initialize_connection st part other) key.
Proof.
  intros Hw. destruct (decide (key = (part, other))) as [->|Hne].
  - apply _initialize_connection_wired.
  - unfold wired. by rewrite _initialize_connection_other.
Qed.

Lemma _initialize_connection_registry st part other :
  same_registry st (_initialize_connection st part other).
Proof.
  unfold _initialize_connection.
  destruct (multi_generate _ _ _ _) as [entries rng']. by repeat split.
Qed.

Lemma same_registry_trans st1 st2 st3 :
  same_registry st1 st2 -> same_registry st2 st3 -> same_registry st1 st3.
Proof. unfold same_registry. intuition congruence. Qed.

Lemma wire_registry part st other : same_registry st (wire part st other).
Proof.
  unfold wire. destruct (is_area part && bool_decide (part <> other)).
  - eapply same_registry_trans; apply _initialize_connection_registry.
  - apply _initialize_connection_registry.
Qed.

Lemma wire_keeps_wired part st other key :
  wired st key -> wired (wire part st other) key.
Proof.
  intros Hw. unfold wire.
  destruct (is_area part && bool_decide (part <> other));
    auto using _initialize_connection_keeps_wired.
Qed.

Lemma wire_wired part st other :
  wired (wire part st other) (part, other) /\
  (is_area part = true -> wired (wire part st other) (other, part)).
Proof.
  unfold wire. destruct (is_area part) eqn:Harea; simpl.
  - case_bool_decide as Hne.
    + split; [|intros _; apply _initialize_connection_wired].
      apply _initialize_connection_keeps_wired, _initialize_connection_wired.
    + subst other.
      split; [|intros _]; apply _initialize_connection_wired.
  - split; [apply _initialize_connection_wired | done].
Qed.

(** The keys that [wire part] may set. *)
Lemma wire_other part st other key :
  key.1 <> part -> (is_area part = true -> key.2 <> part) ->
  dict_get (connections (wire part st other)) key = dict_get (connections st) key.
Proof.
  intros H1 H2. unfold wire. destruct (is_area part) eqn:Harea; simpl.
  - case_bool_decide.
    + rewrite !_initialize_connection_other; [done | |].
      * intros ->. by apply H1.
      * intros ->. by apply H2.
    + rewrite _initialize_connection_other; [done|]. intros ->. by apply H1.
  - rewrite _initialize_connection_other; [done|]. intros ->. by apply H1.
Qed.

Lemma wire_loop part (others : list BrainPart) st :
  let st' := fold_left (wire part) others st in
  same_registry st st' /\
  (forall key, wired st key -> wired st' key) /\
  (forall other, other ∈ others ->
     wired st' (part, other) /\ (is_area part = true -> wired st' (other, part))) /\
  (forall key, key.1 <> part -> (is_area part = true -> key.2 <> part) ->
     dict_get (connections st') key = dict_get (connections st) key).
Proof.
  revert st. induction others as [|x others IH]; intros st; simpl.
  - split_and!; [by repeat split | done | by intros ? ?%elem_of_nil | done].
  - destruct (IH (wire part st x)) as (Hreg & Hkeep & Hall & Hother).
    split_and!.
    + eapply same_registry_trans; [apply wire_registry | done].
    + intros key Hw. by apply Hkeep, wire_keeps_wired.
    + intros other [->|Hin]%elem_of_cons; [|auto].
      destruct (wire_wired part st x) as [H1 H2].
      split; [by apply Hkeep | intros Ha; by apply Hkeep, H2].
    + intros key H1 H2. rewrite Hother by done. by apply wire_other.
Qed.

(** The parts that a state has registered. *)
Let registered st : list BrainPart :=
  map PartArea (areas st) ++ map PartStimulus (stimuli st).

Lemma _initialize_parts_loop (parts : list BrainPart) st :
  let st' := _initialize_parts st parts in
  same_registry st st' /\
  (forall key, wired st key -> wired st' key) /\
  (forall part other, part ∈ parts -> other ∈ registered st ->
     wired st' (part, other) /\ (is_area part = true -> wired st' (other, part))) /\
  (forall key, key.1 ∉ parts -> (key.2 ∉ parts \/ is_area key.2 = false) ->
     dict_get (connections st') key = dict_get (connections st) key).
Proof.
  unfold _initialize_parts. revert st.
  induction parts as [|x parts IH]; intros st; simpl.
  - split_and!; [by repeat split | done | by intros ? ? ?%elem_of_nil | done].
  - pose proof (wire_loop x (registered st) st) as (Hreg1 & Hkeep1 & Hall1 & Hother1).
    unfold registered in *.
    set (st1 := fold_left _ (map PartArea (areas st) ++ map PartStimulus (stimuli st)) st) in *.
    destruct (IH st1) as (Hreg & Hkeep & Hall & Hother).
    split_and!.
    + by eapply same_registry_trans.
    + auto.
    + intros part other [->|Hin]%elem_of_cons Hother'.
      * destruct (Hall1 other Hother') as [H1 H2]. split; auto.
      * apply Hall; [done|]. destruct Hreg1 as (_ & -> & -> & _). done.
    + intros key [Hx Hk1]%not_elem_of_cons Hk2.
      rewrite Hother; [apply Hother1; [done|] | done |].
      * intros Harea Heq. rewrite Heq in Hk2.
        destruct Hk2 as [Hk2|Hk2]; [|congruence]. apply Hk2. left.
      * destruct Hk2 as [Hk2|Hk2]; [left | by right].
        by apply not_elem_of_cons in Hk2 as [_ ?].
Qed.

(** X2: [add_area] appends the area and wires it with every registered part,
    itself included, in both directions, each connection with the shape its
    end points give; the connections that do not touch the area, the stimuli,
    the winners and [p] stay as they are. *)
Theorem add_area_wires st (area : Area) :
  let st' := add_area st area in
  areas st' = areas st ++ [area] /\ stimuli st' = stimuli st /\
  winners st' = winners st /\ p st' = p st /\
  (forall other,
     other ∈ map PartArea (areas st') ++ map PartStimulus (stimuli st') ->
     (exists c, dict_get (connections st') (PartArea area, other) = Some c /\
                fresh_connection (PartArea area, other) c) /\
     (exists c, dict_get (connections st') (other, PartArea area) = Some c /\
                fresh_connection (other, PartArea area) c)) /\
  (forall key, key.1 <> PartArea area -> key.2 <> PartArea area ->
     dict_get (connections st') key = dict_get (connections st) key).
Proof.
  unfold add_area.
  set (st0 := mkConnectome (p st) (areas st ++ [area]) (stimuli st)
                (connections st) (winners st) (plasticity_disabled st) (rng st)).
  destruct (_initialize_parts_loop [PartArea area] st0)
    as ((Hp & Ha & Hs & Hw & _) & _ & Hall & Hother).
  unfold registered in Hall. cbv zeta. rewrite Hp, Ha, Hs, Hw.
  split_and!; [done..| |].
  - intros other Hin.
    destruct (Hall (PartArea area) other) as [H1 H2]; [left | done |].
    split; [exact H1 | by apply H2].
  - intros key H1 H2. apply (Hother key).
    + by intros ?%list_elem_of_singleton.
    + left. by intros ?%list_elem_of_singleton.
Qed.

(** X3: [add_stimulus] appends the stimulus and wires it into every
    registered part, the areas, the stimuli and itself; it makes or changes no
    connection whose source is another part, and keeps the areas, the winners
    and [p]. *)
Theorem add_stimulus_wires st (stimulus : Stimulus) :
  let st' := add_stimulus st stimulus in
  stimuli st' = stimuli st ++ [stimulus] /\ areas st' = areas st /\
  winners st' = winners st /\ p st' = p st /\
  (forall other,
     other ∈ map PartArea (areas st') ++ map PartStimulus (stimuli st') ->
     exists c, dict_get (connections st') (PartStimulus stimulus, other) = Some c /\
               fresh_connection (PartStimulus stimulus, other) c) /\
  (forall key, key.1 <> PartStimulus stimulus ->
     dict_get (connections st') key = dict_get (connections st) key).
Proof.
  unfold add_stimulus.
  set (st0 := mkConnectome (p st) (areas st) (stimuli st ++ [stimulus])
                (connections st) (winners st) (plasticity_disabled st) (rng st)).
  destruct (_initialize_parts_loop [PartStimulus stimulus] st0)
    as ((Hp & Ha & Hs & Hw & _) & _ & Hall & Hother).
  unfold registered in Hall. cbv zeta. rewrite Hp, Ha, Hs, Hw.
  split_and!; [done..| |].
  - intros other Hin.
    by destruct (Hall (PartStimulus stimulus) other) as [H1 _]; [left | done |].
  - intros key H1. apply (Hother key).
    + by intros ?%list_elem_of_singleton.
    + destruct key as [k1 [a|s]]; simpl; [left | by right].
      by intros [=]%list_elem_of_singleton.
Qed.

(** Every connection lies between parts of [U]. *)
Let within (U : list BrainPart) st : Prop :=
  forall key, is_Some (dict_get (connections st) key) -> key.1 ∈ U /\ key.2 ∈ U.

Lemma _initialize_connection_within (U : list BrainPart) st part other :
  part ∈ U -> other ∈ U -> within U st ->
  within U (_initialize_connection st part other).
Proof.
  intros Hp Ho Hst key. destruct (decide (key = (part, other))) as [->|Hne]; [done|].
  rewrite _initialize_connection_other by done. apply Hst.
Qed.

Lemma wire_loop_within (U : list BrainPart) part (others : list BrainPart) st :
  part ∈ U -> (forall other, other ∈ others -> other ∈ U) -> within U st ->
  within U (fold_left (wire part) others st).
Proof.
  intros Hp. revert st. induction others as [|x others IH]; intros st Ho Hst; [done|].
  simpl. apply IH; [intros o Hin; apply Ho; by right|].
  assert (x ∈ U) by (apply Ho; left).
  unfold wire. destruct (is_area part && bool_decide (part <> x));
    auto using _initialize_connection_within.
Qed.

Lemma _initialize_parts_within (U : list BrainPart) (parts : list BrainPart) st :
  (forall part, part ∈ parts -> part ∈ U) ->
  (forall other, other ∈ registered st -> other ∈ U) ->
  within U st -> within U (_initialize_parts st parts).
Proof.
  unfold _initialize_parts. revert st.
  induction parts as [|x parts IH]; intros st Hparts Hreg Hst; [done|].
  simpl. pose proof (wire_loop x (registered st) st) as (Hreg1 & _).
  pose proof (wire_loop_within U x (registered st) st) as Hin1.
  unfold registered in *.
  set (st1 := fold_left _ (map PartArea (areas st) ++ map PartStimulus (stimuli st)) st) in *.
  destruct Hreg1 as (_ & Ha & Hs & _).
  apply IH.
  - intros part Hin. apply Hparts. by right.
  - by rewrite Ha, Hs.
  - apply Hin1; [apply Hparts; left | done..].
Qed.

(** X1: the constructor with [initialize=True] wires every ordered pair of
    the given parts, makes no connection that leaves them and sets no winners;
    with [initialize=False] it makes no connection. *)
Theorem new_connectome_wires (p0 : Q) (areas0 : list Area)
    (stimuli0 : list Stimulus) (rng0 : Rng) :
  let parts := map PartArea areas0 ++ map PartStimulus stimuli0 in
  let st := new_connectome p0 areas0 stimuli0 true rng0 in
  areas st = areas0 /\ stimuli st = stimuli0 /\ winners st = [] /\
  (forall x y, x ∈ parts -> y ∈ parts ->
     exists c, dict_get (connections st) (x, y) = Some c /\ fresh_connection (x, y) c) /\
  (forall key, is_Some (dict_get (connections st) key) ->
     key.1 ∈ parts /\ key.2 ∈ parts) /\
  connections (new_connectome p0 areas0 stimuli0 false rng0) = [].
Proof.
  intros parts st. subst st. unfold new_connectome.
  set (st0 := mkConnectome p0 areas0 stimuli0 [] [] false rng0).
  destruct (_initialize_parts_loop parts st0) as ((_ & Ha & Hs & Hw & _) & _ & Hall & _).
  unfold registered in Hall. fold parts. rewrite Ha, Hs, Hw.
  split_and!; [done..| | |done].
  - intros x y Hx Hy. by destruct (Hall x y Hx Hy).
  - apply (_initialize_parts_within parts parts st0); [done | done |].
    by intros key [c Hc].
Qed.
(** X4: the constructor gives a well shaped state, and [add_area] and
    [add_stimulus] keep a state well shaped: the matrix of every connection
    has the neuron counts of its end points as its shape, and the winners of
    every area are neurons of the area. *)
Theorem registration_keeps_well_shaped st (area : Area) (stimulus : Stimulus)
    (p0 : Q) (areas0 : list Area) (stimuli0 : list Stimulus) (initialize : bool)
    (rng0 : Rng) :
  well_shaped (new_connectome p0 areas0 stimuli0 initialize rng0) /\
  (well_shaped st ->
   well_shaped (add_area st area) /\ well_shaped (add_stimulus st stimulus)).
Proof.
  split.
  - unfold new_connectome.
    assert (well_shaped (mkConnectome p0 areas0 stimuli0 [] [] false rng0)).
    { split; [done|]. intros a. constructor. }
    destruct initialize; [by apply _initialize_parts_well_shaped | done].
  - intros Hwf. split; by apply _initialize_parts_well_shaped.
Qed.

Lemma get_connected_parts_elem st area (part : BrainPart) :
  part ∈ get_connected_parts st area <->
  is_Some (dict_get (connections st) (part, PartArea area)).
Proof.
  unfold get_connected_parts. rewrite list_elem_of_fmap. split.
  - intros ([s d] & -> & [Hd Hin]%list_elem_of_filter). simpl in *. subst d.
    by apply dict_keys_get.
  - intros [c Hc]. exists (part, PartArea area). split; [done|].
    apply list_elem_of_filter. split; [done|]. by eapply dict_get_Some_keys.
Qed.

(** X5: right after [add_area(area)], [get_connected_parts(area)] lists
    every registered part, the area itself included; and right after
    [add_stimulus(stimulus)], the stimulus is among the connected parts of
    every registered area. *)
Theorem registration_connects st (area : Area) (stimulus : Stimulus) :
  (forall other,
     other ∈ map PartArea (areas st ++ [area]) ++ map PartStimulus (stimuli st) ->
     other ∈ get_connected_parts (add_area st area) area) /\
  (forall a, a ∈ areas st ->
     PartStimulus stimulus ∈ get_connected_parts (add_stimulus st stimulus) a).
Proof.
  split.
  - intros other Hin. apply get_connected_parts_elem. unfold add_area.
    set (st0 := mkConnectome (p st) (areas st ++ [area]) (stimuli st)
                  (connections st) (winners st) (plasticity_disabled st) (rng st)).
    destruct (_initialize_parts_loop [PartArea area] st0) as (_ & _ & Hall & _).
    destruct (Hall (PartArea area) other) as [_ H2]; [left | done |].
    destruct H2 as (c & Hc & _); [done | eauto].
  - intros a Ha. apply get_connected_parts_elem. unfold add_stimulus.
    set (st0 := mkConnectome (p st) (areas st) (stimuli st ++ [stimulus])
                  (connections st) (winners st) (plasticity_disabled st) (rng st)).
    destruct (_initialize_parts_loop [PartStimulus stimulus] st0)
      as (_ & _ & Hall & _).
    destruct (Hall (PartStimulus stimulus) (PartArea a)) as [(c & Hc & _) _];
      [left | | eauto].
    apply elem_of_app. left. by apply list_elem_of_fmap_2.
Qed.
End registration_wiring.

(** ** The commit, the accessors and the sub-connectome *)

Lemma foldlM_Err {A B : Type} (f : B -> A -> result B) (e : error)
    (l : list A) (b : B) :
  (forall x b, x ∈ l -> (exists b', f b x = OK b') \/ f b x = Err e) ->
  (exists x, x ∈ l /\ forall b, f b x = Err e) ->
  foldlM f l b = Err e.
Proof.
  revert b. induction l as [|y l IH]; intros b Hf (x & Hx & Hfx).
  - by apply elem_of_nil in Hx.
  - simpl. destruct (Hf y b) as [[b' Hy]|Hy]; [left | | by rewrite Hy].
    rewrite Hy. simpl. apply elem_of_cons in Hx as [->|Hx].
    + by rewrite Hfx in Hy.
    + apply IH; [|eauto]. intros z b0 Hz. apply Hf. by right.
Qed.

Lemma mapM_result_Err {A B : Type} (f : A -> result B) (e : error) (l : list A) :
  (forall x, x ∈ l -> (exists y, f x = OK y) \/ f x = Err e) ->
  (exists x, x ∈ l /\ f x = Err e) ->
  mapM_result f l = Err e.
Proof.
  induction l as [|y l IH]; intros Hf (x & Hx & Hfx).
  - by apply elem_of_nil in Hx.
  - simpl. destruct (Hf y) as [[b' Hy]| ->]; [left | | done]. rewrite Hy. simpl.
    apply elem_of_cons in Hx as [->|Hx]; [congruence|].
    rewrite IH; [done | | eauto]. intros z Hz. apply Hf. by right.
Qed.

Section accessors.
Context {Rng : Type}.
Variable multi_generate : Rng -> nat -> nat -> Q -> (nat -> nat -> Q) * Rng.
Variable connection_beta : BrainPart -> BrainPart -> Q.
Variable argpartition : list Q -> Z -> result (list nat).

Implicit Types (st : Connectome Rng) (req : mapping) (area : Area).
Implicit Types (nw : list (Area * list nat)).
Implicit Types (sm : list (Area * list BrainPart)).

Local Abbreviation fire := (fire multi_generate connection_beta argpartition).
Local Abbreviation subconnectome := (subconnectome multi_generate).

(** X8: [update_winners] raises [KeyError] when an area of [sources] has no
    entry in [new_winners]; otherwise it returns, the winners of the areas of
    [sources] are their entries of [new_winners], and the winners of every
    other area, whatever [new_winners] holds for it, and the connections are
    as before. *)
Theorem update_winners_commits st nw sm :
  ((exists area, area ∈ dict_keys sm /\ dict_get nw area = None) ->
   update_winners st nw sm = Err KeyError) /\
  ((forall area, area ∈ dict_keys sm -> is_Some (dict_get nw area)) ->
   exists st',
     update_winners st nw sm = OK st' /\
     connections st' = connections st /\
     (forall area w, area ∈ dict_keys sm -> dict_get nw area = Some w ->
        winners_of st' area = w) /\
     (forall area, area ∉ dict_keys sm -> winners_of st' area = winners_of st area)).
Proof.
  unfold update_winners. split.
  - intros (area & Harea & Hnone). apply foldlM_Err.
    + intros a s _. unfold commit_area, dict_item.
      destruct (dict_get nw a); simpl; eauto.
    + exists area. split; [done|]. intros s. unfold commit_area, dict_item.
      by rewrite Hnone.
  - intros Hall.
    destruct (foldlM_total (commit_area nw) (fun _ => True) (dict_keys sm) st)
      as (st' & Hst' & _); [done | |].
    { intros a s Ha _. unfold commit_area, dict_item.
      destruct (Hall a Ha) as [w ->]. simpl. eauto. }
    exists st'. destruct (commit_area_loop _ _ _ _ Hst') as (Hconn & Hout & Hin).
    split_and!; [done..| |].
    + intros area w Harea Hw. destruct (Hin _ Harea) as (w' & Hw' & Hget).
      unfold winners_of, dict_get_or. rewrite Hget. simpl. congruence.
    + intros area Harea. unfold winners_of, dict_get_or. by rewrite Hout.
Qed.

(** X6: after a call of [fire] that returns, [get_connected_parts] lists for
    every destination area the sources the request fires into it; it lists
    every part it listed before the call, and a part it did not list before
    is a source of the area in the request. *)
Theorem fire_connects_sources st req st' :
  fire st req = OK st' ->
  (forall s area, (s, area) ∈ pairs req -> s ∈ get_connected_parts st' area) /\
  (forall part area,
     part ∈ get_connected_parts st area -> part ∈ get_connected_parts st' area) /\
  (forall part area,
     part ∈ get_connected_parts st' area ->
     part ∈ get_connected_parts st area \/ (part, area) ∈ pairs req).
Proof.
  intros Hfire.
  destruct (fire_phases _ _ _ _ _ _ Hfire)
    as (st1 & nw & Hext & Hconn & _ & _ & Hoff & Hon & _).
  assert (forall key, is_Some (dict_get (connections st') key) <->
                      is_Some (dict_get (connections st1) key)) as Hsame.
  { intros [s d]. destruct (plasticity_disabled st) eqn:Hp; [by rewrite Hoff|].
    destruct (Hon eq_refl) as [Hother Htouched].
    assert ((exists area, d = PartArea area /\ (s, area) ∈ pairs req) \/
            ~ fired_through req (s, d)) as [(area & -> & Hin)|Hnot].
    { destruct d as [area|stim].
      - destruct (decide ((s, area) ∈ pairs req)); [left; eauto | right].
        by intros (a & [= <-] & ?).
      - right. by intros (a & [=] & ?). }
    - destruct (Htouched _ _ Hin) as (c & c' & w & -> & -> & _). split; eauto.
    - by rewrite Hother. }
  split_and!.
  - intros s area Hin. apply get_connected_parts_elem, Hsame. auto.
  - intros part area [c Hc]%get_connected_parts_elem.
    apply get_connected_parts_elem, Hsame. exists c. by apply (ext_keep _ _ _ Hext).
  - intros part area [c Hc]%get_connected_parts_elem%Hsame.
    destruct (dict_get (connections st) (part, PartArea area)) as [c0|] eqn:Hc0.
    + left. apply get_connected_parts_elem. rewrite Hc0. eauto.
    + right. destruct (ext_new _ _ _ Hext _ _ Hc0 Hc) as [(a & [= <-] & Hin) _].
      done.
Qed.

(** X7: [subconnectome] raises [KeyError] when a pair of the request has no
    connection.  Otherwise it returns a connectome with the probability [p]
    of the engine, the stimuli and the areas that the request names, each
    area once, and with no connection and no winners: the connections that
    were looked up are not carried over. *)
Theorem subconnectome_holds_no_connection (rng0 : Rng) st req :
  ((exists part dsts area,
      dict_get req part = Some dsts /\ area ∈ dsts /\
      dict_get (connections st) (part, PartArea area) = None) ->
   subconnectome rng0 st req = Err KeyError) /\
  ((forall part dsts area,
      dict_get req part = Some dsts -> area ∈ dsts ->
      is_Some (dict_get (connections st) (part, PartArea area))) ->
   exists sub,
     subconnectome rng0 st req = OK sub /\
     connections sub = [] /\ winners sub = [] /\ p sub = p st /\
     stimuli sub = omap as_stimulus (dict_keys req) /\
     NoDup (areas sub) /\
     forall a, a ∈ areas sub <->
               PartArea a ∈ dict_keys req \/ exists item, item ∈ req /\ a ∈ item.2).
Proof.
  unfold subconnectome.
  set (edges := flat_map _ (dict_keys req)).
  assert (forall s a, (s, a) ∈ edges <->
                      exists dsts, dict_get req s = Some dsts /\ a ∈ dsts) as Hedges.
  { intros s a. subst edges. rewrite list_elem_of_In, in_flat_map. split.
    - intros (part & Hpart%list_elem_of_In & Hin%list_elem_of_In).
      apply list_elem_of_fmap in Hin as (a' & [= -> ->] & Ha').
      destruct (dict_keys_get _ _ Hpart) as [dsts Hd].
      unfold dict_get_or in Ha'. rewrite Hd in Ha'. eauto.
    - intros (dsts & Hd & Ha). exists s. split.
      + apply list_elem_of_In. by eapply dict_get_Some_keys.
      + apply list_elem_of_In, list_elem_of_fmap. exists a. split; [done|].
        unfold dict_get_or. by rewrite Hd. }
  split.
  - intros (part & dsts & area & Hd & Ha & Hnone).
    rewrite (mapM_result_Err _ KeyError); [done | |].
    + intros [s a] _. unfold dict_item. simpl.
      destruct (dict_get (connections st) (s, PartArea a)); simpl; eauto.
    + exists (part, area). split; [apply Hedges; eauto|].
      unfold dict_item. simpl. by rewrite Hnone.
  - intros Hall.
    destruct (mapM_result_total
                (fun edge : BrainPart * Area =>
                   c ← dict_item (connections st) (edge.1, PartArea edge.2);
                   OK (edge, c))
                (fun _ => True) edges) as (subnet & -> & _).
    { intros [s a] (dsts & Hd & Ha)%Hedges. unfold dict_item. simpl.
      destruct (Hall s dsts a Hd Ha) as [c ->]. simpl. eauto. }
    simpl. eexists. split; [done|]. unfold new_connectome. simpl.
    split_and!; [done.. | apply NoDup_remove_dups |].
    intros a. rewrite elem_of_remove_dups, elem_of_app, list_elem_of_omap.
    rewrite list_elem_of_join. split.
    + intros [(part & Hpart & Ha)|(l & Ha & Hl)].
      * left. destruct part; [|done]. by injection Ha as ->.
      * right. apply list_elem_of_fmap in Hl as (item & -> & Hitem). eauto.
    + intros [Hk|(item & Hitem & Ha)].
      * left. by exists (PartArea a).
      * right. exists item.2. split; [done|]. by apply list_elem_of_fmap_2.
Qed.
End accessors.

(** ** More on [fire] *)

Section fire_more.
Context {Rng : Type}.
Variable multi_generate : Rng -> nat -> nat -> Q -> (nat -> nat -> Q) * Rng.
Variable connection_beta : BrainPart -> BrainPart -> Q.
Variable argpartition : list Q -> Z -> result (list nat).

Implicit Types (st : Connectome Rng) (req : mapping) (area : Area).
Implicit Types (nw : list (Area * list nat)).
Implicit Types (sm : list (Area * list BrainPart)).

Local Abbreviation _project_into_connect := (_project_into_connect multi_generate).
Local Abbreviation select_winners := (select_winners argpartition).
Local Abbreviation _project_into := (_project_into multi_generate argpartition).
Local Abbreviation potentiate := (potentiate connection_beta).
Local Abbreviation potentiate_area := (potentiate_area connection_beta).
Local Abbreviation update_connectomes := (update_connectomes connection_beta).
Local Abbreviation project_area := (project_area multi_generate argpartition).
Local Abbreviation compute_winners := (compute_winners multi_generate argpartition).
Local Abbreviation fire := (fire multi_generate connection_beta argpartition).
Local Abbreviation fire_rounds :=
  (fire_rounds multi_generate connection_beta argpartition).

(** X9: a sequence of rounds on a well shaped state, all for destination areas
    with [1 <= k <= n], returns, and the state it returns is well shaped. *)
Theorem fire_rounds_return st (requests : list mapping) :
  argpartition_contract argpartition ->
  well_shaped st ->
  (forall req area, req ∈ requests -> area ∈ dests req ->
     1 <= area_k area <= area_n area) ->
  exists st', fire_rounds st requests = OK st' /\ well_shaped st'.
Proof.
  intros Hap Hwf Hk. unfold fire_rounds.
  apply (foldlM_total fire well_shaped); [done|].
  intros req st0 Hreq Hst0.
  apply (fire_total multi_generate connection_beta argpartition Hap); [done|].
  intros area. by apply Hk.
Qed.

(** X12: a destination area with the quota [k = 0] and at least one neuron makes
    [fire] raise: the selection asks [np.argpartition] for the position [n]. *)
Theorem fire_quota_zero_raises st req area :
  argpartition_contract argpartition ->
  area ∈ dests req -> area_k area = 0 -> 0 < area_n area ->
  exists e, fire st req = Err e.
Proof.
  intros Hap Harea Hk Hn. destruct (fire st req) as [st'|e] eqn:Hfire; [|eauto].
  exfalso.
  destruct (fire_phases _ _ _ _ _ _ Hfire) as (st1 & nw & _ & _ & Hnew & _).
  destruct (Hnew _ Harea) as (inputs & w & Hinputs & Hsel & _).
  apply prev_winner_inputs_length in Hinputs.
  unfold select_winners in Hsel. apply bind_OK in Hsel as (order & Horder & _).
  apply (argpartition_range _ Hap) in Horder.
  - rewrite Hinputs, Hk in Horder. lia.
  - intros ->. simpl in Hinputs. lia.
Qed.

(** X13: a destination area whose quota [k] is not below its size [n] has all its
    neurons as winners after a call of [fire] that returns. *)
Theorem fire_quota_covers_area st req st' area :
  argpartition_contract argpartition ->
  fire st req = OK st' ->
  area ∈ dests req -> 0 < area_k area -> area_n area <= area_k area ->
  winners_of st' area ≡ₚ seq 0 (area_n area).
Proof.
  intros Hap Hfire Harea Hk Hn.
  destruct (fire_phases _ _ _ _ _ _ Hfire) as (st1 & nw & _ & _ & Hnew & _).
  destruct (Hnew _ Harea) as (inputs & w & Hinputs & Hsel & _ & Hw).
  apply prev_winner_inputs_length in Hinputs.
  unfold select_winners in Hsel. apply bind_OK in Hsel as (order & Horder & [= <-]).
  apply (argpartition_perm _ Hap) in Horder as Hperm. rewrite Hinputs in Hperm.
  unfold winners_of, dict_get_or. rewrite Hw. simpl.
  unfold take_last. rewrite decide_False by lia.
  assert (length order = area_n area) as Hlen by (by rewrite Hperm, length_seq).
  replace (length order - area_k area) with 0 by lia. done.
Qed.

(** X14: with an [np.argpartition] that partitions, the winners of a
    destination area are neurons of largest input.  The inputs are those of
    the call: computed from the winners of the state before the call and from
    the connections that the round reads ([wired_connections]: the ones of
    the state before the call, followed by the ones drawn for the pairs that
    the call added), the input of a neuron being the sum of what the
    occurrences of the sources of the area add.  No neuron that is left out
    has a larger input than a winner. *)
Theorem fire_selects_largest_inputs st req st' area :
  argpartition_contract argpartition ->
  argpartition_partitions argpartition ->
  fire st req = OK st' ->
  area ∈ dests req -> 1 <= area_k area <= area_n area ->
  exists inputs : list Q,
    prev_winner_inputs (winners st) (wired_connections multi_generate st st')
      area (sources_for req area) = OK inputs /\
    (forall j x, inputs !! j = Some x ->
       (x == qsum (map (fun s => source_input (winners st)
                                   (wired_connections multi_generate st st') area s j)
                     (sources_for req area)))%Q) /\
    forall a b,
      a ∈ winners_of st' area -> b < area_n area -> b ∉ winners_of st' area ->
      (default 0 (inputs !! b) <= default 0 (inputs !! a))%Q.
Proof.
  intros Hap Hpart Hfire Harea Hk.
  destruct (fire_wired _ _ _ _ _ _ Hfire) as (_ & _ & _ & _ & _ & _ & Hnew & _).
  destruct (Hnew _ Harea) as (inputs & Hinputs & Hsel).
  exists inputs. split_and!; [done | |].
  { intros j x Hx. by eapply prev_winner_inputs_lookup. }
  apply prev_winner_inputs_length in Hinputs as Hlen.
  unfold select_winners in Hsel. apply bind_OK in Hsel as (order & Horder & [= Hw]).
  apply (argpartition_perm _ Hap) in Horder as Hperm. rewrite Hlen in Hperm.
  assert (length order = area_n area) as Hlo by (by rewrite Hperm, length_seq).
  rewrite <- Hw. unfold take_last. rewrite decide_False by lia.
  intros a b Ha Hb Hnb.
  apply list_elem_of_lookup in Ha as [j Hj]. rewrite lookup_drop in Hj.
  assert (b ∈ order) as [i Hi]%list_elem_of_lookup.
  { rewrite Hperm. apply elem_of_seq. lia. }
  assert (i < area_n area - area_k area) as Hlt.
  { destruct (decide (i < area_n area - area_k area)) as [|Hge]; [done|].
    exfalso. apply Hnb. apply list_elem_of_lookup.
    exists (i - (length order - area_k area)). rewrite lookup_drop.
    rewrite <- Hi. f_equal. lia. }
  apply (Hpart inputs _ order i (length order - area_k area + j) b a Horder);
    [lia | | done | done].
  rewrite Hlo. lia.
Qed.

(** X10: with plasticity disabled, no sequence of rounds changes a connection the
    state holds, and plasticity stays disabled. *)
Theorem fire_rounds_plasticity_disabled st (requests : list mapping) st' :
  plasticity_disabled st = true ->
  fire_rounds st requests = OK st' ->
  plasticity_disabled st' = true /\
  forall key c, dict_get (connections st) key = Some c ->
                dict_get (connections st') key = Some c.
Proof.
  unfold fire_rounds. revert st.
  induction requests as [|req requests IH]; intros st Hdis Hrun; simpl in Hrun.
  - by injection Hrun as <-.
  - apply bind_OK in Hrun as (st1 & Hfire & Hrun).
    destruct (fire_phases _ _ _ _ _ _ Hfire)
      as (st0 & nw & Hext & _ & _ & _ & Hoff & _ & _ & _ & _ & Hflag).
    destruct (IH st1) as [Hflag' Hkeep]; [congruence | done |].
    split; [done|]. intros key c Hc. apply Hkeep.
    rewrite (Hoff Hdis). by apply (ext_keep _ _ _ Hext).
Qed.

Lemma _project_into_connect_wired st area (srcs : list BrainPart) :
  (forall s, s ∈ srcs -> is_Some (dict_get (connections st) (s, PartArea area))) ->
  _project_into_connect st area srcs = st.
Proof.
  unfold _project_into_connect.
  induction srcs as [|s srcs IH]; intros Hconn; simpl; [done|].
  unfold dict_mem. rewrite bool_decide_eq_true_2 by (apply Hconn; left).
  apply IH. intros s' Hs'. apply Hconn. by right.
Qed.

(** X11: a request whose pairs all have a connection makes [fire] draw
    nothing from the random generator and make no connection. *)
Theorem fire_wired_request_draws_nothing st req st' :
  (forall s area, (s, area) ∈ pairs req ->
     is_Some (dict_get (connections st) (s, PartArea area))) ->
  fire st req = OK st' ->
  rng st' = rng st /\
  dict_keys (connections st') = dict_keys (connections st).
Proof.
  intros Hconn Hfire. unfold fire in Hfire.
  apply bind_OK in Hfire as ([st1 nw] & Hcompute & Hrun). simpl in Hrun.
  apply bind_OK in Hrun as (st2 & Hplast & Hcommit).
  assert (st1 = st) as ->.
  { unfold compute_winners in Hcompute.
    apply (foldlM_preserves _ (fun acc => acc.1 = st)) in Hcompute; [done| |done].
    intros area [sta nwa] [stb nwb] Harea Hsta Hstep. simpl in *. subst sta.
    unfold project_area in Hstep. simpl in Hstep.
    apply bind_OK in Hstep as (srcs & Hsrcs%dict_item_OK & Hstep).
    apply bind_OK in Hstep as ([stc w] & Hproj & [= <- <-]).
    unfold _project_into in Hproj.
    apply bind_OK in Hproj as (inputs & _ & Hproj).
    apply bind_OK in Hproj as (w' & _ & [= <- <-]). simpl.
    apply _project_into_connect_wired. intros s Hs.
    apply sources_mapping_get in Hsrcs as [_ ->].
    by apply Hconn, sources_for_elem. }
  assert (rng st2 = rng st /\
          dict_keys (connections st2) = dict_keys (connections st)) as [Hrng Hkeys].
  { unfold update_connectomes in Hplast.
    destruct (plasticity_disabled st); [by injection Hplast as <-|].
    apply (foldlM_preserves _
             (fun s => rng s = rng st /\
                       dict_keys (connections s) = dict_keys (connections st)))
      in Hplast; [done| |done].
    intros area sa sb _ Hsa Hstep. unfold potentiate_area in Hstep.
    apply bind_OK in Hstep as (srcs & _ & Hstep).
    apply bind_OK in Hstep as (wA & _ & Hstep).
    apply (foldlM_preserves _
             (fun s => rng s = rng st /\
                       dict_keys (connections s) = dict_keys (connections st)))
      in Hstep; [done| |done].
    intros s sc sd _ [Hr Hk] Hpot. unfold potentiate in Hpot.
    apply bind_OK in Hpot as (c & Hc%dict_item_OK & Hpot).
    apply bind_OK in Hpot as (scaled & _ & [= <-]). simpl.
    split; [done|]. rewrite dict_keys_set, decide_True; [done|].
    by eapply dict_get_Some_keys. }
  destruct (commit_area_loop _ _ _ _ Hcommit) as (Hconn' & _).
  split; [|by rewrite Hconn'].
  apply (foldlM_preserves _ (fun s => rng s = rng st)) in Hcommit; [done| |done].
  intros area sa sb _ Hsa (w & _ & [= <-])%bind_OK. done.
Qed.
End fire_more.

(** ** The rounds of the scheduler *)

Module SchedulerRounds.
Import Scheduler SchedulerFacts.

Lemma max_le_bound {A : Type} (f : A -> nat) (l : list A) (n : nat) :
  (forall x, x ∈ l -> f x <= n) -> foldr (fun p d => Nat.max (f p) d) 0 l <= n.
Proof.
  induction l as [|y l IH]; intros Hall; simpl; [lia|].
  assert (f y <= n) by (apply Hall; left).
  assert (foldr (fun p d => Nat.max (f p) d) 0 l <= n)
    by (apply IH; intros x Hx; apply Hall; by right).
  lia.
Qed.

Lemma max_same_elements {A : Type} (f : A -> nat) (l l' : list A) :
  (forall x, x ∈ l <-> x ∈ l') ->
  foldr (fun p d => Nat.max (f p) d) 0 l = foldr (fun p d => Nat.max (f p) d) 0 l'.
Proof.
  intros Hsame. apply Nat.le_antisymm; apply max_le_bound; intros x Hx;
    apply depth_le_max; by apply Hsame.
Qed.

Lemma dict_keys_set_elem {K V : Type} `{EqDecision K}
    (d : list (K * V)) (k k' : K) (v : V) :
  k' ∈ dict_keys (dict_set d k v) <-> k' ∈ dict_keys d \/ k' = k.
Proof.
  rewrite dict_keys_set. case_decide.
  - split; [auto | by intros [?| ->]].
  - rewrite elem_of_app, list_elem_of_singleton. done.
Qed.

Lemma dict_keys_cons {K V : Type} (d : list (K * V)) (k : K) (v : V) :
  dict_keys ((k, v) :: d) = k :: dict_keys d.
Proof. done. Qed.

Lemma dict_set_items {K V : Type} `{EqDecision K}
    (d : list (K * V)) (k : K) (v : V) (item : K * V) :
  item ∈ dict_set d k v -> item ∈ d \/ item = (k, v).
Proof.
  induction d as [|[k0 v0] d IH]; simpl.
  - intros ?%list_elem_of_singleton. auto.
  - case_decide; subst.
    + intros [->|?]%elem_of_cons; [auto | left; by right].
    + intros [->|[?|?]%IH]%elem_of_cons; [left; left | left; by right | auto].
Qed.

(** The keys of the layer above are exactly the parents of the assemblies of
    the layer. *)
Lemma add_parents_keeps (cur : layer) (ass key : Projectable) :
  key ∈ dict_keys cur -> key ∈ dict_keys (add_parents cur ass).
Proof.
  unfold add_parents. destruct ass as [s|area parents]; [done|].
  generalize (ProjAssembly area parents) as ass. intros ass.
  revert cur. induction parents as [|q ps IH]; intros cur Hk; simpl; [done|].
  apply IH, dict_keys_set_elem. auto.
Qed.

Lemma add_parents_adds (cur : layer) (area : Area) (parents : list Projectable)
    (parent : Projectable) :
  parent ∈ parents ->
  parent ∈ dict_keys (add_parents cur (ProjAssembly area parents)).
Proof.
  unfold add_parents.
  generalize (ProjAssembly area parents) as ass. intros ass.
  assert (forall ps cur0,
            parent ∈ dict_keys cur0 ->
            parent ∈ dict_keys
                       (fold_left
                          (fun cur p => dict_set cur p (dict_get_or cur ass [] ++ [area]))
                          ps cur0)) as Hkeep.
  { induction ps as [|q ps IH]; intros cur0 Hk; simpl; [done|].
    apply IH, dict_keys_set_elem. auto. }
  revert cur. induction parents as [|q ps IH]; intros cur Hin; simpl.
  - by apply elem_of_nil in Hin.
  - apply elem_of_cons in Hin as [->|Hin]; [|by apply IH].
    apply Hkeep, dict_keys_set_elem. auto.
Qed.

Lemma next_layer_parents (top : layer) (key : Projectable) :
  parent_in (dict_keys top) key -> key ∈ dict_keys (next_layer top).
Proof.
  intros (area & parents & Hin & Hkey). unfold next_layer.
  assert (ProjAssembly area parents ∈
            filter (fun ass => negb (is_Stimulus ass)) (dict_keys top)) as Hass
    by (by apply list_elem_of_filter).
  revert Hass. generalize (filter (fun ass => negb (is_Stimulus ass)) (dict_keys top)).
  intros l. generalize (@nil (Projectable * list Area)) as cur.
  assert (forall l cur, key ∈ dict_keys cur ->
                        key ∈ dict_keys (fold_left add_parents l cur)) as Hkeep.
  { clear. induction l as [|x l IH]; intros cur Hk; simpl; [done|].
    by apply IH, add_parents_keeps. }
  induction l as [|x l IH]; intros cur Hass; simpl.
  - by apply elem_of_nil in Hass.
  - apply elem_of_cons in Hass as [<-|Hass]; [|by apply IH].
    by apply Hkeep, add_parents_adds.
Qed.

Lemma layer_depth_step (top : layer) :
  existsb is_Assembly (dict_keys top) = true ->
  layer_depth top = S (layer_depth (next_layer top)).
Proof.
  intros Hex. pose proof (next_layer_depth top Hex) as Hlt.
  apply Nat.le_antisymm; [|lia]. unfold layer_depth at 1.
  apply max_le_bound. intros [s|area parents] Hx; simpl; [lia|].
  apply le_n_S, max_le_bound. intros parent Hp.
  apply (depth_le_max depth), next_layer_parents. by exists area, parents.
Qed.

Lemma layer_depth_stimuli (top : layer) :
  existsb is_Assembly (dict_keys top) = false -> layer_depth top = 0.
Proof.
  intros Hex. apply Nat.le_antisymm; [|lia]. apply max_le_bound.
  intros [s|area parents] Hx; simpl; [lia|].
  assert (existsb is_Assembly (dict_keys top) = true); [|congruence].
  apply existsb_exists. exists (ProjAssembly area parents).
  split; [by apply list_elem_of_In | done].
Qed.

(** The loop appends one layer for each level of the tallest entry of the top
    layer, and stops on a layer of stimuli. *)
Lemma build_layers_spec (fuel : nat) (layers : list layer) (top : layer) :
  last layers = Some top -> layer_depth top < fuel ->
  exists out top',
    build_layers fuel layers = Some out /\
    length out = length layers + layer_depth top /\
    head out = head layers /\
    last out = Some top' /\
    existsb is_Assembly (dict_keys top') = false.
Proof.
  revert layers top. induction fuel as [|fuel IH]; intros layers top Hlast Hfuel; [lia|].
  simpl. rewrite Hlast. destruct (existsb is_Assembly (dict_keys top)) eqn:Hex.
  - pose proof (layer_depth_step top Hex) as Hstep.
    destruct (IH (layers ++ [next_layer top]) (next_layer top))
      as (out & top' & -> & Hlen & Hhead & Hlast' & Hex'); [apply last_snoc | lia |].
    exists out, top'. split_and!; [done | | | done..].
    + rewrite Hlen, length_app. simpl. lia.
    + rewrite Hhead. destruct layers; [done | done].
  - exists layers, top. rewrite (layer_depth_stimuli top Hex).
    split_and!; [done | lia | done..].
Qed.

Lemma first_layer_keys (projectables : list Projectable) (area : Area)
    (x : Projectable) :
  x ∈ dict_keys (first_layer projectables area) <-> x ∈ projectables.
Proof.
  unfold first_layer.
  assert (forall l cur,
            x ∈ dict_keys (fold_left (fun l projectable =>
                                        dict_set l projectable [area]) l cur) <->
            x ∈ dict_keys cur \/ x ∈ l) as Hfold.
  { induction l as [|y l IH]; intros cur; simpl.
    - split; [auto | by intros [?|?%elem_of_nil]].
    - rewrite IH, dict_keys_set_elem, elem_of_cons. intuition. }
  rewrite Hfold. split; [by intros [?%elem_of_nil|?] | auto].
Qed.

Lemma first_layer_items (projectables : list Projectable) (area : Area)
    (item : Projectable * list Area) :
  item ∈ first_layer projectables area -> item.2 = [area].
Proof.
  unfold first_layer.
  assert (forall l (cur : layer),
            (forall item, item ∈ cur -> item.2 = [area]) ->
            forall item,
              item ∈ fold_left (fun l projectable =>
                                  dict_set l projectable [area]) l cur ->
              item.2 = [area]) as Hfold.
  { induction l as [|y l IH]; intros cur Hcur; simpl; [done|].
    apply IH. intros it [?| ->]%dict_set_items; auto. }
  apply Hfold. by intros it ?%elem_of_nil.
Qed.

(** X15: [fire_many] makes one call of [next_round] for each level of the
    parent tree: one more than the height of the tallest projectable, a
    stimulus having height 0 and an assembly one more than its tallest
    parent. *)
Theorem fire_many_round_count (projectables : list Projectable) (area : Area) :
  exists rounds,
    fire_many projectables area = Some rounds /\
    length rounds = S (foldr (fun x d => Nat.max (depth x) d) 0 projectables).
Proof.
  unfold fire_many.
  destruct (build_layers_spec (S (layer_depth (first_layer projectables area)))
              [first_layer projectables area] (first_layer projectables area))
    as (out & top' & -> & Hlen & _); [done | lia |].
  simpl. eexists. split; [done|].
  rewrite length_map, length_reverse, Hlen. simpl. f_equal.
  apply max_same_elements. apply first_layer_keys.
Qed.

(** The keys and the values of the mapping of a layer. *)
Lemma dict_update_keys {K V : Type} `{EqDecision K} (d1 d2 : list (K * V)) (k : K) :
  k ∈ dict_keys (dict_update d1 d2) <-> k ∈ dict_keys d1 \/ k ∈ dict_keys d2.
Proof.
  unfold dict_update. revert d1.
  induction d2 as [|[k2 v2] d2 IH]; intros d1; cbn [fold_left].
  - split; [auto | by intros [?|?%elem_of_nil]].
  - rewrite IH, dict_keys_set_elem, dict_keys_cons, elem_of_cons. simpl. intuition.
Qed.

Lemma dict_update_get {K V : Type} `{EqDecision K} (d1 d2 : list (K * V))
    (k : K) (v : V) :
  dict_get (dict_update d1 d2) k = Some v ->
  dict_get d1 k = Some v \/ (k, v) ∈ d2.
Proof.
  unfold dict_update. revert d1. induction d2 as [|[k2 v2] d2 IH]; intros d1; simpl.
  - auto.
  - intros [Hget|Hin]%IH; [|right; by right].
    rewrite dict_get_set in Hget. case_decide; [|auto].
    injection Hget as ->. subst. right; left.
Qed.

Lemma dict_get_items {K V : Type} `{EqDecision K} (d : list (K * V)) (k : K) (v : V) :
  dict_get d k = Some v -> (k, v) ∈ d.
Proof.
  induction d as [|[k0 v0] d IH]; simpl; [done|].
  case_decide; [intros [= ->]; subst; left | intros ?; right; auto].
Qed.

Lemma stimuli_mappings_keys (l : layer) (part : BrainPart) :
  part ∈ dict_keys (stimuli_mappings l) <->
  exists s, part = PartStimulus s /\ ProjStimulus s ∈ dict_keys l.
Proof.
  unfold stimuli_mappings.
  assert (forall l (m : mapping),
            part ∈ dict_keys
                     (fold_left
                        (fun m (item : Projectable * list Area) =>
                           match item.1 with
                           | ProjStimulus stim => dict_set m (PartStimulus stim) item.2
                           | ProjAssembly _ _ => m
                           end) l m) <->
            part ∈ dict_keys m \/
            exists s, part = PartStimulus s /\ ProjStimulus s ∈ dict_keys l) as Hfold.
  { clear l. induction l as [|[x v] l IH]; intros m; cbn [fold_left].
    - split; [auto | by intros [?|(s & _ & ?%elem_of_nil)]].
    - rewrite IH, dict_keys_cons. destruct x as [s0|a ps]; simpl.
      + rewrite dict_keys_set_elem. split.
        * intros [[?| ->]|(s & -> & ?)]; [auto | |].
          -- right. exists s0. split; [done | left].
          -- right. exists s. split; [done | by right].
        * intros [?|(s & -> & [[= ->]|?]%elem_of_cons)]; [auto | auto |].
          right. eauto.
      + split.
        * intros [?|(s & -> & ?)]; [auto|]. right. exists s. split; [done | by right].
        * intros [?|(s & -> & [[=]|?]%elem_of_cons)]; [auto|]. right. eauto. }
  rewrite Hfold. split; [by intros [?%elem_of_nil|?] | auto].
Qed.

Lemma assembly_mapping_keys (l : layer) (a : Area) :
  a ∈ dict_keys (assembly_mapping l) <->
  exists ps, ProjAssembly a ps ∈ dict_keys l.
Proof.
  unfold assembly_mapping.
  assert (forall l (m : list (Area * list Area)),
            a ∈ dict_keys
                  (fold_left
                     (fun m (item : Projectable * list Area) =>
                        match item.1 with
                        | ProjAssembly area _ =>
                            dict_set m area (dict_get_or m area [] ++ item.2)
                        | ProjStimulus _ => m
                        end) l m) <->
            a ∈ dict_keys m \/ exists ps, ProjAssembly a ps ∈ dict_keys l) as Hfold.
  { clear l. induction l as [|[x v] l IH]; intros m; cbn [fold_left].
    - split; [auto | by intros [?|(ps & ?%elem_of_nil)]].
    - rewrite IH, dict_keys_cons. destruct x as [s0|a0 ps0]; simpl.
      + split.
        * intros [?|(ps & ?)]; [auto|]. right. exists ps. by right.
        * intros [?|(ps & [[=]|?]%elem_of_cons)]; [auto|]. right. eauto.
      + rewrite dict_keys_set_elem. split.
        * intros [[?| ->]|(ps & ?)]; [auto | |].
          -- right. exists ps0. left.
          -- right. exists ps. by right.
        * intros [?|(ps & [[= -> ->]|?]%elem_of_cons)]; [auto | auto |].
          right. eauto. }
  rewrite Hfold. split; [by intros [?%elem_of_nil|?] | auto].
Qed.

Lemma layer_mapping_keys (l : layer) (part : BrainPart) :
  part ∈ dict_keys (layer_mapping l) <->
  exists x, x ∈ dict_keys l /\ brain_part x = part.
Proof.
  unfold layer_mapping. rewrite dict_update_keys, stimuli_mappings_keys.
  assert (forall m : list (Area * list Area),
            part ∈ dict_keys
                     (map (fun item : Area * list Area => (PartArea item.1, item.2)) m) <->
            exists a, part = PartArea a /\ a ∈ dict_keys m) as ->.
  { induction m as [|[a v] m IH]; cbn [map].
    - split; [by intros ?%elem_of_nil | by intros (a & _ & ?%elem_of_nil)].
    - rewrite !dict_keys_cons, elem_of_cons, IH. simpl. split.
      + intros [->|(a' & -> & ?)]; [exists a; split; [done | left] |].
        exists a'. split; [done | by right].
      + intros (a' & -> & [->|?]%elem_of_cons); [auto | right; eauto]. }
  split.
  - intros [(s & -> & Hs)|(a & -> & [ps Hps]%assembly_mapping_keys)].
    + by exists (ProjStimulus s).
    + by exists (ProjAssembly a ps).
  - intros ([s|a ps] & Hx & <-); simpl; [left; eauto | right].
    exists a. split; [done|]. apply assembly_mapping_keys. eauto.
Qed.

Lemma dict_update_items {K V : Type} `{EqDecision K} (d1 d2 : list (K * V))
    (item : K * V) :
  item ∈ dict_update d1 d2 -> item ∈ d1 \/ item ∈ d2.
Proof.
  unfold dict_update. revert d1. induction d2 as [|[k2 v2] d2 IH]; intros d1; simpl.
  - auto.
  - intros [[?| ->]%dict_set_items|?]%IH; [auto | right; left | right; by right].
Qed.

(** Every destination of the mapping of a layer is a destination of the
    layer. *)
Lemma layer_mapping_dests (l : layer) (part : BrainPart) (dsts : list Area) (d : Area) :
  dict_get (layer_mapping l) part = Some dsts -> d ∈ dsts ->
  exists item, item ∈ l /\ d ∈ item.2.
Proof.
  assert (forall it : BrainPart * list Area,
            it ∈ stimuli_mappings l -> exists item, item ∈ l /\ item.2 = it.2) as Hstim.
  { unfold stimuli_mappings.
    assert (forall l0 (m : mapping),
              (forall it, it ∈ m -> exists item, item ∈ l /\ item.2 = it.2) ->
              (forall item, item ∈ l0 -> item ∈ l) ->
              forall it,
                it ∈ fold_left
                       (fun m (item : Projectable * list Area) =>
                          match item.1 with
                          | ProjStimulus stim => dict_set m (PartStimulus stim) item.2
                          | ProjAssembly _ _ => m
                          end) l0 m ->
                exists item, item ∈ l /\ item.2 = it.2) as Hfold.
    { induction l0 as [|[x v0] l0 IH]; intros m Hm Hsub; simpl; [done|].
      apply IH; [|intros it ?; apply Hsub; by right].
      destruct x as [s0|a0 ps0]; simpl; [|done].
      intros it [?| ->]%dict_set_items; [by apply Hm|].
      exists (ProjStimulus s0, v0). split; [apply Hsub; left | done]. }
    apply Hfold; [by intros it ?%elem_of_nil | done]. }
  assert (forall it : Area * list Area,
            it ∈ assembly_mapping l -> forall d, d ∈ it.2 ->
            exists item, item ∈ l /\ d ∈ item.2) as Hass.
  { unfold assembly_mapping.
    assert (forall l0 (m : list (Area * list Area)),
              (forall it, it ∈ m -> forall d, d ∈ it.2 ->
                          exists item, item ∈ l /\ d ∈ item.2) ->
              (forall item, item ∈ l0 -> item ∈ l) ->
              forall it,
                it ∈ fold_left
                       (fun m (item : Projectable * list Area) =>
                          match item.1 with
                          | ProjAssembly area _ =>
                              dict_set m area (dict_get_or m area [] ++ item.2)
                          | ProjStimulus _ => m
                          end) l0 m ->
                forall d, d ∈ it.2 -> exists item, item ∈ l /\ d ∈ item.2) as Hfold.
    { induction l0 as [|[x v0] l0 IH]; intros m Hm Hsub; simpl; [done|].
      apply IH; [|intros it ?; apply Hsub; by right].
      destruct x as [s0|a0 ps0]; simpl; [done|].
      intros it [?| ->]%dict_set_items; [by apply Hm|]. simpl.
      intros d0 [Hd|Hd]%elem_of_app.
      - unfold dict_get_or in Hd.
        destruct (dict_get m a0) as [v1|] eqn:Hv1; simpl in Hd;
          [|by apply elem_of_nil in Hd].
        apply dict_get_items in Hv1. by apply (Hm _ Hv1).
      - exists (ProjAssembly a0 ps0, v0). split; [apply Hsub; left | done]. }
    apply Hfold; [by intros it ?%elem_of_nil | done]. }
  unfold layer_mapping. intros [Hin|Hin]%dict_get_items%dict_update_items Hd.
  - destruct (Hstim _ Hin) as (item & ? & Heq). simpl in Heq. subst dsts. eauto.
  - apply list_elem_of_fmap in Hin as ([a v] & [= -> ->] & Hin).
    by apply (Hass _ Hin).
Qed.

(** X16: the first round of [fire_many] fires stimuli only; the sources of the
    last round are the requested projectables, a stimulus as itself and an
    assembly as its area, and every destination of the last round is the
    target area. *)
Theorem fire_many_first_and_last_round (projectables : list Projectable)
    (area : Area) :
  exists rounds first final,
    fire_many projectables area = Some rounds /\
    head rounds = Some first /\ last rounds = Some final /\
    (forall part, part ∈ dict_keys first -> is_area part = false) /\
    (forall part, part ∈ dict_keys final <->
                  exists x, x ∈ projectables /\ brain_part x = part) /\
    (forall part dsts d, dict_get final part = Some dsts -> d ∈ dsts -> d = area).
Proof.
  unfold fire_many.
  destruct (build_layers_spec (S (layer_depth (first_layer projectables area)))
              [first_layer projectables area] (first_layer projectables area))
    as (out & top' & -> & _ & Hhead & Hlast & Hex); [done | lia |].
  simpl in *. exists (map layer_mapping (reverse out)), (layer_mapping top'),
    (layer_mapping (first_layer projectables area)).
  split_and!; [done | | | | |].
  - rewrite <- (reverse_involutive out) in Hlast. rewrite last_reverse in Hlast.
    destruct (reverse out); by simplify_eq/=.
  - rewrite fmap_last, last_reverse, Hhead. done.
  - intros part (x & Hx & <-)%layer_mapping_keys. destruct x as [s|a ps]; [done|].
    assert (existsb is_Assembly (dict_keys top') = true); [|congruence].
    apply existsb_exists. exists (ProjAssembly a ps).
    split; [by apply list_elem_of_In | done].
  - intros part. rewrite layer_mapping_keys.
    by setoid_rewrite first_layer_keys.
  - intros part dsts d Hget Hd.
    destruct (layer_mapping_dests _ _ _ _ Hget Hd) as (item & Hitem & Hin).
    rewrite (first_layer_items _ _ _ Hitem) in Hin.
    by apply list_elem_of_singleton in Hin.
Qed.
End SchedulerRounds.

(** ** The concrete [argpartition] sorts *)

Lemma insert_by_sorted (v : list Q) (i : nat) (l : list nat) :
  StronglySorted (fun a b => (default 0 (v !! a) <= default 0 (v !! b))%Q) l ->
  StronglySorted (fun a b => (default 0 (v !! a) <= default 0 (v !! b))%Q)
    (insert_by v i l).
Proof.
  induction l as [|j l IH]; simpl; intros Hs.
  - repeat constructor.
  - inversion_clear Hs as [|? ? Hl Hj].
    destruct (Qle_bool _ _) eqn:Hle.
    + constructor; [auto|]. rewrite insert_by_perm.
      constructor; [by apply Qle_bool_iff | done].
    + assert (default 0 (v !! i) < default 0 (v !! j))%Q as Hlt.
      { apply Qnot_le_lt. intros H%Qle_bool_iff. congruence. }
      constructor; [by constructor|]. constructor; [by apply Qlt_le_weak|].
      eapply Forall_impl; [exact Hj|]. simpl. intros b Hb.
      eapply Qle_trans; [by apply Qlt_le_weak | done].
Qed.

Lemma np_argsort_sorted (v : list Q) :
  StronglySorted (fun a b => (default 0 (v !! a) <= default 0 (v !! b))%Q)
    (np_argsort v).
Proof.
  unfold np_argsort.
  assert (StronglySorted
            (fun a b => (default 0 (v !! a) <= default 0 (v !! b))%Q) []) as Hnil
    by constructor.
  revert Hnil. generalize (@nil nat) as acc.
  induction (seq 0 (length v)) as [|i l IH]; intros acc Hacc; simpl; [done|].
  by apply IH, insert_by_sorted.
Qed.

Lemma StronglySorted_lookup_le {A : Type} (R : A -> A -> Prop) (l : list A)
    (i j : nat) (a b : A) :
  (forall x, R x x) -> StronglySorted R l -> i <= j ->
  l !! i = Some a -> l !! j = Some b -> R a b.
Proof.
  intros Hrefl Hs. revert i j. induction Hs as [|x l Hs IH Hall]; intros i j Hij Ha Hb.
  - done.
  - destruct i as [|i], j as [|j]; simpl in *; try lia.
    + by simplify_eq.
    + injection Ha as ->. rewrite Forall_forall in Hall. apply Hall.
      by eapply list_elem_of_lookup_2.
    + apply (IH i j); [lia | done..].
Qed.

Lemma np_argpartition_partitions : argpartition_partitions np_argpartition.
Proof.
  intros v kth order i j a b Hok _ Hij Ha Hb. unfold np_argpartition in Hok.
  case_decide; [|done]. injection Hok as <-.
  apply (StronglySorted_lookup_le
           (fun a b => (default 0 (v !! a) <= default 0 (v !! b))%Q)
           (np_argsort v) i j);
    [intros x; apply Qle_refl | apply np_argsort_sorted | lia | done..].
Qed.

(** ** Instances on the example objects *)

Module MoreWitnesses.
Import Ex ExMore Witnesses.

Lemma brain1_well_shaped : well_shaped brain1.
Proof.
  unfold brain1, empty_brain.
  apply add_area_well_shaped, add_area_well_shaped, add_stimulus_well_shaped,
    new_connectome_well_shaped.
Qed.

Lemma registration_keeps_well_shaped_witness :
  well_shaped (new_connectome counter_generate 1 [X1] [S0] true 0) /\
  well_shaped (add_area counter_generate empty_brain X1) /\
  well_shaped (add_stimulus counter_generate empty_brain S0).
Proof.
  destruct (registration_keeps_well_shaped counter_generate empty_brain X1 S0
              1 [X1] [S0] true 0) as [Hnew Hadd].
  split; [exact Hnew|]. apply Hadd. apply new_connectome_well_shaped.
Defined.

Lemma fire_connects_sources_witness :
  (forall s area, (s, area) ∈ pairs req2 -> s ∈ get_connected_parts brain3 area) /\
  (forall part area,
     part ∈ get_connected_parts brain2 area -> part ∈ get_connected_parts brain3 area) /\
  (forall part area,
     part ∈ get_connected_parts brain3 area ->
     part ∈ get_connected_parts brain2 area \/ (part, area) ∈ pairs req2).
Proof.
  exact (fire_connects_sources counter_generate beta_tenth np_argpartition
           brain2 req2 brain3 fire_brain2).
Defined.

(** Nothing is wired in [empty_brain]; in [brain1] the stimulus S0 and the
    area X1 are. *)
Lemma subconnectome_holds_no_connection_witness :
  subconnectome counter_generate 0 empty_brain req1 = Err KeyError /\
  exists sub,
    subconnectome counter_generate 0 brain1 req1 = OK sub /\
    connections sub = [] /\ winners sub = [] /\ p sub = p brain1 /\
    stimuli sub = omap as_stimulus (dict_keys req1) /\
    NoDup (areas sub) /\
    forall a, a ∈ areas sub <->
              PartArea a ∈ dict_keys req1 \/ exists item, item ∈ req1 /\ a ∈ item.2.
Proof.
  split.
  - apply (proj1 (subconnectome_holds_no_connection counter_generate 0
                    empty_brain req1)).
    exists (PartStimulus S0), [X1], X1. split_and!; [reflexivity | left | reflexivity].
  - apply (proj2 (subconnectome_holds_no_connection counter_generate 0 brain1 req1)).
    intros part dsts area Hget Harea. unfold req1 in Hget. simpl in Hget.
    case_decide; [|discriminate]. injection Hget as <-.
    apply list_elem_of_singleton in Harea. subst. by_evaluation.
Defined.

(** The winners computed for X2 are ignored when only X1 is in [sources]. *)
Lemma update_winners_commits_witness :
  update_winners brain_ones [] [(X1, [PartStimulus S0])] = Err KeyError /\
  exists st',
    update_winners brain_ones [(X1, [0; 1]); (X2, [2; 3])] [(X1, [PartStimulus S0])]
      = OK st' /\
    connections st' = connections brain_ones /\
    (forall area w,
       area ∈ dict_keys [(X1, [PartStimulus S0])] ->
       dict_get [(X1, [0; 1]); (X2, [2; 3])] area = Some w ->
       winners_of st' area = w) /\
    (forall area, area ∉ dict_keys [(X1, [PartStimulus S0])] ->
       winners_of st' area = winners_of brain_ones area).
Proof.
  split.
  - apply (proj1 (update_winners_commits brain_ones [] [(X1, [PartStimulus S0])])).
    exists X1. split; [left | reflexivity].
  - apply (proj2 (update_winners_commits brain_ones [(X1, [0; 1]); (X2, [2; 3])]
                    [(X1, [PartStimulus S0])])).
    intros area Harea. apply list_elem_of_singleton in Harea. subst. by_evaluation.
Defined.

Lemma fire_rounds_return_witness :
  exists st',
    fire_rounds counter_generate beta_tenth np_argpartition brain1 rounds12 = OK st' /\
    well_shaped st'.
Proof.
  apply (fire_rounds_return counter_generate beta_tenth np_argpartition
           brain1 rounds12).
  - exact np_argpartition_contract.
  - exact brain1_well_shaped.
  - intros req area Hreq Harea.
    assert (Forall (fun req => Forall (fun area => 1 <= area_k area <= area_n area)
                                 (dests req)) rounds12) as Hall by by_evaluation.
    rewrite Forall_forall in Hall. specialize (Hall _ Hreq).
    rewrite Forall_forall in Hall. exact (Hall _ Harea).
Defined.

Lemma fire_frozen_rounds :
  fire_rounds counter_generate beta_tenth np_argpartition brain_frozen rounds_frozen
  = OK brain_frozen_after.
Proof. apply returns_run. vm_compute. reflexivity. Defined.

Lemma fire_rounds_plasticity_disabled_witness :
  plasticity_disabled brain_frozen_after = true /\
  forall key c, dict_get (connections brain_frozen) key = Some c ->
                dict_get (connections brain_frozen_after) key = Some c.
Proof.
  apply (fire_rounds_plasticity_disabled counter_generate beta_tenth np_argpartition
           brain_frozen rounds_frozen brain_frozen_after).
  - reflexivity.
  - exact fire_frozen_rounds.
Defined.

Lemma fire_wired_request_draws_nothing_witness :
  rng brain_twice = rng brain_ones /\
  dict_keys (connections brain_twice) = dict_keys (connections brain_ones).
Proof.
  apply (fire_wired_request_draws_nothing counter_generate beta_tenth np_argpartition
           brain_ones req_twice brain_twice); [|exact fire_ones_twice].
  intros s area Hin.
  assert (Forall (fun pa : BrainPart * Area =>
                    is_Some (dict_get (connections brain_ones) (pa.1, PartArea pa.2)))
            (pairs req_twice)) as Hall by by_evaluation.
  rewrite Forall_forall in Hall. exact (Hall _ Hin).
Defined.

Lemma fire_quota_zero_raises_witness :
  exists e, fire0 empty_brain req_zero = Err e.
Proof.
  apply (fire_quota_zero_raises counter_generate beta_tenth np_argpartition
           empty_brain req_zero Z0).
  - exact np_argpartition_contract.
  - by_evaluation.
  - reflexivity.
  - vm_compute. lia.
Defined.

Lemma fire_empty_full : fire0 empty_brain req_full = OK brain_full.
Proof. apply returns_run. vm_compute. reflexivity. Defined.

Lemma fire_quota_covers_area_witness :
  winners_of brain_full F0 ≡ₚ seq 0 (area_n F0).
Proof.
  apply (fire_quota_covers_area counter_generate beta_tenth np_argpartition
           empty_brain req_full brain_full F0).
  - exact np_argpartition_contract.
  - exact fire_empty_full.
  - by_evaluation.
  - vm_compute. lia.
  - vm_compute. lia.
Defined.

Lemma fire_selects_largest_inputs_witness :
  exists inputs : list Q,
    prev_winner_inputs (winners brain2)
      (wired_connections counter_generate brain2 brain3) X1 (sources_for req2 X1)
      = OK inputs /\
    (forall j x, inputs !! j = Some x ->
       (x == qsum (map (fun s => source_input (winners brain2)
                                   (wired_connections counter_generate brain2 brain3)
                                   X1 s j)
                     (sources_for req2 X1)))%Q) /\
    forall a b,
      a ∈ winners_of brain3 X1 -> b < area_n X1 -> b ∉ winners_of brain3 X1 ->
      (default 0 (inputs !! b) <= default 0 (inputs !! a))%Q.
Proof.
  apply (fire_selects_largest_inputs counter_generate beta_tenth np_argpartition
           brain2 req2 brain3 X1).
  - exact np_argpartition_contract.
  - exact np_argpartition_partitions.
  - exact fire_brain2.
  - by_evaluation.
  - vm_compute. lia.
Defined.

(** The inputs of the round [req2] into X1 and the winners it selects. *)
Lemma fire_largest_inputs_values :
  match prev_winner_inputs (winners brain2)
          (wired_connections counter_generate brain2 brain3) X1
          (sources_for req2 X1) with
  | OK inputs => map Qred inputs
  | Err _ => []
  end = [4; 5; 63 # 10; 43 # 10]%Q /\
  winners_of brain3 X1 = [1; 2].
Proof. vm_compute. auto. Qed.
End MoreWitnesses.
